(** * Multi-site location hooks: a shallow embedding of the Python plugin

    The development follows the four source files of the plugin:

    - [hook/actions/transfer_action.py]: the "Transfer Components" action
      (discovery gate, interface form, launch handler, selection resolver and
      the batch transfer engine);
    - [hook/locations/user_location_plugin.py] and
      [hook/locations/s3_location_plugin.py]: the two configure-location
      handlers with their hostname gate;
    - [hook/multi_site_locations_plugin.py]: the patched event publish.

    The ftrack SDK is an external collaborator.  Its catalog queries and its
    [Location.add_component] are oracles (the class [SDK]), its exception
    hierarchy is the inductive type [exn], and the session of the transfer
    thread is an explicit store.  The calls on that session that reach the
    server or the SDK ([ftrack_api.Session(...)], [session.create],
    [session.commit], [session.rollback]) can raise: whether one does is
    asked of a second oracle (the class [Server]), whose instance [reliable]
    is the server that answers every call.  Every call the engine makes to a
    collaborator is recorded, in program order, in a trace of [event]s.

    A Python [str] is represented by its UTF-8 encoding; [str.lower] and
    [str.strip], which depend on the Unicode tables, are operations of the
    class [PyString].  The values read from the YAML configuration are Python
    values ([pyval]). *)

From stdpp Require Import base option list strings gmap pretty sorting.

Local Open Scope string_scope.
Local Open Scope list_scope.

(** ** Strings *)

(** The double-quote character, used by [get_filter_string], by the query
    templates and by [json.dumps]. *)
Definition dq : string := String (Ascii.ascii_of_nat 34) EmptyString.

(** [sep.join(parts)]. *)
Fixpoint join (sep : string) (parts : list string) : string :=
  match parts with
  | [] => ""
  | [p] => p
  | p :: rest => p +:+ sep +:+ join sep rest
  end.

(** [json.dumps({'description': d})] for a description [d] made of letters,
    digits, blanks, dots and parentheses (nothing [json.dumps] escapes). *)
Definition json_dumps_description (d : string) : string :=
  "{" +:+ dq +:+ "description" +:+ dq +:+ ": " +:+ dq +:+ d +:+ dq +:+ "}".

(** ** Exceptions

    The SDK classes [ComponentInLocationError] and
    [ComponentNotInLocationError] both derive from [LocationError]; the
    constructor [LocationError] stands for every instance of that class which
    is neither of the two.  The remaining constructors are exceptions outside
    the location hierarchy: the Python built-ins the handlers can raise
    themselves, and [OtherError cls] for anything else a collaborator raises
    (a server error, an accessor error, ...). *)
Inductive exn : Type :=
  | ComponentInLocationError
  | ComponentNotInLocationError
  | LocationError
  | IndexError
  | KeyError (key : string)
  | TypeError
  | AttributeError
  | OtherError (cls : string).

#[global] Instance exn_eq_dec : EqDecision exn.
Proof. solve_decision. Defined.

(** The classes named by the [except] clauses of the source. *)
Inductive exn_class : Type :=
  | cls_ComponentInLocationError
  | cls_ComponentNotInLocationError
  | cls_LocationError
  | cls_BaseException.

(** [isinstance(e, cls)]. *)
Definition isinstance (e : exn) (cls : exn_class) : bool :=
  match cls, e with
  | cls_BaseException, _ => true
  | cls_LocationError,
    (ComponentInLocationError | ComponentNotInLocationError | LocationError) => true
  | cls_ComponentInLocationError, ComponentInLocationError => true
  | cls_ComponentNotInLocationError, ComponentNotInLocationError => true
  | _, _ => false
  end.

(** ** Catalog entities *)

(** A component is identified by its id; Python's [set] of component entities
    compares them by identity, that is by id. *)
Definition Component : Type := string.

Record Location : Type := mkLocation {
  loc_id : string;
  loc_name : string;
  loc_label : string;          (* '' when the label is empty or unset *)
  loc_accessor : bool;         (* truth value of [location.accessor] *)
  loc_priority : Z
}.

#[global] Instance Location_eq_dec : EqDecision Location.
Proof. solve_decision. Defined.

(** One item of [event['data']['selection']]. *)
Record SelectionItem : Type := mkSelection {
  entityType : string;
  entityId : string
}.

(** The Job entity: [user_id], [status] and [data] are the three attributes
    the engine sets. *)
Record Job : Type := mkJob {
  job_user_id : option string;
  job_status : string;
  job_data : string
}.

#[global] Instance Job_eq_dec : EqDecision Job.
Proof. solve_decision. Defined.

Definition set_job_status (s : string) (j : Job) : Job :=
  mkJob (job_user_id j) s (job_data j).

Definition set_job_data (d : string) (j : Job) : Job :=
  mkJob (job_user_id j) (job_status j) d.

(** ** The session of the transfer thread

    [local] holds the entities as the thread sees them, [remote] what has
    been committed.  A job is addressed by its position in the store. *)
Record Session : Type := mkSession {
  local : list Job;
  remote : list Job
}.

Definition fresh_session : Session := mkSession [] [].

(** ** Trace of collaborator calls *)

Inductive log_level : Type := INFO | ERROR.

(** The calls on the session that can raise, each with what it would send:
    the entity to create, the local store to commit. *)
Inductive session_op : Type :=
  | OpSession                       (* ftrack_api.Session(...) *)
  | OpCreate (j : Job)              (* session.create('Job', j) *)
  | OpCommit (pending : list Job)   (* session.commit() *)
  | OpRollback.                     (* session.rollback() *)

Inductive event : Type :=
  | EvCreate (j : Job)                          (* session.create('Job', ...) *)
  | EvCommit (persisted : list Job)             (* session.commit() *)
  | EvRollback                                  (* session.rollback() *)
  | EvSessionError (op : session_op) (e : exn)  (* the call raised [e] *)
  | EvQuery (q : string)                        (* session.query(q).all() *)
  | EvAddComponent (target : Location) (c : Component)
                   (source : option Location) (raised : option exn)
  | EvLog (level : log_level) (fmt : string) (args : list string)
  | EvLogException (msg : string) (e : exn).    (* logger.exception(msg) *)

(** ** The SDK as seen by the plugin

    [location_add_component target c source st] is
    [target.add_component(c, source=source)] run in the state [st] of the
    location service: it returns the exception raised, if any, and the next
    state.  [session_query q] is [session.query(q).all()]: the entities
    matched, or the exception raised by the catalog. *)
Class SDK : Type := {
  LocState : Type;
  location_add_component :
    Location -> Component -> option Location -> LocState -> option exn * LocState;
  session_query : string -> exn + list Component
}.

(** [session_raises op] is the exception the session call [op] raises, if
    any: the server decides on the call and on what the call sends. *)
Class Server : Type := {
  session_raises : session_op -> option exn
}.

(** The server that answers every call. *)
#[global] Instance reliable : Server := {| session_raises := fun _ => None |}.

Section Engine.
Context `{sdk : SDK} {srv : Server}.

Record World : Type := mkWorld {
  session : Session;
  locations_state : LocState
}.

(** ** A state, exception and trace monad for the handlers *)

Definition M (A : Type) : Type := World -> (exn + A) * World * list event.

Definition run {A} (m : M A) (w : World) : (exn + A) * World * list event := m w.

#[global] Instance M_ret : MRet M := fun A (a : A) w => (inr a, w, []).

#[global] Instance M_bind : MBind M := fun A B (f : A -> M B) (m : M A) w =>
  match m w with
  | (inl e, w1, t1) => (inl e, w1, t1)
  | (inr a, w1, t1) =>
      match f a w1 with
      | (r, w2, t2) => (r, w2, t1 ++ t2)
      end
  end.

(** [raise e], and the bare [raise] of an [except] clause. *)
Definition raise {A} (e : exn) : M A := fun w => (inl e, w, []).

Definition emit (ev : event) : M unit := fun w => (inr tt, w, [ev]).

Definition get_session : M Session := fun w => (inr (session w), w, []).

Definition put_session (s : Session) : M unit :=
  fun w => (inr tt, mkWorld s (locations_state w), []).

(** [try: body except cls1: h1 except cls2: h2 ...]: the first clause whose
    class the exception is an instance of handles it; with no such clause the
    exception propagates. *)
Fixpoint dispatch {A} (clauses : list (exn_class * (exn -> M A))) (e : exn) : M A :=
  match clauses with
  | [] => raise e
  | (cls, h) :: rest => if isinstance e cls then h e else dispatch rest e
  end.

Definition try_except {A} (body : M A) (clauses : list (exn_class * (exn -> M A))) : M A :=
  fun w =>
    match body w with
    | (inr a, w1, t1) => (inr a, w1, t1)
    | (inl e, w1, t1) =>
        match dispatch clauses e w1 with
        | (r, w2, t2) => (r, w2, t1 ++ t2)
        end
    end.

(** *** Logging *)

Definition logger_info (fmt : string) (args : list string) : M unit :=
  emit (EvLog INFO fmt args).

(** [logger.exception(msg)] inside an [except] clause handling [e]. *)
Definition logger_exception (msg : string) (e : exn) : M unit :=
  emit (EvLogException msg e).

(** *** Session operations *)

(** A session call either raises what the server says, leaving the session
    as it is, or goes on. *)
Definition session_call (op : session_op) : M unit := fun w =>
  match session_raises op with
  | Some e => (inl e, w, [EvSessionError op e])
  | None => (inr tt, w, [])
  end.

(** [ftrack_api.Session(auto_connect_event_hub=False)]: the thread gets a
    session of its own. *)
Definition new_session : M unit :=
  session_call OpSession;;
  put_session fresh_session.

(** [session.create('Job', j)]: the handle is the position of the new entity. *)
Definition session_create (j : Job) : M nat :=
  session_call (OpCreate j);;
  s ← get_session;
  put_session (mkSession (local s ++ [j]) (remote s));;
  emit (EvCreate j);;
  mret (length (local s)).

(** [job[...] = ...]: an attribute of the local entity is replaced. *)
Definition job_update (job : nat) (f : Job -> Job) : M unit :=
  s ← get_session;
  put_session (mkSession (alter f job (local s)) (remote s)).

(** [session.commit()]: the local store becomes the committed one, unless
    the call raises. *)
Definition session_commit : M unit :=
  s ← get_session;
  session_call (OpCommit (local s));;
  put_session (mkSession (local s) (local s));;
  emit (EvCommit (local s)).

(** [session.rollback()]: the local changes are dropped. *)
Definition session_rollback : M unit :=
  session_call OpRollback;;
  s ← get_session;
  put_session (mkSession (remote s) (remote s));;
  emit EvRollback.

(** [session.query(q).all()]. *)
Definition query_all (q : string) : M (list Component) :=
  emit (EvQuery q);;
  match session_query q with
  | inl e => raise e
  | inr cs => mret cs
  end.

(** [target_location.add_component(component, source=source_location)].  A
    target that [session.get] did not find is [None], and the attribute
    access raises before the SDK is reached. *)
Definition add_component (target : option Location) (c : Component)
    (source : option Location) : M unit :=
  match target with
  | None => raise AttributeError
  | Some t => fun w =>
      match location_add_component t c source (locations_state w) with
      | (r, st) =>
          (match r with Some e => inl e | None => inr tt end,
           mkWorld (session w) st,
           [EvAddComponent t c source r])
      end
  end.


(** ** Selection resolver: [get_components_in_location] *)

(** [get_filter_string(entity_ids)]. *)
Definition get_filter_string (entity_ids : list string) : string :=
  join ", " (map (fun entity_id => dq +:+ entity_id +:+ dq) entity_ids).

(** [entity_groups[entity_type]] on the [defaultdict(list)]. *)
Definition group (entity_groups : gmap string (list string)) (entity_type : string)
    : list string :=
  default [] (entity_groups !! entity_type).

(** One turn of the grouping loop:
    [entity_groups[entity_type].append(entity_id)]. *)
Definition group_append (entity_groups : gmap string (list string))
    (selection : SelectionItem) : gmap string (list string) :=
  <[entityType selection :=
      group entity_groups (entityType selection) ++ [entityId selection]]>
    entity_groups.

Fixpoint group_entities (entities : list SelectionItem)
    (entity_groups : gmap string (list string)) : M (gmap string (list string)) :=
  match entities with
  | [] => mret entity_groups
  | selection :: rest =>
      logger_info "Processing entity: {0} ({1})"
                  [entityType selection; entityId selection];;
      group_entities rest (group_append entity_groups selection)
  end.

Definition project_query (ids : list string) : string :=
  "Component where (version.asset.parent.project.id in (" +:+ get_filter_string ids
  +:+ ") or version.asset.parent.id in (" +:+ get_filter_string ids +:+ "))".

Definition context_query (ids : list string) : string :=
  "Component where (version.asset.parent.ancestors.id in (" +:+ get_filter_string ids
  +:+ ") or version.asset.parent.id in (" +:+ get_filter_string ids +:+ "))".

Definition version_query (ids : list string) : string :=
  "Component where version_id in (" +:+ get_filter_string ids +:+ ")".

Definition component_query (ids : list string) : string :=
  "Component where id in (" +:+ get_filter_string ids +:+ ")".

(** [if entity_groups[key]: component_queries.append(template.format(...))]:
    an empty bucket is falsy and contributes no query. *)
Definition bucket_query (entity_groups : gmap string (list string))
    (key : string) (template : list string -> string) : list string :=
  match group entity_groups key with
  | [] => []
  | ids => [template ids]
  end.

Definition build_component_queries (entity_groups : gmap string (list string))
    : list string :=
  bucket_query entity_groups "Project" project_query
  ++ bucket_query entity_groups "TypedContext" context_query
  ++ bucket_query entity_groups "assetversion" version_query
  ++ bucket_query entity_groups "Component" component_query.

(** ['{0} and component_locations.location_id is "{1}"'.format(query_string,
    location['id'])]: the query string is followed by the constraint on the
    location; subscripting a location that is [None] raises. *)
Definition location_constraint (l : Location) : string :=
  " and component_locations.location_id is " +:+ dq +:+ loc_id l +:+ dq.

Definition in_location_query (query_string : string) (location : option Location)
    : M string :=
  match location with
  | None => raise TypeError
  | Some l => mret (query_string +:+ location_constraint l)
  end.

(** The query loop: [components.update(session.query(...).all())]. *)
Fixpoint query_components (component_queries : list string)
    (location : option Location) (components : gset Component) : M (gset Component) :=
  match component_queries with
  | [] => mret components
  | query_string :: rest =>
      logger_info "Querying components with: {0}" [query_string];;
      q ← in_location_query query_string location;
      found ← query_all q;
      query_components rest location (components ∪ list_to_set found)
  end.

(** The rendering of the groups in the log line (keys with their ids). *)
Definition show_groups (entity_groups : gmap string (list string)) : string :=
  join ", " (map (fun kv => fst kv +:+ ": [" +:+ get_filter_string (snd kv) +:+ "]")
                 (map_to_list entity_groups)).

Definition get_components_in_location (entities : list SelectionItem)
    (location : option Location) : M (list Component) :=
  entity_groups ← group_entities entities ∅;
  logger_info "Entity groups: {0}" [show_groups entity_groups];;
  let component_queries := build_component_queries entity_groups in
  components ← query_components component_queries location ∅;
  logger_info "Found {0} components in selection" [pretty (size components)];;
  mret (elements components).

(** ** Transfer engine: [transfer_components] *)

Definition gathering_description : string := "Transfer components (Gathering...)".

(** ['Transfer components ({0} of {1})'.format(index, amount)]. *)
Definition progress_description (index amount : nat) : string :=
  "Transfer components (" +:+ pretty index +:+ " of " +:+ pretty amount +:+ ")".

(** The [try]/[except] chain around one [add_component] call. *)
Definition copy_component (source_location target_location : option Location)
    (ignore_component_not_in_location ignore_location_errors : bool)
    (component : Component) : M unit :=
  try_except
    (add_component target_location component source_location)
    [ (cls_ComponentInLocationError, fun _ =>
         logger_info "Component ({}) already in target location" [component]);
      (cls_ComponentNotInLocationError, fun e =>
         if ignore_component_not_in_location || ignore_location_errors
         then logger_exception "Failed to add component to location" e
         else raise e);
      (cls_LocationError, fun e =>
         if ignore_location_errors
         then logger_exception "Failed to add component to location" e
         else raise e) ].

(** The body of [for index, component in enumerate(components, start=1)]. *)
Fixpoint transfer_loop (source_location target_location : option Location)
    (ignore_component_not_in_location ignore_location_errors : bool)
    (job amount index : nat) (components : list Component) : M unit :=
  match components with
  | [] => mret tt
  | component :: rest =>
      logger_info "Transferring component ({0} of {1})" [pretty index; pretty amount];;
      job_update job (set_job_data (json_dumps_description
                                      (progress_description index amount)));;
      session_commit;;
      copy_component source_location target_location
        ignore_component_not_in_location ignore_location_errors component;;
      transfer_loop source_location target_location
        ignore_component_not_in_location ignore_location_errors
        job amount (S index) rest
  end.

Definition show_user (user_id : option string) : string := default "None" user_id.

(** The [try] block of [transfer_components]. *)
Definition transfer_try_block (entities : list SelectionItem)
    (source_location target_location : option Location)
    (ignore_component_not_in_location ignore_location_errors : bool)
    (job : nat) : M unit :=
  components ← get_components_in_location entities source_location;
  let amount := length components in
  logger_info ">>> Transferring {0} components" [pretty amount];;
  transfer_loop source_location target_location
    ignore_component_not_in_location ignore_location_errors
    job amount 1 components;;
  job_update job (set_job_status "done");;
  session_commit;;
  logger_info "Transfer complete ({0} components)" [pretty amount].

(** The [except BaseException] clause of [transfer_components]. *)
Definition transfer_except_clause (job : nat) (e : exn) : M unit :=
  logger_exception "Transfer failed" e;;
  session_rollback;;
  job_update job (set_job_status "failed");;
  session_commit.

(** The job as handed to [session.create]. *)
Definition initial_job (user_id : option string) : Job :=
  mkJob user_id "running" (json_dumps_description gathering_description).

(** The body of the thread started by a call to [transfer_components]. *)
Definition transfer_components (entities : list SelectionItem)
    (source_location target_location : option Location)
    (user_id : option string)
    (ignore_component_not_in_location ignore_location_errors : bool) : M unit :=
  new_session;;
  job ← session_create (initial_job user_id);
  logger_info "Creating job for user {0}: {1}" [show_user user_id; pretty job];;
  session_commit;;
  try_except
    (transfer_try_block entities source_location target_location
       ignore_component_not_in_location ignore_location_errors job)
    [ (cls_BaseException, transfer_except_clause job) ].

(** The world in which the [try] block starts: the job has been created and
    committed. *)
Definition world_at_try (user_id : option string) (st : LocState) : World :=
  mkWorld (mkSession [initial_job user_id] [initial_job user_id]) st.

(** What the resolver returns to the engine. *)
Definition resolved (entities : list SelectionItem) (location : option Location)
    (st : LocState) : exn + list Component :=
  (run (get_components_in_location entities location)
       (mkWorld fresh_session st)).1.1.

(** One complete invocation, from a state [st] of the location service: the
    final world and the trace. *)
Definition invoke (entities : list SelectionItem)
    (source_location target_location : option Location)
    (user_id : option string)
    (ignore_component_not_in_location ignore_location_errors : bool)
    (st : LocState) : World * list event :=
  let r := run (transfer_components entities source_location target_location
                  user_id ignore_component_not_in_location ignore_location_errors)
               (mkWorld fresh_session st) in
  (r.1.2, r.2).

(** The status of the job as last committed. *)
Definition final_status (w : World) : option string :=
  job_status <$> remote (session w) !! 0.

End Engine.

(** ** The action handlers: [interface] and [launch] *)

(** The part of an action event the handlers read: [event['data']['values']]
    and [event['data']['selection']] when the keys are present, and
    [event['source']['user']['id']]. *)
Record ActionEvent : Type := mkActionEvent {
  ev_values : option (gmap string string);
  ev_selection : option (list SelectionItem);
  ev_user_id : string
}.

Definition excluded_locations : list string :=
  ["ftrack.origin"; "ftrack.connect"; "ftrack.server"; "ftrack.unmanaged";
   "ftrack.review"].

(** [sorted(locations, key=lambda location: location.priority)]: a stable
    sort, written as an insertion sort. *)
Fixpoint insert_by_priority (x : Location) (sorted : list Location) : list Location :=
  match sorted with
  | [] => [x]
  | y :: rest =>
      if (loc_priority x <=? loc_priority y)%Z then x :: y :: rest
      else y :: insert_by_priority x rest
  end.

Definition sorted_by_priority (locations : list Location) : list Location :=
  foldr insert_by_priority [] locations.

Definition by_priority (a b : Location) : Prop :=
  (loc_priority a <= loc_priority b)%Z.

(** The locations the form offers: those with an accessor, by priority,
    without the built-in ones. *)
Definition eligible_locations (catalog : list Location) : list Location :=
  let locations := filter (fun location => loc_accessor location = true) catalog in
  let locations := sorted_by_priority locations in
  filter (fun location => loc_name location ∉ excluded_locations) locations.

(** One entry of [locations_options]: ['label'] and ['value']. *)
Definition location_option (location : Location) : string * string :=
  (if decide (loc_label location = "") then loc_name location else loc_label location,
   loc_id location).

Inductive form_item : Type :=
  | FormLabel (value : string)
  | FormEnumerator (label name value : string) (data : list (string * string)).

Definition yes_no : list (string * string) := [("Yes", "true"); ("No", "false")].

(** [locations_options[i]['value']]. *)
Definition option_value (locations_options : list (string * string)) (i : nat)
    : exn + string :=
  match locations_options !! i with
  | Some o => inr o.2
  | None => inl IndexError
  end.

(** [interface]: the form, [None] when values were submitted, or the
    exception raised while the form is built. *)
Definition interface (catalog : list Location) (event : ActionEvent)
    : exn + option (list form_item) :=
  let values := default ∅ (ev_values event) in
  if decide (values = ∅) then
    let locations_options := location_option <$> eligible_locations catalog in
    match option_value locations_options 0 with
    | inl e => inl e
    | inr from_value =>
        match option_value locations_options 1 with
        | inl e => inl e
        | inr to_value =>
            inr (Some
              [ FormLabel "Transfer components between locations";
                FormEnumerator "From location" "from_location" from_value
                               locations_options;
                FormEnumerator "To location" "to_location" to_value
                               locations_options;
                FormLabel "---";
                FormEnumerator "Ignore missing" "ignore_component_not_in_location"
                               "false" yes_no;
                FormEnumerator "Ignore errors" "ignore_location_errors"
                               "false" yes_no ])
        end
    end
  else inr None.

(** [session.get('Location', id)]. *)
Definition session_get (catalog : list Location) (id : string) : option Location :=
  List.find (fun location => bool_decide (loc_id location = id)) catalog.

(** [==] on what [session.get] returns: entities are equal when they have the
    same identity; [None] equals only [None]. *)
Definition entity_eq (a b : option Location) : bool :=
  match a, b with
  | Some x, Some y => bool_decide (loc_id x = loc_id y)
  | None, None => true
  | _, _ => false
  end.

(** The arguments of one call to the asynchronous [transfer_components]. *)
Record TransferRequest : Type := mkRequest {
  req_entities : list SelectionItem;
  req_source : option Location;
  req_target : option Location;
  req_user_id : option string;
  req_ignore_missing : bool;
  req_ignore_errors : bool
}.

Inductive reply : Type :=
  | Response (success : bool) (message : string)
  | Form (items : option (list form_item)).

(** [values[key]]. *)
Definition subscript (values : gmap string string) (key : string) : exn + string :=
  match values !! key with
  | Some v => inr v
  | None => inl (KeyError key)
  end.

(** [launch]: what the handler returns (or raises) and the threads it
    started. *)
Definition launch (catalog : list Location) (event : ActionEvent)
    : (exn + reply) * list TransferRequest :=
  match ev_values event with
  | Some values =>
      match subscript values "from_location" with
      | inl e => (inl e, [])
      | inr from_location =>
      match subscript values "to_location" with
      | inl e => (inl e, [])
      | inr to_location =>
          let source_location := session_get catalog from_location in
          let target_location := session_get catalog to_location in
          if entity_eq source_location target_location then
            (inr (Response false "Source and target locations are the same."), [])
          else
            let ignore_component_not_in_location :=
              bool_decide (values !! "ignore_component_not_in_location" = Some "true") in
            let ignore_location_errors :=
              bool_decide (values !! "ignore_location_errors" = Some "true") in
            let user_id := ev_user_id event in
            match ev_selection event with
            | None => (inl (KeyError "selection"), [])
            | Some entities =>
                (inr (Response true "Transferring components..."),
                 [mkRequest entities source_location target_location (Some user_id)
                            ignore_component_not_in_location ignore_location_errors])
            end
      end
      end
  | None =>
      match interface catalog event with
      | inl e => (inl e, [])
      | inr form => (inr (Form form), [])
      end
  end.

(** The threads started by [launch], run one after the other from the state
    [st] of the location service: the traces of all of them. *)
Fixpoint run_spawned `{sdk : SDK} (spawned : list TransferRequest) (st : LocState)
    : list event :=
  match spawned with
  | [] => []
  | req :: rest =>
      let r := invoke (req_entities req) (req_source req) (req_target req)
                      (req_user_id req) (req_ignore_missing req)
                      (req_ignore_errors req) st in
      r.2 ++ run_spawned rest (locations_state r.1)
  end.

(** ** Observations on a trace *)

(** The [add_component] calls that reached the SDK, with what they raised. *)
Definition copy_attempts (tr : list event) : list (Component * option exn) :=
  omap (fun ev => match ev with
                  | EvAddComponent _ c _ r => Some (c, r)
                  | _ => None
                  end) tr.

(** The calls that returned normally: the components whose data was copied. *)
Definition copies_performed (tr : list event) : list Component :=
  omap (fun ev => match ev with
                  | EvAddComponent _ c _ None => Some c
                  | _ => None
                  end) tr.

(** The successive committed states of the job store. *)
Definition commits (tr : list event) : list (list Job) :=
  omap (fun ev => match ev with EvCommit p => Some p | _ => None end) tr.

(** The entities handed to [session.create]. *)
Definition creations (tr : list event) : list Job :=
  omap (fun ev => match ev with EvCreate j => Some j | _ => None end) tr.

(** Each [add_component] call paired with the job store as last committed
    before the call ([persisted] is the store committed before [tr]). *)
Fixpoint attempts_with_persisted (persisted : list Job) (tr : list event)
    : list (list Job * Component) :=
  match tr with
  | [] => []
  | EvCommit p :: tr' => attempts_with_persisted p tr'
  | EvAddComponent _ c _ _ :: tr' =>
      (persisted, c) :: attempts_with_persisted persisted tr'
  | _ :: tr' => attempts_with_persisted persisted tr'
  end.

(** The status and the description of the job as committed, over time. *)
Definition persisted_statuses (job : nat) (tr : list event) : list string :=
  omap (fun p => job_status <$> p !! job) (commits tr).

Definition persisted_data (job : nat) (tr : list event) : list string :=
  omap (fun p => job_data <$> p !! job) (commits tr).

(** The queries sent to the catalog. *)
Definition queries (tr : list event) : list string :=
  omap (fun ev => match ev with EvQuery q => Some q | _ => None end) tr.

(** The ids of the selection items of one entity type, in selection order. *)
Definition bucket_ids (entities : list SelectionItem) (entity_type : string)
    : list string :=
  entityId <$> filter (fun selection => entityType selection = entity_type) entities.

(** The four buckets the resolver reads, each with its query template. *)
Definition bucket_templates : list (string * (list string -> string)) :=
  [("Project", project_query); ("TypedContext", context_query);
   ("assetversion", version_query); ("Component", component_query)].

(** Events of the catalog and of the logger: they touch neither the job
    store nor the location service. *)
Definition catalog_event (ev : event) : Prop :=
  match ev with
  | EvLog _ _ _ | EvLogException _ _ | EvQuery _ => True
  | _ => False
  end.

(** An exception of an [add_component] call that the [except] chain lets
    through, under the two flags. *)
Definition fatal (ignore_missing ignore_errors : bool) (e : exn) : bool :=
  match e with
  | ComponentInLocationError => false
  | ComponentNotInLocationError => negb (ignore_missing || ignore_errors)
  | LocationError => negb ignore_errors
  | _ => true
  end.

(** The log line the [except] chain writes for an exception it absorbs. *)
Definition absorbed_log (c : Component) (e : exn) : event :=
  match e with
  | ComponentInLocationError =>
      EvLog INFO "Component ({}) already in target location" [c]
  | _ => EvLogException "Failed to add component to location" e
  end.

(** [t] put in front of the trace of an outcome. *)
Definition prepend {A B} (t : list event) (r : A * B * list event) : A * B * list event :=
  (r.1.1, r.1.2, t ++ r.2).

(** ** The trace of the copy loop in closed form *)

(** The job once the description of turn [index] has been set. *)
Definition progress_job (amount index : nat) (j : Job) : Job :=
  set_job_data (json_dumps_description (progress_description index amount)) j.

(** An attempt the loop survives: the call returned, or raised an exception
    the [except] chain absorbs. *)
Definition nonfatal (ignore_missing ignore_errors : bool)
    (a : Component * option exn) : Prop :=
  match a.2 with
  | Some e => fatal ignore_missing ignore_errors e = false
  | None => True
  end.

(** The events of one turn of the loop, given what the attempt raised. *)
Definition iteration_events (tgt : option Location) (src : option Location)
    (ignore_missing ignore_errors : bool) (amount : nat) (j : Job)
    (index : nat) (a : Component * option exn) : list event :=
  [EvLog INFO "Transferring component ({0} of {1})" [pretty index; pretty amount];
   EvCommit [progress_job amount index j]]
  ++ match tgt with
     | Some t => [EvAddComponent t a.1 src a.2]
     | None => []
     end
  ++ match a.2 with
     | Some e => if fatal ignore_missing ignore_errors e then [] else [absorbed_log a.1 e]
     | None => []
     end.

Fixpoint loop_events (tgt : option Location) (src : option Location)
    (ignore_missing ignore_errors : bool) (amount : nat) (j : Job)
    (index : nat) (attempts : list (Component * option exn)) : list event :=
  match attempts with
  | [] => []
  | a :: rest =>
      iteration_events tgt src ignore_missing ignore_errors amount j index a
      ++ loop_events tgt src ignore_missing ignore_errors amount j (S index) rest
  end.

(** The job after the turns [index], [index + 1], ... of [attempts]. *)
Definition job_after (amount : nat) (j : Job) (index : nat)
    (attempts : list (Component * option exn)) : Job :=
  match attempts with
  | [] => j
  | _ => progress_job amount (index + length attempts - 1) j
  end.

(** ** The shape of an invocation *)

Definition header_events (user_id : option string) : list event :=
  [EvCreate (initial_job user_id);
   EvLog INFO "Creating job for user {0}: {1}" [show_user user_id; pretty 0];
   EvCommit [initial_job user_id]].

Definition abort_events (e : exn) (j : Job) : list event :=
  [EvLogException "Transfer failed" e; EvRollback;
   EvCommit [set_job_status "failed" j]].

Definition done_events (amount : nat) (j : Job) : list event :=
  [EvCommit [set_job_status "done" j];
   EvLog INFO "Transfer complete ({0} components)" [pretty amount]].

Definition gathered_event (amount : nat) : event :=
  EvLog INFO ">>> Transferring {0} components" [pretty amount].

(** The four ways an invocation can go, with its final world and its trace:
    the resolver raises; the target location is [None] and the first turn
    raises; an [add_component] call raises an exception that is let through;
    every turn is survived. *)
Inductive invocation_shape `{sdk : SDK} (entities : list SelectionItem)
    (src tgt : option Location) (user_id : option string)
    (ignore_missing ignore_errors : bool) (st : LocState)
    : World -> list event -> Prop :=
  | resolver_raised e tr_res :
      resolved entities src st = inl e ->
      Forall catalog_event tr_res ->
      invocation_shape entities src tgt user_id ignore_missing ignore_errors st
        (mkWorld (let j := set_job_status "failed" (initial_job user_id) in
                  mkSession [j] [j]) st)
        (header_events user_id ++ tr_res ++ abort_events e (initial_job user_id))
  | target_missing c rest tr_res :
      resolved entities src st = inr (c :: rest) ->
      tgt = None ->
      Forall catalog_event tr_res ->
      let amount := length (c :: rest) in
      let j1 := progress_job amount 1 (initial_job user_id) in
      invocation_shape entities src tgt user_id ignore_missing ignore_errors st
        (mkWorld (let j := set_job_status "failed" j1 in mkSession [j] [j]) st)
        (header_events user_id ++ tr_res ++ [gathered_event amount]
         ++ [EvLog INFO "Transferring component ({0} of {1})" [pretty 1; pretty amount];
             EvCommit [j1]]
         ++ abort_events AttributeError j1)
  | copy_raised comps t pre c e st' tr_res :
      resolved entities src st = inr comps ->
      tgt = Some t ->
      Forall catalog_event tr_res ->
      (pre ++ [(c, Some e)]).*1 = take (S (length pre)) comps ->
      fatal ignore_missing ignore_errors e = true ->
      Forall (nonfatal ignore_missing ignore_errors) pre ->
      let amount := length comps in
      let j1 := job_after amount (initial_job user_id) 1 (pre ++ [(c, Some e)]) in
      invocation_shape entities src tgt user_id ignore_missing ignore_errors st
        (mkWorld (let j := set_job_status "failed" j1 in mkSession [j] [j]) st')
        (header_events user_id ++ tr_res ++ [gathered_event amount]
         ++ loop_events tgt src ignore_missing ignore_errors amount
              (initial_job user_id) 1 (pre ++ [(c, Some e)])
         ++ abort_events e j1)
  | completed comps attempts st' tr_res :
      resolved entities src st = inr comps ->
      (tgt = None -> comps = []) ->
      Forall catalog_event tr_res ->
      attempts.*1 = comps ->
      Forall (nonfatal ignore_missing ignore_errors) attempts ->
      let amount := length comps in
      let j1 := job_after amount (initial_job user_id) 1 attempts in
      invocation_shape entities src tgt user_id ignore_missing ignore_errors st
        (mkWorld (let j := set_job_status "done" j1 in mkSession [j] [j]) st')
        (header_events user_id ++ tr_res ++ [gathered_event amount]
         ++ loop_events tgt src ignore_missing ignore_errors amount
              (initial_job user_id) 1 attempts
         ++ done_events amount j1).

(** A computation that only talks to the catalog and the logger: its result
    and its trace do not depend on the world, which it leaves as it is. *)
Definition reads_catalog `{sdk : SDK} {A} (m : M A) : Prop :=
  exists r tr, Forall catalog_event tr /\ forall w, run m w = (r, w, tr).

(** The attempts of a batch whose components are all in the target already:
    each raises the already-present error. *)
Definition already_present (comps : list Component) : list (Component * option exn) :=
  (fun c => (c, Some ComponentInLocationError)) <$> comps.

(** ** Python strings and values *)

(** [str.lower()] and [str.strip()] follow the Unicode tables of the
    interpreter: they fold every cased letter and remove every white-space
    character, not only the ASCII ones.  They are operations of this class,
    with the properties the proofs use: lower-casing and stripping twice is
    lower-casing and stripping once, and neither makes a string empty that
    has a letter in it. *)
Class PyString : Type := {
  lower : string -> string;
  strip : string -> string;
  lower_empty : forall s, lower s = "" <-> s = "";
  lower_idemp : forall s, lower (lower s) = lower s;
  strip_nil : strip "" = "";
  strip_idemp : forall s, strip (strip s) = strip s
}.

(** The keys of a Python dict read from YAML or built by a caller: [None], a
    bool, an int or a str; [KOther] stands for a key of another hashable type
    (a float, a date, a tuple), with its truth value and its [str()]. *)
Inductive pykey : Type :=
  | KNone
  | KBool (b : bool)
  | KInt (n : Z)
  | KStr (s : string)
  | KOther (truth : bool) (text : string).

#[global] Instance pykey_eq_dec : EqDecision pykey.
Proof. solve_decision. Defined.

(** The values: [None], bool, int, str, list and dict; [VOther] stands for a
    value of another type (a float, a date), with its truth value.  The
    entries of a dict are in insertion order and their keys are distinct. *)
#[warnings="-register-all"]
Inductive pyval : Type :=
  | VNone
  | VBool (b : bool)
  | VInt (n : Z)
  | VStr (s : string)
  | VList (items : list pyval)
  | VDict (entries : list (pykey * pyval))
  | VOther (truth : bool).

(** [bool(v)]. *)
Definition truthy (v : pyval) : bool :=
  match v with
  | VNone => false
  | VBool b => b
  | VInt n => negb (n =? 0)%Z
  | VStr s => negb (bool_decide (s = ""))
  | VList items => negb (bool_decide (items = []))
  | VDict entries => match entries with [] => false | _ => true end
  | VOther truth => truth
  end.

Definition key_truthy (k : pykey) : bool :=
  match k with
  | KNone => false
  | KBool b => b
  | KInt n => negb (n =? 0)%Z
  | KStr s => negb (bool_decide (s = ""))
  | KOther truth _ => truth
  end.

(** [str(k)]. *)
Definition key_str (k : pykey) : string :=
  match k with
  | KNone => "None"
  | KBool true => "True"
  | KBool false => "False"
  | KInt n => pretty n
  | KStr s => s
  | KOther _ text => text
  end.

(** [v or {}]. *)
Definition or_empty_dict (v : pyval) : pyval :=
  if truthy v then v else VDict [].

(** The value under a str key of a dict. *)
Definition dict_lookup (entries : list (pykey * pyval)) (key : string) : option pyval :=
  snd <$> List.find (fun entry => bool_decide (entry.1 = KStr key)) entries.

(** [v.get(key, dflt)]: only a dict has the method. *)
Definition py_get (v : pyval) (key : string) (dflt : pyval) : exn + pyval :=
  match v with
  | VDict entries => inr (default dflt (dict_lookup entries key))
  | _ => inl AttributeError
  end.

(** [v.items()]. *)
Definition py_items (v : pyval) : exn + list (pykey * pyval) :=
  match v with
  | VDict entries => inr entries
  | _ => inl AttributeError
  end.

(** ** The configure-location hooks *)

(** The machine a hook runs on: what [socket.gethostname()] and
    [platform.node()] return ([None] when the call raises), [os.environ]
    and [sys.platform]; and the calls into the SDK and into boto3 that can
    raise there, each with the exception it raises, if any:
    [session.ensure('Location', {'name': name})],
    [DiskAccessor(prefix=path)], [S3Accessor(bucket)] and
    [boto3.resource('s3', endpoint_url=endpoint, ...)]. *)
Record Host : Type := mkHost {
  socket_gethostname : option string;
  platform_node : option string;
  environ : gmap string string;
  sys_platform : string;
  ensure_raises : string -> option exn;
  disk_accessor_raises : pyval -> option exn;
  s3_accessor_raises : string -> option exn;
  boto3_resource_raises : string -> option exn
}.

(** [os.environ.get('COMPUTERNAME', os.environ.get('HOSTNAME', 'unknown'))]. *)
Definition environ_hostname (host : Host) : string :=
  default (default "unknown" (environ host !! "HOSTNAME"))
          (environ host !! "COMPUTERNAME").

(** [get_hostname()] of the disk/user hook. *)
Definition get_hostname (host : Host) : string :=
  match socket_gethostname host with
  | Some name => name
  | None =>
      match platform_node host with
      | Some name => name
      | None => environ_hostname host
      end
  end.

(** An event on the hub: its topic and the string fields of its source
    ([None] when the event has no ['source'] key). *)
Record HubEvent : Type := mkHubEvent {
  hub_topic : string;
  hub_source : option (gmap string string)
}.

(** The gate of both hooks:
    [if event_hostname and event_hostname != current_hostname: return]. *)
Definition skips (event_hostname current_hostname : string) : bool :=
  negb (bool_decide (event_hostname = "")) &&
  negb (bool_decide (event_hostname = current_hostname)).

Inductive Accessor : Type :=
  | DiskAccessor (prefix : pyval)
  | S3Accessor (bucket endpoint : string).

(** What a session knows about a Location entity it configures: the three
    attributes the hooks assign, [None] or [false] while unassigned. *)
Record LocationSetup : Type := mkSetup {
  setup_accessor : option Accessor;
  setup_structure : bool;         (* a StandardStructure has been set *)
  setup_priority : option pyval
}.

(** The Location entities of the session being configured, by name. *)
Abbreviation ApiSession := (gmap string LocationSetup).

(** [session.ensure('Location', {'name': name})] when it returns. *)
Definition ensure (session : ApiSession) (name : string) : ApiSession :=
  match session !! name with
  | Some _ => session
  | None => <[name := mkSetup None false None]> session
  end.

(** [location.accessor = a], [location.structure = StandardStructure()] and
    [location.priority = p] on the entity called [name]. *)
Definition set_accessor (name : string) (a : Accessor) (session : ApiSession)
    : ApiSession :=
  alter (fun l => mkSetup (Some a) (setup_structure l) (setup_priority l)) name session.

Definition set_structure (name : string) (session : ApiSession) : ApiSession :=
  alter (fun l => mkSetup (setup_accessor l) true (setup_priority l)) name session.

Definition set_priority (name : string) (p : pyval) (session : ApiSession)
    : ApiSession :=
  alter (fun l => mkSetup (setup_accessor l) (setup_structure l) (Some p)) name session.

(** [cleaned_locations[name] = data] on a dict kept in insertion order. *)
Fixpoint dict_set {V} (key : string) (v : V) (d : list (string * V)) : list (string * V) :=
  match d with
  | [] => [(key, v)]
  | (k, old) :: rest =>
      if decide (k = key) then (k, v) :: rest else (k, old) :: dict_set key v rest
  end.

(** [os.getenv(name)]. *)
Definition getenv (host : Host) (name : string) : option string :=
  environ host !! name.

(** [_get_s3_api_endpoint()]. *)
Definition get_s3_api_endpoint (host : Host) : option string :=
  match getenv host "S3_MINIO_ENDPOINT_URL" with
  | Some value => if decide (value = "") then getenv host "S3_MINIO_API_ENDPOINT_URL"
                  else Some value
  | None => getenv host "S3_MINIO_API_ENDPOINT_URL"
  end.

(** [bool(os.getenv(name))]. *)
Definition env_set (host : Host) (name : string) : bool :=
  match getenv host name with
  | Some value => negb (bool_decide (value = ""))
  | None => false
  end.

Definition configure_location_topic : string := "ftrack.api.session.configure-location".

Section Hooks.
Context {py : PyString}.

(** [event.get('source', {}).get('hostname', '').lower()]. *)
Definition event_hostname (event : HubEvent) : string :=
  lower (default "" (default ∅ (hub_source event) !! "hostname")).

(** The cleaning loop of [load_location_config]:
    [name = (str(raw_name) if raw_name is not None else '').strip()], the
    entries without a name are skipped, and
    [cleaned_locations[name] = location_data or {}]. *)
Definition clean_name (raw_name : pykey) : string :=
  strip (match raw_name with KNone => "" | _ => key_str raw_name end).

Fixpoint clean_locations (raw_locations : list (pykey * pyval))
    (cleaned : list (string * pyval)) : list (string * pyval) :=
  match raw_locations with
  | [] => cleaned
  | (raw_name, location_data) :: rest =>
      let name := clean_name raw_name in
      if decide (name = "") then clean_locations rest cleaned
      else clean_locations rest (dict_set name (or_empty_dict location_data) cleaned)
  end.

(** [load_location_config], from [config = yaml.safe_load(rendered_yaml)]
    on: [config or {}], [config.get('locations', {}) or {}], the loop over
    [raw_locations.items()].  Reading the file and rendering the template
    come before and are not part of the model. *)
Definition load_location_config (config : pyval)
    : exn + list (string * pyval) :=
  match py_get (or_empty_dict config) "locations" (VDict []) with
  | inl e => inl e
  | inr raw_locations =>
      match py_items (or_empty_dict raw_locations) with
      | inl e => inl e
      | inr entries => inr (clean_locations entries [])
      end
  end.

(** [(location_name or '').strip()]: a key that is true and not a str has
    no [strip]. *)
Definition entry_name (location_name : pykey) : exn + string :=
  if key_truthy location_name then
    match location_name with
    | KStr s => inr (strip s)
    | _ => inl AttributeError
    end
  else inr (strip "").

(** [location_data.get('prefix', {}).get(sys.platform, '')]. *)
Definition entry_path (host : Host) (location_data : pyval) : exn + pyval :=
  match py_get location_data "prefix" (VDict []) with
  | inl e => inl e
  | inr prefix_data => py_get prefix_data (sys_platform host) (VStr "")
  end.

(** [location_data.get('priority', next(index))], for a [location_data] that
    has answered [get] before. *)
Definition entry_priority (location_data : pyval) (index : nat) : pyval :=
  match location_data with
  | VDict entries => default (VInt (Z.of_nat index)) (dict_lookup entries "priority")
  | _ => VInt (Z.of_nat index)
  end.

(** [session_add_user_location]: the exception that ends the loop, if any,
    and the session as the loop leaves it.  [index] is the state of
    [itertools.count()]: [next(index)] is evaluated each time the priority is
    assigned. *)
Fixpoint session_add_user_location (host : Host) (index : nat)
    (location_setup : list (pykey * pyval)) (session : ApiSession)
    : option exn * ApiSession :=
  match location_setup with
  | [] => (None, session)
  | (location_name, location_data) :: rest =>
      match entry_name location_name with
      | inl e => (Some e, session)
      | inr location_name =>
      if decide (location_name = "") then
        session_add_user_location host index rest session
      else
      match ensure_raises host location_name with
      | Some e => (Some e, session)
      | None =>
      let session := ensure session location_name in
      match entry_path host location_data with
      | inl e => (Some e, session)
      | inr location_path =>
      if negb (truthy location_path) then
        session_add_user_location host index rest session
      else
      match disk_accessor_raises host location_path with
      | Some e => (Some e, session)
      | None =>
          let session := set_accessor location_name (DiskAccessor location_path) session in
          let session := set_structure location_name session in
          let session :=
            set_priority location_name (entry_priority location_data index) session in
          session_add_user_location host (S index) rest session
      end end end end
  end.

(** [configure_locations(event, location_setup)]; [config_file] is the
    parsed content of [disk_locations.yaml], [None] when the file does not
    exist; the event carries the session. *)
Definition configure_locations (host : Host) (config_file : option pyval)
    (event : HubEvent) (location_setup : option (list (pykey * pyval)))
    (session : ApiSession) : option exn * ApiSession :=
  let current_hostname := lower (get_hostname host) in
  if skips (event_hostname event) current_hostname then (None, session)
  else
    match location_setup with
    | Some location_setup => session_add_user_location host 0 location_setup session
    | None =>
        match config_file with
        | None => (None, session)
        | Some config =>
            match load_location_config config with
            | inl e => (Some e, session)
            | inr location_setup =>
                session_add_user_location host 0
                  ((fun entry => (KStr entry.1, entry.2)) <$> location_setup) session
            end
        end
    end.

(** [session_add_s3_location]: the exception raised, if any, and the session
    as the call leaves it. *)
Definition session_add_s3_location (host : Host) (session : ApiSession)
    : option exn * ApiSession :=
  let location_name := strip (default "" (getenv host "S3_LOCATION_NAME")) in
  if decide (location_name = "") then (None, session) else
  let bucket := strip (default "" (getenv host "S3_BUCKET")) in
  if decide (bucket = "") then (None, session) else
  match get_s3_api_endpoint host with
  | None => (None, session)
  | Some endpoint =>
      if decide (endpoint = "") then (None, session) else
      if negb (env_set host "AWS_ACCESS_KEY_ID" || env_set host "AWS_PROFILE")
      then (None, session)
      else
      match ensure_raises host location_name with
      | Some e => (Some e, session)
      | None =>
      let session := ensure session location_name in
      let session := set_structure location_name session in
      match s3_accessor_raises host bucket with
      | Some e => (Some e, session)
      | None =>
      match boto3_resource_raises host endpoint with
      | Some e => (Some e, session)
      | None =>
          let session :=
            set_accessor location_name (S3Accessor bucket endpoint) session in
          (None, set_priority location_name (VInt 10) session)
      end end end
  end.

(** The current hostname as [configure_s3_location] computes it. *)
Definition s3_current_hostname (host : Host) : string :=
  match socket_gethostname host with
  | Some name => lower name
  | None => lower (environ_hostname host)
  end.

(** [configure_s3_location(event)]. *)
Definition configure_s3_location (host : Host) (event : HubEvent)
    (session : ApiSession) : option exn * ApiSession :=
  let current_hostname := s3_current_hostname host in
  if skips (event_hostname event) current_hostname then (None, session)
  else session_add_s3_location host session.

(** [publish_with_hostname(event)]: the event as handed to the original
    [publish]. *)
Definition publish_with_hostname (host : Host) (event : HubEvent) : HubEvent :=
  if decide (hub_topic event = configure_location_topic) then
    match socket_gethostname host with
    | Some name =>
        mkHubEvent (hub_topic event)
                   (Some (<["hostname" := lower name]> (default ∅ (hub_source event))))
    | None => event
    end
  else event.

End Hooks.


(** ** The discovery handler: [discover] *)

Definition SUPPORTED_ENTITY_TYPES : list string :=
  ["assetversion"; "TypedContext"; "Project"; "Component"].

(** One entry of the ['items'] list returned by [discover]. *)
Record ActionItem : Type := mkActionItem {
  item_label : string;
  item_description : string;
  item_actionIdentifier : string
}.

Definition action_label : string := "Transfer Components [new]".
Definition action_identifier : string := "transfer.components".
Definition action_description : string := "Transfer components between locations.".

(** [discover]: the items returned, [None] for the bare [return], or the
    exception raised.  [selection[0]] is evaluated only when the first test
    of the [or] is false. *)
Definition discover (event : ActionEvent) : exn + option (list ActionItem) :=
  let selection := default [] (ev_selection event) in
  if bool_decide (length selection ≠ 1) then inr None
  else
    match selection !! 0 with
    | None => inl IndexError
    | Some first =>
        if bool_decide (entityType first ∉ SUPPORTED_ENTITY_TYPES) then inr None
        else inr (Some [mkActionItem action_label action_description
                                     action_identifier])
    end.

(** ** The launch hook of the plugin: [add_path_to_event_plugins] *)

Definition FTRACK_EVENT_PLUGIN_PATH : string := "FTRACK_EVENT_PLUGIN_PATH".

(** [append_path_to_environment(environment, key, path)]; [pathsep] is
    [os.pathsep]. *)
Definition append_path_to_environment (pathsep : string)
    (environment : gmap string string) (key path : string) : gmap string string :=
  let current_value := default "" (environment !! key) in
  <[key := if decide (current_value = "") then path
           else join pathsep [current_value; path]]> environment.

(** The part of a launch event the hook goes through: [event['data']],
    [data['options']] and [options['env']], each possibly absent, with the
    other string fields of the two dictionaries. *)
Record LaunchOptions : Type := mkLaunchOptions {
  options_env : option (gmap string string);
  options_other : gmap string string
}.

Record LaunchData : Type := mkLaunchData {
  launch_options : option LaunchOptions;
  launch_other : gmap string string
}.

Record LaunchEvent : Type := mkLaunchEvent {
  launch_topic : string;
  launch_data : option LaunchData
}.

(** [add_path_to_event_plugins(event, path)]: the three [setdefault] calls
    and the update of the environment; the event after the call. *)
Definition add_path_to_event_plugins (pathsep : string) (event : LaunchEvent)
    (path : string) : LaunchEvent :=
  let event_data := default (mkLaunchData None ∅) (launch_data event) in
  let options := default (mkLaunchOptions None ∅) (launch_options event_data) in
  let env := default ∅ (options_env options) in
  let env := append_path_to_environment pathsep env FTRACK_EVENT_PLUGIN_PATH path in
  mkLaunchEvent (launch_topic event)
    (Some (mkLaunchData (Some (mkLaunchOptions (Some env) (options_other options)))
                        (launch_other event_data))).

(** The environment the launched process gets from the event. *)
Definition launch_env (event : LaunchEvent) : gmap string string :=
  default ∅ (options_env
               (default (mkLaunchOptions None ∅)
                        (launch_options
                           (default (mkLaunchData None ∅) (launch_data event))))).

(** ** More observations on a trace *)

(** The [session.rollback()] calls. *)
Definition rollbacks (tr : list event) : list unit :=
  omap (fun ev => match ev with EvRollback => Some tt | _ => None end) tr.

(** Flags [(m2, e2)] absorb every exception that flags [(m1, e1)] absorb. *)
Definition more_tolerant (m1 e1 m2 e2 : bool) : Prop :=
  forall e, fatal m2 e2 e = true -> fatal m1 e1 e = true.

(** The values a user submits when the form is sent back unchanged: each
    enumerator field with its preset value. *)
Definition submitted_defaults (form : list form_item) : gmap string string :=
  list_to_map
    (omap (fun item => match item with
                       | FormEnumerator _ name value _ => Some (name, value)
                       | FormLabel _ => None
                       end) form).

(** ** More on the configure-location hooks *)

Section HookNotions.
Context {py : PyString}.

(** An entry of the setup that [session_add_user_location] registers, as long
    as the SDK raises nothing: its name is not blank and it has a path for
    this platform.  These are the entries that advance the counter of the
    default priorities. *)
Definition registers (host : Host) (entry : pykey * pyval) : bool :=
  match entry_name entry.1, entry_path host entry.2 with
  | inr name, inr path => negb (bool_decide (name = "")) && truthy path
  | _, _ => false
  end.

(** One entry of the YAML mapping as [load_location_config] keeps it:
    the stripped name with the data, unless the name is blank. *)
Definition normalise_entry (entry : pykey * pyval) : option (string * pyval) :=
  let name := clean_name entry.1 in
  if decide (name = "") then None else Some (name, or_empty_dict entry.2).

End HookNotions.

(** ** Strings of ASCII characters

    On a string of ASCII characters [str.lower()] folds the letters [A] to
    [Z] and [str.strip()] removes the characters 9 to 13 and 28 to 32 at both
    ends.  This instance is the one of the concrete runs. *)
Definition ascii_lower_char (c : Ascii.ascii) : Ascii.ascii :=
  let n := Ascii.nat_of_ascii c in
  if ((65 <=? n) && (n <=? 90))%nat then Ascii.ascii_of_nat (n + 32) else c.

Fixpoint ascii_lower (s : string) : string :=
  match s with
  | EmptyString => EmptyString
  | String c rest => String (ascii_lower_char c) (ascii_lower rest)
  end.

Definition ascii_space (c : Ascii.ascii) : bool :=
  let n := Ascii.nat_of_ascii c in
  (((9 <=? n) && (n <=? 13)) || ((28 <=? n) && (n <=? 32)))%nat.

Fixpoint ascii_lstrip (s : string) : string :=
  match s with
  | EmptyString => EmptyString
  | String c rest => if ascii_space c then ascii_lstrip rest else s
  end.

Fixpoint ascii_rstrip (s : string) : string :=
  match s with
  | EmptyString => EmptyString
  | String c rest =>
      match ascii_rstrip rest with
      | EmptyString => if ascii_space c then EmptyString else String c EmptyString
      | kept => String c kept
      end
  end.

Definition ascii_strip (s : string) : string := ascii_rstrip (ascii_lstrip s).

Definition ascii_text : PyString.
Proof.
  refine {| lower := ascii_lower; strip := ascii_strip |}.
  - intros s. by destruct s.
  - intros s. induction s as [|c s IH]; [done|]. cbn [ascii_lower]. f_equal; [|done].
    by destruct c as [[] [] [] [] [] [] [] []].
  - reflexivity.
  - assert (Hr : forall s, ascii_rstrip (ascii_rstrip s) = ascii_rstrip s).
    { induction s as [|c s IH]; [done|]. cbn [ascii_rstrip].
      destruct (ascii_rstrip s) as [|d kept] eqn:E.
      - destruct (ascii_space c) eqn:Hc; [done|]. cbn [ascii_rstrip]. by rewrite Hc.
      - change (ascii_rstrip (String c (String d kept)))
          with (match ascii_rstrip (String d kept) with
                | EmptyString =>
                    if ascii_space c then EmptyString else String c EmptyString
                | k => String c k
                end).
        by rewrite IH. }
    assert (Hl : forall s,
      match ascii_lstrip s with
      | EmptyString => True
      | String c _ => ascii_space c = false
      end).
    { induction s as [|c s IH]; [done|]. cbn [ascii_lstrip].
      by destruct (ascii_space c) eqn:Hc. }
    assert (Hk : forall s,
      match s with EmptyString => True | String c _ => ascii_space c = false end ->
      ascii_lstrip (ascii_rstrip s) = ascii_rstrip s).
    { intros [|c s] Hs; [done|]. cbn [ascii_rstrip].
      destruct (ascii_rstrip s); rewrite ?Hs; cbn [ascii_lstrip]; by rewrite Hs. }
    intros s. unfold ascii_strip. rewrite Hk by apply Hl. apply Hr.
Defined.

(** ** Invocations on a server that can fail *)

(** The session calls that raised. *)
Definition session_errors (tr : list event) : list (session_op * exn) :=
  omap (fun ev => match ev with EvSessionError op e => Some (op, e) | _ => None end) tr.

(** The thread ended on a session call that raised. *)
Definition ends_on_session_error (tr : list event) : bool :=
  match last tr with
  | Some (EvSessionError _ _) => true
  | _ => false
  end.

(** The session calls made before the [try] block. *)
Definition header_calls (user_id : option string) : list session_op :=
  [OpSession; OpCreate (initial_job user_id); OpCommit [initial_job user_id]].

Section AnyServerShapes.
Context `{sdk : SDK} {srv : Server}.

(** What the [except BaseException] clause does after the log line, from the
    world [w] in which the [try] block stopped. *)
Definition cleanup (w : World) : (exn + unit) * World * list event :=
  match session_raises OpRollback with
  | Some e => (inl e, w, [EvSessionError OpRollback e])
  | None =>
      let l := alter (set_job_status "failed") 0 (remote (session w)) in
      match session_raises (OpCommit l) with
      | Some e => (inl e, mkWorld (mkSession l (remote (session w))) (locations_state w),
                   [EvRollback; EvSessionError (OpCommit l) e])
      | None => (inr tt, mkWorld (mkSession l l) (locations_state w),
                 [EvRollback; EvCommit l])
      end
  end.

(** How the loop can end under any server: every turn is survived; a copy
    raises an exception that is let through; the commit of a progress
    description raises; the target is [None] and the first copy raises. *)
Inductive loop_end (tgt : option Location) (inm ile : bool) (amount index : nat)
    (j : Job) (comps : list Component) (attempts : list (Component * option exn))
    : exn + unit -> Session -> list event -> Prop :=
  | loop_completed :
      length attempts = length comps ->
      Forall (nonfatal inm ile) attempts ->
      loop_end tgt inm ile amount index j comps attempts (inr tt)
        (let j' := job_after amount j index attempts in mkSession [j'] [j']) []
  | loop_copy_raised pre c e :
      attempts = pre ++ [(c, Some e)] ->
      fatal inm ile e = true ->
      Forall (nonfatal inm ile) pre ->
      loop_end tgt inm ile amount index j comps attempts (inl e)
        (let j' := job_after amount j index attempts in mkSession [j'] [j']) []
  | loop_commit_raised e :
      length attempts < length comps ->
      Forall (nonfatal inm ile) attempts ->
      let turn := index + length attempts in
      session_raises (OpCommit [progress_job amount turn j]) = Some e ->
      loop_end tgt inm ile amount index j comps attempts (inl e)
        (mkSession [progress_job amount turn j] [job_after amount j index attempts])
        [EvLog INFO "Transferring component ({0} of {1})" [pretty turn; pretty amount];
         EvSessionError (OpCommit [progress_job amount turn j]) e]
  | loop_target_missing :
      tgt = None ->
      attempts = [] ->
      comps <> [] ->
      loop_end tgt inm ile amount index j comps attempts (inl AttributeError)
        (mkSession [progress_job amount index j] [progress_job amount index j])
        [EvLog INFO "Transferring component ({0} of {1})" [pretty index; pretty amount];
         EvCommit [progress_job amount index j]].

(** How the [try] block can end under any server, with the world it leaves
    and its trace: the resolver raises; the loop stops on an exception; the
    commit of [done] raises; the block completes. *)
Inductive try_shape (entities : list SelectionItem) (src tgt : option Location)
    (user_id : option string) (ignore_missing ignore_errors : bool) (st : LocState)
    : exn + unit -> World -> list event -> Prop :=
  | try_resolver_raised e tr_res :
      resolved entities src st = inl e ->
      Forall catalog_event tr_res ->
      try_shape entities src tgt user_id ignore_missing ignore_errors st
        (inl e) (world_at_try user_id st) tr_res
  | try_loop_raised comps attempts e s tail st' tr_res :
      resolved entities src st = inr comps ->
      Forall catalog_event tr_res ->
      attempts.*1 = take (length attempts) comps ->
      (tgt = None -> attempts = [] /\ st' = st) ->
      loop_end tgt ignore_missing ignore_errors (length comps) 1
               (initial_job user_id) comps attempts (inl e) s tail ->
      try_shape entities src tgt user_id ignore_missing ignore_errors st
        (inl e) (mkWorld s st')
        (tr_res ++ [gathered_event (length comps)]
         ++ loop_events tgt src ignore_missing ignore_errors (length comps)
              (initial_job user_id) 1 attempts
         ++ tail)
  | try_done_refused comps attempts e st' tr_res :
      resolved entities src st = inr comps ->
      Forall catalog_event tr_res ->
      attempts.*1 = comps ->
      (tgt = None -> comps = []) ->
      Forall (nonfatal ignore_missing ignore_errors) attempts ->
      let amount := length comps in
      let j1 := job_after amount (initial_job user_id) 1 attempts in
      session_raises (OpCommit [set_job_status "done" j1]) = Some e ->
      try_shape entities src tgt user_id ignore_missing ignore_errors st
        (inl e) (mkWorld (mkSession [set_job_status "done" j1] [j1]) st')
        (tr_res ++ [gathered_event amount]
         ++ loop_events tgt src ignore_missing ignore_errors amount
              (initial_job user_id) 1 attempts
         ++ [EvSessionError (OpCommit [set_job_status "done" j1]) e])
  | try_completed comps attempts st' tr_res :
      resolved entities src st = inr comps ->
      Forall catalog_event tr_res ->
      attempts.*1 = comps ->
      (tgt = None -> comps = []) ->
      Forall (nonfatal ignore_missing ignore_errors) attempts ->
      let amount := length comps in
      let j1 := job_after amount (initial_job user_id) 1 attempts in
      session_raises (OpCommit [set_job_status "done" j1]) = None ->
      try_shape entities src tgt user_id ignore_missing ignore_errors st
        (inr tt) (mkWorld (let j := set_job_status "done" j1 in mkSession [j] [j]) st')
        (tr_res ++ [gathered_event amount]
         ++ loop_events tgt src ignore_missing ignore_errors amount
              (initial_job user_id) 1 attempts
         ++ done_events amount j1).

End AnyServerShapes.

(** ** A reference SDK for concrete runs

    The location service keeps, for each location id, the set of components
    it holds.  [add_component] raises [ComponentInLocationError] when the
    target already holds the component, the exception listed in [faults] for
    a component whose transfer is set to fail, and
    [ComponentNotInLocationError] when the source does not hold it;
    otherwise the component is added to the target.  The catalog answers
    from a table of canned results and matches nothing for a query that is
    not in the table. *)

Definition holds (st : gmap string (gset Component)) (l : Location) (c : Component)
    : bool :=
  bool_decide (c ∈ default ∅ (st !! loc_id l)).

Definition ref_add_component (faults : gmap Component exn)
    (t : Location) (c : Component) (src : option Location)
    (st : gmap string (gset Component))
    : option exn * gmap string (gset Component) :=
  if holds st t c then (Some ComponentInLocationError, st)
  else match faults !! c with
       | Some e => (Some e, st)
       | None =>
           if match src with Some s => holds st s c | None => false end
           then (None, <[loc_id t := {[c]} ∪ default ∅ (st !! loc_id t)]> st)
           else (Some ComponentNotInLocationError, st)
       end.

Definition ref_sdk (answers : gmap string (exn + list Component))
    (faults : gmap Component exn) : SDK :=
  {| LocState := gmap string (gset Component);
     location_add_component := ref_add_component faults;
     session_query := fun q => default (inr []) (answers !! q) |}.

Definition vault_A : Location := mkLocation "loc-a" "vault-A" "" true 1.
Definition vault_B : Location := mkLocation "loc-b" "vault-B" "Vault B" true 2.

(** The query the resolver sends for the version [v1] in [vault_A]. *)
Definition v1_in_A : string :=
  version_query ["v1"] +:+ location_constraint vault_A.

(** A catalog in which the version [v1] has three components in [vault_A]. *)
Definition three_components : gmap string (exn + list Component) :=
  {[ v1_in_A := inr ["c1"; "c2"; "c3"] ]}.

(** A catalog that cannot be reached for that query. *)
Definition unreachable : gmap string (exn + list Component) :=
  {[ v1_in_A := inl (OtherError "ServerError") ]}.

Definition select_v1 : list SelectionItem := [mkSelection "assetversion" "v1"].

(** [vault_A] holds the three components, [vault_B] none. *)
Definition only_in_A : gmap string (gset Component) :=
  {[ "loc-a" := {["c1"; "c2"; "c3"]} ]}.

(** [vault_A] lacks [c2]. *)
Definition c2_missing : gmap string (gset Component) :=
  {[ "loc-a" := {["c1"; "c3"]} ]}.

(** Both locations hold the three components. *)
Definition in_both : gmap string (gset Component) :=
  {[ "loc-a" := {["c1"; "c2"; "c3"]}; "loc-b" := {["c1"; "c2"; "c3"]} ]}.

(** A selection that mixes two versions and a component, and a catalog in
    which [c1] is matched both through its version and by its id. *)
Definition mixed_selection : list SelectionItem :=
  [mkSelection "assetversion" "v1"; mkSelection "Component" "c1";
   mkSelection "assetversion" "v2"; mkSelection "task" "t1"].

Definition mixed_answers : gmap string (exn + list Component) :=
  {[ version_query ["v1"; "v2"] +:+ location_constraint vault_A
       := inr ["c1"; "c2"; "c3"; "c2"];
     component_query ["c1"] +:+ location_constraint vault_A := inr ["c1"] ]}.

(** A catalog with a built-in location, a location without accessor and the
    two vaults, listed against their priorities; and one with a single
    eligible location. *)
Definition studio_catalog : list Location :=
  [ mkLocation "loc-s" "ftrack.server" "" true 0;
    vault_B;
    mkLocation "loc-x" "offline" "" false 0;
    vault_A ].

Definition single_catalog : list Location :=
  [ mkLocation "loc-s" "ftrack.server" "" true 0; vault_B ].

(** An interface request: no values submitted yet. *)
Definition interface_request : ActionEvent := mkActionEvent None (Some select_v1) "u1".

(** A workstation whose S3 location is fully configured, one with no S3
    setting at all, and one on which [socket.gethostname()] raises. *)
Definition s3_environ : gmap string string :=
  {[ "S3_LOCATION_NAME" := "studio.s3"; "S3_BUCKET" := "proj";
     "S3_MINIO_ENDPOINT_URL" := "https://minio.example";
     "AWS_ACCESS_KEY_ID" := "key" ]}.

(** No call into the SDK or into boto3 raises. *)
Definition no_fault {A} : A -> option exn := fun _ => None.

Definition workstation : Host :=
  mkHost (Some "WS-01") (Some "ws-01") s3_environ "linux"
         no_fault no_fault no_fault no_fault.

Definition bare_workstation : Host :=
  mkHost (Some "WS-01") (Some "ws-01") ∅ "linux" no_fault no_fault no_fault no_fault.

Definition nameless_workstation : Host :=
  mkHost None (Some "ws-01") s3_environ "linux" no_fault no_fault no_fault no_fault.

(** The same workstation when the S3 endpoint cannot be used:
    [boto3.resource] raises. *)
Definition offline_workstation : Host :=
  mkHost (Some "WS-01") (Some "ws-01") s3_environ "linux"
         no_fault no_fault no_fault (fun _ => Some (OtherError "ValueError")).

(** A configure-location event as the SDK publishes it, one stamped by this
    workstation and one stamped by another. *)
Definition plain_event : HubEvent := mkHubEvent configure_location_topic (Some ∅).

Definition local_event : HubEvent :=
  mkHubEvent configure_location_topic (Some {[ "hostname" := "ws-01" ]}).

Definition foreign_event : HubEvent :=
  mkHubEvent configure_location_topic (Some {[ "hostname" := "ws-02" ]}).

(** The value of one location in the setup: a prefix for one platform and,
    when given, a priority. *)
Definition disk_data (platform path : string) (priority : option pyval) : pyval :=
  VDict ((KStr "prefix", VDict [(KStr platform, VStr path)])
         :: match priority with
            | Some p => [(KStr "priority", p)]
            | None => []
            end).

(** The setup of one disk location. *)
Definition disk_setup : list (pykey * pyval) :=
  [(KStr " studio.disk ", disk_data "linux" "/mnt/projects" None)].

(** ** More concrete inputs *)

(** A selection of one task: a type the resolver has no bucket for. *)
Definition select_task : list SelectionItem := [mkSelection "task" "t1"].

(** The discovery event for the version [v1]. *)
Definition discover_v1 : ActionEvent := mkActionEvent None (Some select_v1) "u1".

(** Submitted values that name the two vaults. *)
Definition a_to_b : gmap string string :=
  {[ "from_location" := "loc-a"; "to_location" := "loc-b";
     "ignore_component_not_in_location" := "true";
     "ignore_location_errors" := "false" ]}.

(** Submitted values with two ids the catalog does not know. *)
Definition unknown_ids : gmap string string :=
  {[ "from_location" := "loc-y"; "to_location" := "loc-z" ]}.

(** A catalog that answers the query for the projects [p1] and fails on the
    query for the version [v1]. *)
Definition failing_second_query : gmap string (exn + list Component) :=
  {[ project_query ["p1"] +:+ location_constraint vault_A := inr ["c1"];
     version_query ["v1"] +:+ location_constraint vault_A
       := inl (OtherError "ServerError") ]}.

Definition project_and_version : list SelectionItem :=
  [mkSelection "assetversion" "v1"; mkSelection "Project" "p1";
   mkSelection "Component" "c9"].

(** A launch event that already carries an environment. *)
Definition dcc_launch : LaunchEvent :=
  mkLaunchEvent "ftrack.connect.application.launch"
    (Some (mkLaunchData
             (Some (mkLaunchOptions
                      (Some {[ "FTRACK_EVENT_PLUGIN_PATH" := "/opt/hooks";
                               "HOME" := "/home/artist" ]})
                      {[ "cwd" := "/tmp" ]}))
             {[ "application" := "maya" ]})).

(** A setup of three disk locations: the second has no path for Linux, the
    third no priority of its own. *)
Definition three_disks : list (pykey * pyval) :=
  [(KStr "studio.disk", disk_data "linux" "/mnt/projects" (Some (VInt 5)));
   (KStr "laptop.disk", disk_data "win32" "D:\projects" None);
   (KStr " archive.disk ", disk_data "linux" "/mnt/archive" None)].

(** A setup as YAML can give it: the priority of the first location is
    null, and so is the prefix of the second. *)
Definition null_disks : list (pykey * pyval) :=
  [(KStr "studio.disk", disk_data "linux" "/mnt/projects" (Some VNone));
   (KStr "scratch.disk", VDict [(KStr "prefix", VNone)]);
   (KStr "archive.disk", disk_data "linux" "/mnt/archive" None)].

(** A parsed [disk_locations.yaml]: a name written twice (once with blanks
    around it), a null key, a key of blanks and a location without data. *)
Definition studio_yaml : pyval :=
  VDict [(KStr "locations",
          VDict [(KStr " studio.disk ", disk_data "linux" "/mnt/old" None);
                 (KNone, disk_data "linux" "/mnt/none" None);
                 (KStr "   ", disk_data "linux" "/mnt/blank" None);
                 (KStr "archive.disk", VNone);
                 (KStr "studio.disk", disk_data "linux" "/mnt/projects" None)])].

(** A server that refuses every commit of a job marked [failed], one that
    refuses the commit of the second progress description, and one that
    cannot be reached at all. *)
Definition refuses_failed : Server :=
  {| session_raises := fun op =>
       match op with
       | OpCommit [j] =>
           if decide (job_status j = "failed") then Some (OtherError "ServerError")
           else None
       | _ => None
       end |}.

Definition refuses_second_progress : Server :=
  {| session_raises := fun op =>
       match op with
       | OpCommit [j] =>
           if decide (job_data j
                      = json_dumps_description "Transfer components (2 of 3)")
           then Some (OtherError "ServerError")
           else None
       | _ => None
       end |}.

Definition no_server : Server :=
  {| session_raises := fun op =>
       match op with
       | OpSession => Some (OtherError "ConnectionError")
       | _ => None
       end |}.

(** * Properties *)

(** ** The monad *)

Section MonadFacts.
Context `{sdk : SDK}.

Lemma run_bind {A B} (m : M A) (f : A -> M B) w :
  run (m ≫= f) w =
  match run m w with
  | (inl e, w1, t1) => (inl e, w1, t1)
  | (inr a, w1, t1) => prepend t1 (run (f a) w1)
  end.
Proof.
  unfold run, mbind, M_bind, prepend.
  destruct (m w) as [[[e|a] w1] t1]; [reflexivity|].
  destruct (f a w1) as [[r w2] t2]; reflexivity.
Qed.

Lemma prepend_nil {A B} (r : A * B * list event) : prepend [] r = r.
Proof. by destruct r as [[? ?] ?]. Qed.

Lemma prepend_prepend {A B} t1 t2 (r : A * B * list event) :
  prepend t1 (prepend t2 r) = prepend (t1 ++ t2) r.
Proof. destruct r as [[? ?] ?]. unfold prepend; simpl. by rewrite app_assoc. Qed.

Lemma reads_catalog_ret {A} (a : A) : reads_catalog (mret a).
Proof. exists (inr a), []. split; [constructor | done]. Qed.

Lemma reads_catalog_raise {A} e : reads_catalog (@raise _ A e).
Proof. exists (inl e), []. split; [constructor | done]. Qed.

Lemma reads_catalog_log fmt args : reads_catalog (logger_info fmt args).
Proof. exists (inr tt), [EvLog INFO fmt args]. split; [by repeat constructor | done]. Qed.

Lemma reads_catalog_bind {A B} (m : M A) (f : A -> M B) :
  reads_catalog m -> (forall a, reads_catalog (f a)) -> reads_catalog (m ≫= f).
Proof.
  intros (r & tr & Htr & Hm) Hf. destruct r as [e|a].
  - exists (inl e), tr. split; [done|]. intros w. by rewrite run_bind, Hm.
  - destruct (Hf a) as (r2 & tr2 & Htr2 & Hfa).
    exists r2, (tr ++ tr2). split; [by apply Forall_app|].
    intros w. by rewrite run_bind, Hm, Hfa.
Qed.

Lemma reads_catalog_query q : reads_catalog (query_all q).
Proof.
  unfold query_all. apply reads_catalog_bind.
  - exists (inr tt), [EvQuery q]. split; [by repeat constructor | done].
  - intros _. destruct (session_query q); [apply reads_catalog_raise | apply reads_catalog_ret].
Qed.

End MonadFacts.

(** ** The resolver *)

Section ResolverFacts.
Context `{sdk : SDK}.

Lemma group_append_same g s :
  group (group_append g s) (entityType s) = group g (entityType s) ++ [entityId s].
Proof. unfold group, group_append. by rewrite lookup_insert_eq. Qed.

Lemma group_append_other g s ty :
  entityType s ≠ ty -> group (group_append g s) ty = group g ty.
Proof. intros Hne. unfold group, group_append. by rewrite lookup_insert_ne. Qed.

Lemma bucket_ids_cons s es ty :
  bucket_ids (s :: es) ty =
  (if decide (entityType s = ty) then [entityId s] else []) ++ bucket_ids es ty.
Proof. unfold bucket_ids. rewrite filter_cons. by destruct (decide _). Qed.

Lemma group_foldl es : forall g ty,
  group (foldl group_append g es) ty = group g ty ++ bucket_ids es ty.
Proof.
  induction es as [|s es IH]; intros g ty; simpl.
  - unfold bucket_ids. by rewrite app_nil_r.
  - rewrite IH, bucket_ids_cons. destruct (decide (entityType s = ty)) as [<-|Hne].
    + by rewrite group_append_same, <- app_assoc.
    + by rewrite group_append_other.
Qed.

Lemma run_group_entities es : forall g w,
  run (group_entities es g) w =
  (inr (foldl group_append g es), w,
   (fun s => EvLog INFO "Processing entity: {0} ({1})" [entityType s; entityId s]) <$> es).
Proof.
  induction es as [|s es IH]; intros g w; [done|].
  cbn [group_entities]. rewrite run_bind. unfold logger_info, emit, run at 1.
  rewrite IH. reflexivity.
Qed.

Lemma reads_catalog_group_entities es g : reads_catalog (group_entities es g).
Proof.
  eexists _, _. split; [|intros w; apply run_group_entities].
  apply Forall_fmap, Forall_forall. by intros.
Qed.

Lemma reads_catalog_query_components qs location : forall acc,
  reads_catalog (query_components qs location acc).
Proof.
  induction qs as [|q qs IH]; intros acc; [apply reads_catalog_ret|].
  cbn [query_components]. apply reads_catalog_bind; [apply reads_catalog_log|intros _].
  apply reads_catalog_bind.
  { destruct location; [apply reads_catalog_ret | apply reads_catalog_raise]. }
  intros q'. apply reads_catalog_bind; [apply reads_catalog_query | intros found; apply IH].
Qed.

Lemma reads_catalog_resolver es location :
  reads_catalog (get_components_in_location es location).
Proof.
  unfold get_components_in_location.
  apply reads_catalog_bind; [apply reads_catalog_group_entities | intros g].
  apply reads_catalog_bind; [apply reads_catalog_log | intros _].
  apply reads_catalog_bind; [apply reads_catalog_query_components | intros comps].
  apply reads_catalog_bind; [apply reads_catalog_log | intros _; apply reads_catalog_ret].
Qed.

(** The resolver returns [resolved], in any world, and leaves the world as
    it is. *)
Lemma run_resolver es location w :
  exists tr, Forall catalog_event tr /\
    run (get_components_in_location es location) w
    = (resolved es location (locations_state w), w, tr).
Proof.
  destruct (reads_catalog_resolver es location) as (r & tr & Htr & Hrun).
  exists tr. split; [done|]. unfold resolved. by rewrite !Hrun.
Qed.

Lemma resolved_state es location st1 st2 :
  resolved es location st1 = resolved es location st2.
Proof.
  destruct (reads_catalog_resolver es location) as (r & tr & Htr & Hrun).
  unfold resolved. by rewrite !Hrun.
Qed.

(** The query loop: every query is sent with the location constraint, and
    the set returned gathers what the catalog matched. *)
Lemma run_query_components l qs : forall acc w r w' tr,
  run (query_components qs (Some l) acc) w = (r, w', tr) ->
  match r with
  | inl _ => True
  | inr comps =>
      queries tr = (fun q => q +:+ location_constraint l) <$> qs
      /\ forall c, c ∈ comps <->
           c ∈ acc \/ exists q found, q ∈ qs
             /\ session_query (q +:+ location_constraint l) = inr found /\ c ∈ found
  end.
Proof.
  induction qs as [|q qs IH]; intros acc w r w' tr Hrun.
  - inversion Hrun; subst. split; [done|]. intros c. split; [by left|].
    intros [H|(q & found & Hq & _)]; [done | by apply elem_of_nil in Hq].
  - cbn [query_components] in Hrun. rewrite run_bind in Hrun.
    unfold logger_info, emit, run at 1 in Hrun. rewrite run_bind in Hrun.
    unfold in_location_query, mret, M_ret, run at 1 in Hrun.
    rewrite prepend_nil, run_bind in Hrun.
    unfold query_all in Hrun. rewrite run_bind in Hrun.
    unfold emit, run at 1 in Hrun.
    destruct (session_query (q +:+ location_constraint l)) as [e|found] eqn:Hq.
    + unfold raise, run, prepend in Hrun. simpl in Hrun. by inversion Hrun.
    + unfold mret, M_ret, run at 1, prepend at 2 in Hrun. simpl in Hrun.
      destruct (run (query_components qs (Some l) (acc ∪ list_to_set found)) w)
        as [[r2 w2] t2] eqn:Hrest.
      apply IH in Hrest. unfold prepend in Hrun. simpl in Hrun.
      inversion Hrun; subst; clear Hrun.
      destruct r as [e|comps]; [done|]. destruct Hrest as [Hqs Hin].
      split. { rewrite fmap_cons, <- Hqs. reflexivity. }
      intros c. rewrite Hin, elem_of_union, elem_of_list_to_set. split.
      * intros [[H|H]|(q' & found' & Hq' & Hs & Hc)].
        -- by left.
        -- right. exists q, found. split; [apply list_elem_of_here | done].
        -- right. exists q', found'. split; [by apply list_elem_of_further | done].
      * intros [H|(q' & found' & Hq' & Hs & Hc)]; [by left; left|].
        apply elem_of_cons in Hq' as [->|Hq'].
        -- rewrite Hq in Hs. inversion Hs; subst. by left; right.
        -- right. by exists q', found'.
Qed.

End ResolverFacts.

(** ** The text of the queries *)

Section QueryText.

Lemma string_app_assoc (a b c : string) : (a +:+ b) +:+ c = a +:+ b +:+ c.
Proof.
  induction a as [|x a IH]; [done|].
  change (String x ((a +:+ b) +:+ c) = String x (a +:+ b +:+ c)). by rewrite IH.
Qed.

Lemma join_concat sep parts : join sep parts = String.concat sep parts.
Proof.
  induction parts as [|p [|q rest] IH]; [done..|].
  change (p +:+ sep +:+ join sep (q :: rest) = p +:+ sep +:+ String.concat sep (q :: rest)).
  by rewrite IH.
Qed.

(** The text of [get_filter_string]: the ids between double quotes,
    separated by a comma and a space. *)
Lemma get_filter_string_text ids :
  get_filter_string ids
  = String.concat ", "
      ((fun id => String (Ascii.ascii_of_nat 34) (id +:+ String (Ascii.ascii_of_nat 34) ""))
         <$> ids).
Proof.
  unfold get_filter_string. by rewrite join_concat.
Qed.

End QueryText.

(** ** The copy loop *)

Section LoopFacts.
Context `{sdk : SDK}.

(** What one guarded [add_component] call does, by what the SDK raises. *)
Lemma run_copy_component src t inm ile c w :
  run (copy_component src (Some t) inm ile c) w =
  match location_add_component t c src (locations_state w) with
  | (None, st) => (inr tt, mkWorld (session w) st, [EvAddComponent t c src None])
  | (Some e, st) =>
      if fatal inm ile e
      then (inl e, mkWorld (session w) st, [EvAddComponent t c src (Some e)])
      else (inr tt, mkWorld (session w) st,
            [EvAddComponent t c src (Some e); absorbed_log c e])
  end.
Proof.
  unfold run, copy_component, try_except, add_component.
  destruct (location_add_component t c src (locations_state w)) as [[e|] st];
    [|reflexivity].
  destruct e; simpl; try reflexivity.
  - destruct (inm || ile); reflexivity.
  - destruct ile; reflexivity.
Qed.

Lemma run_copy_component_no_target src inm ile c w :
  run (copy_component src None inm ile c) w = (inl AttributeError, w, []).
Proof. reflexivity. Qed.

(** One turn of the loop, in any world and for any job handle. *)
Lemma run_loop_step src tgt inm ile job amount index c rest w :
  run (transfer_loop src tgt inm ile job amount index (c :: rest)) w =
  let l1 := alter (set_job_data (json_dumps_description
                                   (progress_description index amount)))
                  job (local (session w)) in
  prepend [EvLog INFO "Transferring component ({0} of {1})" [pretty index; pretty amount];
           EvCommit l1]
    (match run (copy_component src tgt inm ile c)
               (mkWorld (mkSession l1 l1) (locations_state w)) with
     | (inl e, w2, t) => (inl e, w2, t)
     | (inr _, w2, t) =>
         prepend t (run (transfer_loop src tgt inm ile job amount (S index) rest) w2)
     end).
Proof.
  cbn [transfer_loop]. unfold run at 1.
  unfold mbind, M_bind, logger_info, emit, job_update, session_commit, get_session,
    put_session, mret, M_ret, prepend, run. simpl.
  destruct (copy_component src tgt inm ile c _) as [[[e|[]] w2] t]; simpl; [reflexivity|].
  destruct (transfer_loop src tgt inm ile job amount (S index) rest w2) as [[r w3] t3].
  reflexivity.
Qed.

Lemma loop_events_progress t src inm ile amount k j attempts : forall index,
  loop_events (Some t) src inm ile amount (progress_job amount k j) index attempts
  = loop_events (Some t) src inm ile amount j index attempts.
Proof.
  induction attempts as [|a att IH]; intros index; [done|].
  cbn [loop_events]. by rewrite IH.
Qed.

Lemma job_after_step amount j index a attempts :
  (let j' := job_after amount (progress_job amount index j) (S index) attempts in
   mkSession [j'] [j'])
  = (let j' := job_after amount j index (a :: attempts) in mkSession [j'] [j']).
Proof.
  destruct attempts as [|b att]; cbn [job_after length].
  - replace (index + 1 - 1) with index by lia. reflexivity.
  - replace (S index + S (length att) - 1) with (index + S (S (length att)) - 1) by lia.
    reflexivity.
Qed.

(** The loop on a store that holds the one job of the invocation: the trace
    is [loop_events] of the attempts made, the attempts follow the component
    list, and the loop stops at the first attempt whose exception is let
    through. *)
Lemma run_loop src t inm ile amount comps : forall index j st r w' tr,
  run (transfer_loop src (Some t) inm ile 0 amount index comps)
      (mkWorld (mkSession [j] [j]) st) = (r, w', tr) ->
  exists attempts,
    tr = loop_events (Some t) src inm ile amount j index attempts
    /\ attempts.*1 = take (length attempts) comps
    /\ session w' = (let j' := job_after amount j index attempts in mkSession [j'] [j'])
    /\ match r with
       | inr _ => length attempts = length comps /\ Forall (nonfatal inm ile) attempts
       | inl e => exists pre c, attempts = pre ++ [(c, Some e)]
                    /\ fatal inm ile e = true /\ Forall (nonfatal inm ile) pre
       end.
Proof.
  induction comps as [|c rest IH]; intros index j st r w' tr Hrun.
  - inversion Hrun; subst. exists []. split; [done|]. split; [done|]. split; [done|].
    split; [done | constructor].
  - rewrite run_loop_step in Hrun. cbv zeta in Hrun.
    rewrite run_copy_component in Hrun.
    cbn [locations_state session local alter list_alter] in Hrun.
    fold (progress_job amount index j) in Hrun.
    set (before := [EvLog INFO "Transferring component ({0} of {1})"
                      [pretty index; pretty amount];
                    EvCommit [progress_job amount index j]]) in *.
    destruct (location_add_component t c src st) as [o st1].
    assert (Hcont : forall r2 w2 t2 extra,
      run (transfer_loop src (Some t) inm ile 0 amount (S index) rest)
          (mkWorld (mkSession [progress_job amount index j]
                              [progress_job amount index j]) st1)
        = (r2, w2, t2) ->
      nonfatal inm ile (c, o) ->
      iteration_events (Some t) src inm ile amount j index (c, o) = before ++ extra ->
      (r, w', tr) = (r2, w2, before ++ extra ++ t2) ->
      exists attempts,
        tr = loop_events (Some t) src inm ile amount j index attempts
        /\ attempts.*1 = take (length attempts) (c :: rest)
        /\ session w' = (let j' := job_after amount j index attempts in mkSession [j'] [j'])
        /\ match r with
           | inr _ => length attempts = length (c :: rest)
                      /\ Forall (nonfatal inm ile) attempts
           | inl e => exists pre c, attempts = pre ++ [(c, Some e)]
                    /\ fatal inm ile e = true /\ Forall (nonfatal inm ile) pre
           end).
    { intros r2 w2 t2 extra Hrest Hnf Hev Heq.
      apply IH in Hrest as (attempts & -> & Hpre & Hsess & Hres).
      inversion Heq; subst; clear Heq.
      exists ((c, o) :: attempts).
      split. { cbn [loop_events]. rewrite Hev, loop_events_progress.
               by rewrite <- !app_assoc. }
      split. { simpl. by rewrite <- Hpre. }
      split. { rewrite Hsess. apply job_after_step. }
      destruct r2 as [e|[]].
      - destruct Hres as (pre & c' & -> & Hfe & Hnfs).
        exists ((c, o) :: pre), c'. split; [done|]. split; [done|].
        by constructor.
      - destruct Hres as [Hlen Hnfs]. split; [simpl; lia|]. by constructor. }
    destruct o as [e|].
    + destruct (fatal inm ile e) eqn:Hf.
      * unfold prepend in Hrun; simpl in Hrun. inversion Hrun; subst; clear Hrun.
        exists [(c, Some e)].
        split. { simpl. unfold iteration_events. simpl. by rewrite Hf. }
        split; [done|].
        split. { cbn [job_after length]. by replace (index + 1 - 1) with index by lia. }
        exists [], c. split; [done|]. split; [done | constructor].
      * destruct (run (transfer_loop src (Some t) inm ile 0 amount (S index) rest) _)
          as [[r2 w2] t2] eqn:Hrest.
        eapply (Hcont _ _ _ [EvAddComponent t c src (Some e); absorbed_log c e]);
          [reflexivity | exact Hf | | ].
        -- unfold iteration_events. simpl. by rewrite Hf.
        -- rewrite <- Hrun. reflexivity.
    + destruct (run (transfer_loop src (Some t) inm ile 0 amount (S index) rest) _)
          as [[r2 w2] t2] eqn:Hrest.
      eapply (Hcont _ _ _ [EvAddComponent t c src None]);
          [reflexivity | exact I | reflexivity | ].
      rewrite <- Hrun. reflexivity.
Qed.

End LoopFacts.

(** ** The engine *)

Section EngineFacts.
Context `{sdk : SDK}.

(** The invocation, unfolded down to its [try] block. *)
Lemma run_transfer_components es src tgt uid inm ile w :
  run (transfer_components es src tgt uid inm ile) w =
  prepend (header_events uid)
    (match run (transfer_try_block es src tgt inm ile 0)
               (world_at_try uid (locations_state w)) with
     | (inr a, w1, t) => (inr a, w1, t)
     | (inl e, w1, t) =>
         let l := alter (set_job_status "failed") 0 (remote (session w1)) in
         (inr tt, mkWorld (mkSession l l) (locations_state w1),
          t ++ [EvLogException "Transfer failed" e; EvRollback; EvCommit l])
     end).
Proof.
  unfold transfer_components, run at 1.
  unfold mbind, M_bind, new_session, session_create, logger_info, emit, session_commit,
    get_session, put_session, mret, M_ret, try_except, prepend, run, world_at_try. simpl.
  destruct (transfer_try_block es src tgt inm ile 0 _) as [[[e|[]] w1] t]; reflexivity.
Qed.

(** The [try] block, unfolded down to the resolver and the loop. *)
Lemma run_try_block es src tgt uid inm ile st :
  exists tr_res, Forall catalog_event tr_res /\
  run (transfer_try_block es src tgt inm ile 0) (world_at_try uid st) =
  match resolved es src st with
  | inl e => (inl e, world_at_try uid st, tr_res)
  | inr comps =>
      let amount := length comps in
      match run (transfer_loop src tgt inm ile 0 amount 1 comps) (world_at_try uid st) with
      | (inl e, w2, tl) => (inl e, w2, tr_res ++ [gathered_event amount] ++ tl)
      | (inr _, w2, tl) =>
          let l := alter (set_job_status "done") 0 (local (session w2)) in
          (inr tt, mkWorld (mkSession l l) (locations_state w2),
           tr_res ++ [gathered_event amount] ++ tl
           ++ [EvCommit l; EvLog INFO "Transfer complete ({0} components)" [pretty amount]])
      end
  end.
Proof.
  destruct (run_resolver es src (world_at_try uid st)) as (tr_res & Htr & Hres).
  exists tr_res. split; [done|].
  unfold transfer_try_block. rewrite run_bind, Hres. cbn [locations_state world_at_try].
  destruct (resolved es src st) as [e|comps]; [reflexivity|].
  cbv zeta. rewrite run_bind. unfold logger_info at 1, emit, run at 1.
  rewrite run_bind.
  destruct (run (transfer_loop src tgt inm ile 0 (length comps) 1 comps) _)
    as [[[e|[]] w2] tl]; [reflexivity|].
  unfold run, mbind, M_bind, job_update, session_commit, logger_info, emit, get_session,
    put_session, mret, M_ret, prepend. simpl. reflexivity.
Qed.

Lemma invoke_shape es src tgt uid inm ile st :
  invocation_shape es src tgt uid inm ile st
    (invoke es src tgt uid inm ile st).1 (invoke es src tgt uid inm ile st).2.
Proof.
  unfold invoke. rewrite run_transfer_components. cbn [locations_state].
  destruct (run_try_block es src tgt uid inm ile st) as (tr_res & Htr & ->).
  destruct (resolved es src st) as [e|comps] eqn:Hres.
  { unfold prepend; simpl. by apply resolver_raised. }
  cbv zeta. destruct tgt as [t|].
  - destruct (run (transfer_loop src (Some t) inm ile 0 (length comps) 1 comps) _)
      as [[r w2] tl] eqn:Hloop.
    unfold world_at_try in Hloop.
    apply run_loop in Hloop as (attempts & -> & Hpre & Hsess & Hr).
    destruct r as [e|[]].
    + destruct Hr as (pre & c & -> & Hf & Hnf).
      unfold prepend; simpl. rewrite Hsess. cbn [remote alter list_alter].
      rewrite <- ?app_assoc.
      destruct w2 as [s2 st2]. cbn [locations_state].
      rewrite length_app, Nat.add_1_r in Hpre.
      by eapply (copy_raised es src (Some t) uid inm ile st comps t pre c e st2 tr_res).
    + destruct Hr as [Hlen Hnf]. rewrite Hlen, firstn_all in Hpre.
      unfold prepend; simpl. rewrite Hsess. cbn [local alter list_alter].
      rewrite <- ?app_assoc.
      destruct w2 as [s2 st2]. cbn [locations_state].
      by eapply (completed es src (Some t) uid inm ile st comps attempts st2 tr_res).
  - destruct comps as [|c rest].
    + unfold prepend; simpl.
      by eapply (completed es src None uid inm ile st [] [] st tr_res).
    + rewrite run_loop_step. cbv zeta. rewrite run_copy_component_no_target.
      unfold prepend; simpl. rewrite <- ?app_assoc.
      by eapply (target_missing es src None uid inm ile st c rest tr_res).
Qed.

End EngineFacts.

(** ** Observations on the closed forms *)

Section TraceFacts.

Lemma copy_attempts_app t1 t2 :
  copy_attempts (t1 ++ t2) = copy_attempts t1 ++ copy_attempts t2.
Proof. apply omap_app. Qed.

Lemma copies_performed_app t1 t2 :
  copies_performed (t1 ++ t2) = copies_performed t1 ++ copies_performed t2.
Proof. apply omap_app. Qed.

Lemma commits_app t1 t2 : commits (t1 ++ t2) = commits t1 ++ commits t2.
Proof. apply omap_app. Qed.

Lemma creations_app t1 t2 : creations (t1 ++ t2) = creations t1 ++ creations t2.
Proof. apply omap_app. Qed.

Lemma persisted_statuses_app job t1 t2 :
  persisted_statuses job (t1 ++ t2)
  = persisted_statuses job t1 ++ persisted_statuses job t2.
Proof. unfold persisted_statuses. by rewrite commits_app, omap_app. Qed.

Lemma persisted_data_app job t1 t2 :
  persisted_data job (t1 ++ t2) = persisted_data job t1 ++ persisted_data job t2.
Proof. unfold persisted_data. by rewrite commits_app, omap_app. Qed.

Lemma catalog_trace_quiet tr :
  Forall catalog_event tr ->
  copy_attempts tr = [] /\ copies_performed tr = [] /\ commits tr = []
  /\ creations tr = [] /\ forall p, attempts_with_persisted p tr = [].
Proof.
  induction 1 as [|ev tr Hev _ (IH1 & IH2 & IH3 & IH4 & IH5)]; [done|].
  destruct ev; try done.
Qed.

Lemma attempts_with_persisted_app t1 : forall p t2,
  attempts_with_persisted p (t1 ++ t2)
  = attempts_with_persisted p t1
    ++ attempts_with_persisted (default p (last (commits t1))) t2.
Proof.
  induction t1 as [|ev t1 IH]; intros p t2; [done|].
  destruct ev; simpl; rewrite ?IH; try done.
  change (commits (EvCommit persisted :: t1)) with (persisted :: commits t1).
  rewrite last_cons. by destruct (last (commits t1)).
Qed.

Lemma copy_attempts_loop t src inm ile amount j attempts : forall index,
  copy_attempts (loop_events (Some t) src inm ile amount j index attempts) = attempts.
Proof.
  induction attempts as [|[c o] att IH]; intros index; [done|].
  cbn [loop_events]. rewrite copy_attempts_app, IH.
  unfold iteration_events. simpl. destruct o as [e|]; [|done].
  destruct (fatal inm ile e); [done | by destruct e].
Qed.

Lemma copies_performed_loop t src inm ile amount j attempts : forall index,
  copies_performed (loop_events (Some t) src inm ile amount j index attempts)
  = omap (fun a => match a.2 with None => Some a.1 | Some _ => None end) attempts.
Proof.
  induction attempts as [|[c o] att IH]; intros index; [done|].
  cbn [loop_events]. rewrite copies_performed_app, IH.
  unfold iteration_events. simpl. destruct o as [e|]; [|done].
  destruct (fatal inm ile e); [done|]. by destruct e.
Qed.

Lemma commits_loop tgt src inm ile amount j attempts : forall index,
  commits (loop_events tgt src inm ile amount j index attempts)
  = (fun i => [progress_job amount i j]) <$> seq index (length attempts).
Proof.
  induction attempts as [|[c o] att IH]; intros index; [done|].
  cbn [loop_events]. rewrite commits_app, IH.
  unfold iteration_events. simpl. destruct tgt, o as [e|]; try done;
    (destruct (fatal inm ile e); [done | by destruct e]).
Qed.

Lemma creations_loop tgt src inm ile amount j attempts : forall index,
  creations (loop_events tgt src inm ile amount j index attempts) = [].
Proof.
  induction attempts as [|[c o] att IH]; intros index; [done|].
  cbn [loop_events]. rewrite creations_app, IH.
  unfold iteration_events. simpl. destruct tgt, o as [e|]; try done;
    (destruct (fatal inm ile e); [done | by destruct e]).
Qed.

(** Each attempt of the loop is made just after the commit of its own
    progress description. *)
Lemma attempts_with_persisted_loop t src inm ile amount j attempts : forall index p,
  attempts_with_persisted p (loop_events (Some t) src inm ile amount j index attempts)
  = (fun ia => ([progress_job amount ia.1 j], ia.2.1))
      <$> zip (seq index (length attempts)) attempts.
Proof.
  induction attempts as [|[c o] att IH]; intros index p; [done|].
  cbn [loop_events]. unfold iteration_events.
  cbn [app attempts_with_persisted fst snd].
  destruct o as [e|]; [destruct (fatal inm ile e); [|destruct e]|];
    cbn [app attempts_with_persisted absorbed_log]; by rewrite ?IH.
Qed.

Lemma copy_attempts_fixed uid amount e j :
  copy_attempts (header_events uid) = [] /\ copy_attempts [gathered_event amount] = []
  /\ copy_attempts (abort_events e j) = [] /\ copy_attempts (done_events amount j) = [].
Proof. done. Qed.

Lemma copy_attempts_header uid : copy_attempts (header_events uid) = [].
Proof. done. Qed.

Lemma copies_performed_header uid : copies_performed (header_events uid) = [].
Proof. done. Qed.

Lemma commits_header uid : commits (header_events uid) = [[initial_job uid]].
Proof. done. Qed.

Lemma creations_header uid : creations (header_events uid) = [initial_job uid].
Proof. done. Qed.

Lemma persisted_statuses_loop tgt src inm ile amount j attempts index :
  persisted_statuses 0 (loop_events tgt src inm ile amount j index attempts)
  = replicate (length attempts) (job_status j).
Proof.
  unfold persisted_statuses. rewrite commits_loop.
  generalize index. induction attempts as [|a att IH]; intros i; [done|].
  simpl. f_equal. apply IH.
Qed.

End TraceFacts.

Create Rewrite HintDb trace.

#[global] Hint Rewrite copy_attempts_app copies_performed_app commits_app creations_app
  persisted_statuses_app persisted_data_app
  copy_attempts_header copies_performed_header commits_header creations_header
  @copy_attempts_loop @copies_performed_loop @commits_loop @creations_loop
  @persisted_statuses_loop : trace.

Section ShapeFacts.

Lemma attempts_with_persisted_shape uid tr_res amount t src inm ile attempts tail :
  Forall catalog_event tr_res ->
  (forall p, attempts_with_persisted p tail = []) ->
  attempts_with_persisted []
    (header_events uid ++ tr_res ++ [gathered_event amount]
     ++ loop_events (Some t) src inm ile amount (initial_job uid) 1 attempts ++ tail)
  = (fun ia => ([progress_job amount ia.1 (initial_job uid)], ia.2.1))
      <$> zip (seq 1 (length attempts)) attempts.
Proof.
  intros Htr Htail. destruct (catalog_trace_quiet _ Htr) as (_ & _ & Hc & _ & Hq).
  rewrite attempts_with_persisted_app. cbn [header_events attempts_with_persisted app].
  rewrite attempts_with_persisted_app, Hq, Hc.
  cbn [app gathered_event attempts_with_persisted].
  by rewrite attempts_with_persisted_app, attempts_with_persisted_loop, Htail, app_nil_r.
Qed.

Lemma lookup_numbered {A B} (f : nat * A -> B) (l : list A) (start i : nat) (b : B) :
  (f <$> zip (seq start (length l)) l) !! i = Some b ->
  exists a, l !! i = Some a /\ b = f (start + i, a).
Proof.
  rewrite list_lookup_fmap. intros H.
  destruct (zip (seq start (length l)) l !! i) as [[n a]|] eqn:Hz; [|done].
  apply lookup_zip_with_Some in Hz as (n' & a' & Heq & Hn & Ha).
  inversion Heq; subst n' a'. apply lookup_seq in Hn as [-> _].
  exists a. split; [done|]. by inversion H.
Qed.

Lemma job_after_all amount j attempts :
  job_data (job_after amount j 1 attempts)
  = match attempts with
    | [] => job_data j
    | _ => json_dumps_description (progress_description (length attempts) amount)
    end.
Proof.
  destruct attempts as [|a att]; [done|]. cbn [job_after length].
  replace (1 + S (length att) - 1) with (S (length att)) by lia. reflexivity.
Qed.

Lemma job_after_status amount j index attempts :
  job_status (job_after amount j index attempts) = job_status j
  /\ job_user_id (job_after amount j index attempts) = job_user_id j.
Proof. by destruct attempts. Qed.

End ShapeFacts.

(** ** Batches whose components are all in the target already *)

Section AlreadyPresent.
Context `{sdk : SDK}.

Lemma run_loop_already_present (P : LocState -> Prop) src t inm ile amount comps :
  (forall st c, P st -> c ∈ comps ->
     exists st', location_add_component t c src st
                 = (Some ComponentInLocationError, st') /\ P st') ->
  forall index j st, P st ->
  exists st', P st' /\
    run (transfer_loop src (Some t) inm ile 0 amount index comps)
        (mkWorld (mkSession [j] [j]) st)
    = (inr tt,
       mkWorld (let j' := job_after amount j index (already_present comps) in
                mkSession [j'] [j']) st',
       loop_events (Some t) src inm ile amount j index (already_present comps)).
Proof.
  induction comps as [|c rest IH]; intros Hinv index j st HP.
  - exists st. by split.
  - destruct (Hinv st c HP) as (st1 & Hadd & HP1); [apply list_elem_of_here|].
    destruct (IH (fun st c' HP' Hin => Hinv st c' HP' (list_elem_of_further _ _ _ Hin))
                 (S index) (progress_job amount index j) st1 HP1)
      as (st' & HP' & Hrest).
    exists st'. split; [done|].
    rewrite run_loop_step. cbv zeta. rewrite run_copy_component.
    cbn [locations_state session local alter list_alter].
    fold (progress_job amount index j). rewrite Hadd. cbn [fatal].
    rewrite Hrest. unfold prepend. cbn [fst snd].
    rewrite loop_events_progress.
    change (already_present (c :: rest))
      with ((c, Some ComponentInLocationError) :: already_present rest).
    rewrite <- job_after_step with (a := (c, Some ComponentInLocationError)).
    reflexivity.
Qed.

Lemma invoke_already_present (P : LocState -> Prop) es src t uid inm ile comps st :
  resolved es src st = inr comps ->
  (forall st c, P st -> c ∈ comps ->
     exists st', location_add_component t c src st
                 = (Some ComponentInLocationError, st') /\ P st') ->
  P st ->
  exists st' tr_res, P st' /\ Forall catalog_event tr_res /\
    invoke es src (Some t) uid inm ile st
    = (let j1 := job_after (length comps) (initial_job uid) 1 (already_present comps) in
       (mkWorld (let j := set_job_status "done" j1 in mkSession [j] [j]) st',
        header_events uid ++ tr_res ++ [gathered_event (length comps)]
        ++ loop_events (Some t) src inm ile (length comps) (initial_job uid) 1
             (already_present comps)
        ++ done_events (length comps) j1)).
Proof.
  intros Hres Hinv HP.
  destruct (run_loop_already_present P src t inm ile (length comps) comps Hinv
              1 (initial_job uid) st HP) as (st' & HP' & Hloop).
  destruct (run_try_block es src (Some t) uid inm ile st) as (tr_res & Htr & Htry).
  exists st', tr_res. split; [done|]. split; [done|].
  unfold invoke. rewrite run_transfer_components. cbn [locations_state].
  rewrite Htry, Hres. cbv zeta. unfold world_at_try. rewrite Hloop.
  unfold prepend. simpl. by rewrite <- ?app_assoc.
Qed.

Lemma copies_performed_already_present comps :
  omap (fun a : Component * option exn =>
          match a.2 with None => Some a.1 | Some _ => None end)
       (already_present comps) = [].
Proof. by induction comps. Qed.

End AlreadyPresent.

(** ** The locations offered by the form *)

Section FormFacts.

Lemma elem_of_insert_by_priority x y l :
  y ∈ insert_by_priority x l <-> y = x \/ y ∈ l.
Proof.
  induction l as [|z l IH]; simpl.
  - rewrite list_elem_of_singleton. split; [by left|]. intros [H|H]; [done|].
    by apply elem_of_nil in H.
  - destruct (loc_priority x <=? loc_priority z)%Z.
    + by rewrite elem_of_cons.
    + rewrite !elem_of_cons, IH. tauto.
Qed.

Lemma elem_of_sorted_by_priority y l : y ∈ sorted_by_priority l <-> y ∈ l.
Proof.
  induction l as [|x l IH]; [done|].
  unfold sorted_by_priority in *. simpl.
  rewrite elem_of_insert_by_priority, IH, elem_of_cons. tauto.
Qed.

Lemma insert_by_priority_sorted x l :
  StronglySorted by_priority l -> StronglySorted by_priority (insert_by_priority x l).
Proof.
  induction 1 as [|z l Hl IH Hz]; simpl; [repeat constructor|].
  destruct (loc_priority x <=? loc_priority z)%Z eqn:Hle.
  - apply Z.leb_le in Hle. constructor; [by constructor|].
    constructor; [done|]. eapply Forall_impl; [exact Hz|].
    intros b Hb. unfold by_priority in *. lia.
  - apply Z.leb_gt in Hle. constructor; [done|].
    apply Forall_forall. intros b Hb.
    apply elem_of_insert_by_priority in Hb as [->|Hb].
    + unfold by_priority. lia.
    + by eapply Forall_forall in Hz.
Qed.

Lemma sorted_by_priority_sorted l : StronglySorted by_priority (sorted_by_priority l).
Proof.
  induction l as [|x l IH]; [constructor|]. by apply insert_by_priority_sorted.
Qed.

Lemma filter_sorted (P : Location -> Prop) `{!forall x, Decision (P x)} l :
  StronglySorted by_priority l -> StronglySorted by_priority (filter P l).
Proof.
  induction 1 as [|z l Hl IH Hz]; [constructor|].
  rewrite filter_cons. destruct (decide (P z)); [|done].
  constructor; [done|]. apply Forall_forall. intros b Hb.
  apply list_elem_of_filter in Hb as [_ Hb]. by eapply Forall_forall in Hz.
Qed.

End FormFacts.

(** ** Hostnames *)

Section HostnameFacts.

(** The gate lets an event through exactly when its hostname is empty or is
    the current one. *)
Lemma skips_false eh current : skips eh current = false <-> eh = "" \/ eh = current.
Proof.
  unfold skips. destruct (decide (eh = "")) as [->|Hne].
  - rewrite bool_decide_eq_true_2 by done. simpl. split; [by left | done].
  - rewrite (bool_decide_eq_false_2 (eh = "")) by done. simpl.
    destruct (decide (eh = current)) as [->|Hne'].
    + rewrite bool_decide_eq_true_2 by done. simpl. split; [by right | done].
    + rewrite bool_decide_eq_false_2 by done. simpl. split; [done|]. by intros [?|?].
Qed.

Lemma skips_true eh current : skips eh current = true <-> eh ≠ "" /\ eh ≠ current.
Proof.
  destruct (skips eh current) eqn:H.
  - split; [intros _|done]. split; intros Heq;
      assert (skips eh current = false) by (apply skips_false; auto); congruence.
  - apply skips_false in H. split; [done|]. intros [? ?]. by destruct H.
Qed.

End HostnameFacts.
(** ** The engine on a server that can fail *)

Section SessionErrorFacts.

Lemma session_errors_app t1 t2 :
  session_errors (t1 ++ t2) = session_errors t1 ++ session_errors t2.
Proof. apply omap_app. Qed.

Lemma session_errors_catalog tr : Forall catalog_event tr -> session_errors tr = [].
Proof. induction 1 as [|ev tr Hev _ IH]; [done|]. by destruct ev. Qed.

Lemma session_errors_loop tgt src inm ile amount j attempts : forall index,
  session_errors (loop_events tgt src inm ile amount j index attempts) = [].
Proof.
  induction attempts as [|[c o] att IH]; intros index; [done|].
  cbn [loop_events]. rewrite session_errors_app, IH.
  unfold iteration_events. simpl. destruct tgt, o as [e|]; try done;
    (destruct (fatal inm ile e); [done | by destruct e]).
Qed.

Lemma rollbacks_app t1 t2 : rollbacks (t1 ++ t2) = rollbacks t1 ++ rollbacks t2.
Proof. apply omap_app. Qed.

Lemma rollbacks_catalog tr : Forall catalog_event tr -> rollbacks tr = [].
Proof. induction 1 as [|ev tr Hev _ IH]; [done|]. by destruct ev. Qed.

Lemma rollbacks_loop tgt src inm ile amount j attempts : forall index,
  rollbacks (loop_events tgt src inm ile amount j index attempts) = [].
Proof.
  induction attempts as [|[c o] att IH]; intros index; [done|].
  cbn [loop_events]. rewrite rollbacks_app, IH.
  unfold iteration_events. simpl. destruct tgt, o as [e|]; try done;
    (destruct (fatal inm ile e); [done | by destruct e]).
Qed.

Lemma last_app_cons {A} (l1 l2 : list A) x : last (l1 ++ x :: l2) = last (x :: l2).
Proof. rewrite last_app. destruct (last (x :: l2)) eqn:H; [done|]. by apply last_None in H. Qed.

Lemma last_replicate_app {A} k (x : A) l :
  last (x :: replicate k x ++ l) = last (x :: l).
Proof. induction k; [done|]. simpl in *. destruct (replicate k x ++ l) eqn:E; [|done].
  destruct k; simpl in E; [by subst|done]. Qed.

Lemma ends_on_session_error_app tr ev tr' :
  ends_on_session_error (tr ++ ev :: tr') = ends_on_session_error (ev :: tr').
Proof. unfold ends_on_session_error. by rewrite last_app_cons. Qed.

Lemma persisted_statuses_snoc tr before j :
  commits tr = before ++ [[j]] ->
  last (persisted_statuses 0 tr) = Some (job_status j).
Proof. intros H. unfold persisted_statuses. rewrite H, omap_app. cbn. by rewrite last_snoc. Qed.

Lemma persisted_statuses_catalog tr :
  Forall catalog_event tr -> persisted_statuses 0 tr = [].
Proof.
  intros Htr. destruct (catalog_trace_quiet _ Htr) as (_ & _ & Hq & _).
  unfold persisted_statuses. by rewrite Hq.
Qed.

End SessionErrorFacts.

Section AnyServer.
Context `{sdk : SDK} {srv : Server}.

Lemma run_session_commit w :
  run session_commit w =
  match session_raises (OpCommit (local (session w))) with
  | Some e => (inl e, w, [EvSessionError (OpCommit (local (session w))) e])
  | None => (inr tt,
             mkWorld (mkSession (local (session w)) (local (session w)))
                     (locations_state w),
             [EvCommit (local (session w))])
  end.
Proof.
  unfold run, session_commit, mbind, M_bind, get_session, session_call, put_session,
    emit.
  destruct (session_raises _); reflexivity.
Qed.

Lemma run_session_rollback w :
  run session_rollback w =
  match session_raises OpRollback with
  | Some e => (inl e, w, [EvSessionError OpRollback e])
  | None => (inr tt,
             mkWorld (mkSession (remote (session w)) (remote (session w)))
                     (locations_state w),
             [EvRollback])
  end.
Proof.
  unfold run, session_rollback, mbind, M_bind, get_session, session_call, put_session,
    emit.
  destruct (session_raises _); reflexivity.
Qed.

Lemma run_new_session w :
  run new_session w =
  match session_raises OpSession with
  | Some e => (inl e, w, [EvSessionError OpSession e])
  | None => (inr tt, mkWorld fresh_session (locations_state w), [])
  end.
Proof.
  unfold run, new_session, mbind, M_bind, session_call, put_session.
  destruct (session_raises _); reflexivity.
Qed.

Lemma run_session_create j w :
  run (session_create j) w =
  match session_raises (OpCreate j) with
  | Some e => (inl e, w, [EvSessionError (OpCreate j) e])
  | None => (inr (length (local (session w))),
             mkWorld (mkSession (local (session w) ++ [j]) (remote (session w)))
                     (locations_state w),
             [EvCreate j])
  end.
Proof.
  unfold run, session_create, mbind, M_bind, get_session, session_call, put_session,
    emit, mret, M_ret.
  destruct (session_raises _); reflexivity.
Qed.

Lemma run_job_update job f w :
  run (job_update job f) w
  = (inr tt, mkWorld (mkSession (alter f job (local (session w))) (remote (session w)))
                     (locations_state w), []).
Proof. reflexivity. Qed.

Lemma run_except_clause e w :
  run (transfer_except_clause 0 e) w
  = prepend [EvLogException "Transfer failed" e] (cleanup w).
Proof.
  unfold transfer_except_clause, cleanup.
  rewrite run_bind. unfold logger_exception, emit, run at 1. f_equal.
  rewrite run_bind, run_session_rollback.
  destruct (session_raises OpRollback); [reflexivity|].
  rewrite run_bind, run_job_update, prepend_nil, run_session_commit.
  cbn [session local remote locations_state].
  destruct (session_raises (OpCommit _)); reflexivity.
Qed.

Lemma run_transfer_components_any es src tgt uid inm ile w :
  run (transfer_components es src tgt uid inm ile) w =
  match session_raises OpSession with
  | Some e => (inl e, w, [EvSessionError OpSession e])
  | None =>
  match session_raises (OpCreate (initial_job uid)) with
  | Some e => (inl e, mkWorld fresh_session (locations_state w),
               [EvSessionError (OpCreate (initial_job uid)) e])
  | None =>
  match session_raises (OpCommit [initial_job uid]) with
  | Some e => (inl e, mkWorld (mkSession [initial_job uid] []) (locations_state w),
               [EvCreate (initial_job uid);
                EvLog INFO "Creating job for user {0}: {1}" [show_user uid; pretty 0];
                EvSessionError (OpCommit [initial_job uid]) e])
  | None =>
      prepend (header_events uid)
        (match run (transfer_try_block es src tgt inm ile 0)
                   (world_at_try uid (locations_state w)) with
         | (inr a, w1, t) => (inr a, w1, t)
         | (inl e, w1, t) =>
             prepend (t ++ [EvLogException "Transfer failed" e]) (cleanup w1)
         end)
  end end end.
Proof.
  unfold transfer_components. rewrite run_bind, run_new_session.
  destruct (session_raises OpSession); [reflexivity|].
  rewrite prepend_nil, run_bind, run_session_create.
  cbn [session local remote locations_state fresh_session length app].
  destruct (session_raises (OpCreate _)); [reflexivity|].
  rewrite run_bind. unfold logger_info, emit at 1, run at 1.
  rewrite prepend_prepend, run_bind, run_session_commit.
  cbn [session local remote locations_state app].
  destruct (session_raises (OpCommit _)); [reflexivity|].
  rewrite prepend_prepend. f_equal.
  unfold try_except, world_at_try, run at 1.
  change (transfer_try_block es src tgt inm ile 0 ?w)
    with (run (transfer_try_block es src tgt inm ile 0) w).
  destruct (run (transfer_try_block es src tgt inm ile 0) _) as [[[e|[]] w1] t];
    [|reflexivity].
  cbn [dispatch isinstance].
  change (transfer_except_clause 0 e w1) with (run (transfer_except_clause 0 e) w1).
  rewrite run_except_clause. unfold prepend. cbn [fst snd].
  destruct (cleanup w1) as [[r2 w2] t2]. cbn [fst snd]. by rewrite <- app_assoc.
Qed.

(** One turn of the loop under any server. *)
Lemma run_loop_step_any src tgt inm ile job amount index c rest w :
  run (transfer_loop src tgt inm ile job amount index (c :: rest)) w =
  let l1 := alter (set_job_data (json_dumps_description
                                   (progress_description index amount)))
                  job (local (session w)) in
  let log := EvLog INFO "Transferring component ({0} of {1})"
                   [pretty index; pretty amount] in
  match session_raises (OpCommit l1) with
  | Some e =>
      (inl e, mkWorld (mkSession l1 (remote (session w))) (locations_state w),
       [log; EvSessionError (OpCommit l1) e])
  | None =>
      prepend [log; EvCommit l1]
        (match run (copy_component src tgt inm ile c)
                   (mkWorld (mkSession l1 l1) (locations_state w)) with
         | (inl e, w2, t) => (inl e, w2, t)
         | (inr _, w2, t) =>
             prepend t (run (transfer_loop src tgt inm ile job amount (S index) rest) w2)
         end)
  end.
Proof.
  cbn [transfer_loop]. cbv zeta.
  rewrite run_bind. unfold logger_info, emit at 1, run at 1.
  rewrite run_bind, run_job_update, prepend_nil, run_bind, run_session_commit.
  cbn [session local remote locations_state].
  destruct (session_raises (OpCommit _)); [reflexivity|].
  rewrite prepend_prepend. f_equal. rewrite run_bind.
  by destruct (run (copy_component src tgt inm ile c) _) as [[[e|[]] w2] t].
Qed.

Lemma progress_job_twice amount i k j :
  progress_job amount i (progress_job amount k j) = progress_job amount i j.
Proof. reflexivity. Qed.

Lemma progress_job_after amount i j index attempts :
  progress_job amount i (job_after amount j index attempts) = progress_job amount i j.
Proof. by destruct attempts. Qed.

Lemma run_loop_some src t inm ile amount comps : forall index j st r w' tr,
  run (transfer_loop src (Some t) inm ile 0 amount index comps)
      (mkWorld (mkSession [j] [j]) st) = (r, w', tr) ->
  exists attempts tail,
    tr = loop_events (Some t) src inm ile amount j index attempts ++ tail
    /\ attempts.*1 = take (length attempts) comps
    /\ loop_end (Some t) inm ile amount index j comps attempts r (session w') tail.
Proof.
  induction comps as [|c rest IH]; intros index j st r w' tr Hrun.
  - inversion Hrun; subst. exists [], []. split; [done|]. split; [done|].
    by apply loop_completed.
  - rewrite run_loop_step_any in Hrun. cbv zeta in Hrun.
    cbn [locations_state session local remote alter list_alter] in Hrun.
    fold (progress_job amount index j) in Hrun.
    destruct (session_raises (OpCommit [progress_job amount index j])) as [e|] eqn:Hc.
    { inversion Hrun; subst. eexists [], _. split; [reflexivity|]. split; [done|].
      cbn [session].
      pose proof (loop_commit_raised (Some t) inm ile amount index j (c :: rest) [] e)
        as H.
      cbn [length] in H. rewrite Nat.add_0_r in H.
      apply H; [simpl; lia | constructor | done]. }
    rewrite run_copy_component in Hrun.
    cbn [locations_state session local alter list_alter] in Hrun.
    set (before := [EvLog INFO "Transferring component ({0} of {1})"
                      [pretty index; pretty amount];
                    EvCommit [progress_job amount index j]]) in *.
    destruct (location_add_component t c src st) as [o st1].
    assert (Hcont : forall r2 w2 t2 extra,
      run (transfer_loop src (Some t) inm ile 0 amount (S index) rest)
          (mkWorld (mkSession [progress_job amount index j]
                              [progress_job amount index j]) st1)
        = (r2, w2, t2) ->
      nonfatal inm ile (c, o) ->
      iteration_events (Some t) src inm ile amount j index (c, o) = before ++ extra ->
      (r, w', tr) = (r2, w2, before ++ extra ++ t2) ->
      exists attempts tail,
        tr = loop_events (Some t) src inm ile amount j index attempts ++ tail
        /\ attempts.*1 = take (length attempts) (c :: rest)
        /\ loop_end (Some t) inm ile amount index j (c :: rest) attempts r
             (session w') tail).
    { intros r2 w2 t2 extra Hrest Hnf Hev Heq.
      apply IH in Hrest as (attempts & tail & -> & Hpre & Hend).
      inversion Heq; subst; clear Heq.
      exists ((c, o) :: attempts), tail.
      split. { cbn [loop_events]. rewrite Hev, loop_events_progress.
               by rewrite <- !app_assoc. }
      split. { simpl. by rewrite <- Hpre. }
      inversion Hend as [Hlen Hnfs Hr Hs Ht | pre c' e Hatt Hf Hnfs Hr Hs Ht
                        | e Hlen Hnfs turn Hraise Hr Hs Ht | Hn ];
        [ | | |done].
      - rewrite job_after_step with (a := (c, o)).
        apply loop_completed; [simpl; lia | by constructor].
      - rewrite job_after_step with (a := (c, o)).
        apply (loop_copy_raised _ _ _ _ _ _ _ _ ((c, o) :: pre) c' e);
          [by rewrite Hatt | done | by constructor].
      - subst turn. rewrite !progress_job_twice in *.
        pose proof (loop_commit_raised (Some t) inm ile amount index j (c :: rest)
                      ((c, o) :: attempts) e) as H.
        cbn [length] in H.
        replace (index + S (length attempts)) with (S index + length attempts) in H
          by lia.
        assert (Hja : job_after amount (progress_job amount index j) (S index) attempts
                      = job_after amount j index ((c, o) :: attempts)).
        { pose proof (job_after_step amount j index (c, o) attempts) as Hj.
          cbv zeta in Hj. by inversion Hj. }
        rewrite Hja. apply H; [simpl; lia | by constructor | done]. }
    destruct o as [e|].
    + destruct (fatal inm ile e) eqn:Hf.
      * unfold prepend in Hrun; simpl in Hrun. inversion Hrun; subst; clear Hrun.
        exists [(c, Some e)], [].
        split. { simpl. unfold iteration_events. simpl. by rewrite Hf. }
        split; [done|].
        pose proof (loop_copy_raised (Some t) inm ile amount index j (c :: rest)
                      [(c, Some e)] [] c e) as H.
        cbn [job_after length] in H.
        replace (index + 1 - 1) with index in H by lia.
        apply H; [done | done | constructor].
      * destruct (run (transfer_loop src (Some t) inm ile 0 amount (S index) rest) _)
          as [[r2 w2] t2] eqn:Hrest.
        eapply (Hcont _ _ _ [EvAddComponent t c src (Some e); absorbed_log c e]);
          [reflexivity | exact Hf | | ].
        -- unfold iteration_events. simpl. by rewrite Hf.
        -- rewrite <- Hrun. reflexivity.
    + destruct (run (transfer_loop src (Some t) inm ile 0 amount (S index) rest) _)
          as [[r2 w2] t2] eqn:Hrest.
      eapply (Hcont _ _ _ [EvAddComponent t c src None]);
          [reflexivity | exact I | reflexivity | ].
      rewrite <- Hrun. reflexivity.
Qed.

(** The loop under any server, for any target. *)
Lemma run_loop_any src tgt inm ile amount comps index j st r w' tr :
  run (transfer_loop src tgt inm ile 0 amount index comps)
      (mkWorld (mkSession [j] [j]) st) = (r, w', tr) ->
  exists attempts tail,
    tr = loop_events tgt src inm ile amount j index attempts ++ tail
    /\ attempts.*1 = take (length attempts) comps
    /\ (tgt = None -> attempts = [] /\ locations_state w' = st)
    /\ loop_end tgt inm ile amount index j comps attempts r (session w') tail.
Proof.
  destruct tgt as [t|].
  - intros Hrun. apply run_loop_some in Hrun as (attempts & tail & H1 & H2 & H3).
    by exists attempts, tail.
  - intros Hrun. exists []. destruct comps as [|c rest].
    + inversion Hrun; subst. exists []. split; [done|]. split; [done|]. split; [done|].
      by apply loop_completed.
    + rewrite run_loop_step_any in Hrun. cbv zeta in Hrun.
      cbn [locations_state session local remote alter list_alter] in Hrun.
      fold (progress_job amount index j) in Hrun.
      destruct (session_raises (OpCommit [progress_job amount index j])) as [e|] eqn:Hc.
      * inversion Hrun; subst. eexists. split; [reflexivity|]. split; [done|].
        split; [done|]. cbn [session].
        pose proof (loop_commit_raised None inm ile amount index j (c :: rest) [] e)
          as H.
        cbn [length] in H. rewrite Nat.add_0_r in H.
        apply H; [simpl; lia | constructor | done].
      * rewrite run_copy_component_no_target in Hrun.
        unfold prepend in Hrun. cbn [fst snd app] in Hrun.
        inversion Hrun; subst. eexists. split; [reflexivity|]. split; [done|].
        split; [done|]. by apply loop_target_missing.
Qed.

(** The [try] block under any server, unfolded down to the resolver, the
    loop and the commit of [done]. *)
Lemma run_try_block_any es src tgt uid inm ile st :
  exists tr_res, Forall catalog_event tr_res /\
  run (transfer_try_block es src tgt inm ile 0) (world_at_try uid st) =
  match resolved es src st with
  | inl e => (inl e, world_at_try uid st, tr_res)
  | inr comps =>
      let amount := length comps in
      match run (transfer_loop src tgt inm ile 0 amount 1 comps) (world_at_try uid st) with
      | (inl e, w2, tl) => (inl e, w2, tr_res ++ [gathered_event amount] ++ tl)
      | (inr _, w2, tl) =>
          let l := alter (set_job_status "done") 0 (local (session w2)) in
          match session_raises (OpCommit l) with
          | Some e =>
              (inl e, mkWorld (mkSession l (remote (session w2))) (locations_state w2),
               tr_res ++ [gathered_event amount] ++ tl ++ [EvSessionError (OpCommit l) e])
          | None =>
              (inr tt, mkWorld (mkSession l l) (locations_state w2),
               tr_res ++ [gathered_event amount] ++ tl
               ++ [EvCommit l;
                   EvLog INFO "Transfer complete ({0} components)" [pretty amount]])
          end
      end
  end.
Proof.
  destruct (run_resolver es src (world_at_try uid st)) as (tr_res & Htr & Hres).
  exists tr_res. split; [done|].
  unfold transfer_try_block. rewrite run_bind, Hres. cbn [locations_state world_at_try].
  destruct (resolved es src st) as [e|comps]; [reflexivity|].
  cbv zeta. rewrite run_bind. unfold logger_info at 1, emit, run at 1.
  rewrite run_bind.
  destruct (run (transfer_loop src tgt inm ile 0 (length comps) 1 comps) _)
    as [[[e|[]] w2] tl]; [reflexivity|].
  rewrite run_bind, run_job_update, prepend_nil, run_bind, run_session_commit.
  cbn [session local remote locations_state].
  destruct (session_raises (OpCommit _)); [reflexivity|].
  unfold logger_info, emit, run, prepend. cbn [fst snd app]. reflexivity.
Qed.

Lemma try_block_shape es src tgt uid inm ile st :
  exists r w1 t1,
    run (transfer_try_block es src tgt inm ile 0) (world_at_try uid st) = (r, w1, t1)
    /\ try_shape es src tgt uid inm ile st r w1 t1.
Proof.
  destruct (run_try_block_any es src tgt uid inm ile st) as (tr_res & Htr & ->).
  destruct (resolved es src st) as [e|comps] eqn:Hres.
  { eexists _, _, _. split; [reflexivity|]. by apply try_resolver_raised. }
  cbv zeta.
  destruct (run (transfer_loop src tgt inm ile 0 (length comps) 1 comps) _)
    as [[r w2] tl] eqn:Hloop.
  unfold world_at_try in Hloop.
  apply run_loop_any in Hloop as (attempts & tail & -> & Hpre & Hnone & Hend).
  destruct w2 as [s2 st2]. cbn [session] in Hend.
  destruct r as [e|[]].
  - eexists _, _, _. split; [reflexivity|]. rewrite <- ?app_assoc.
    by eapply try_loop_raised.
  - inversion Hend as [Hlen Hnfs Hr Hs Ht | | | ]; subst s2.
    rewrite Hlen, firstn_all in Hpre.
    assert (Hnone' : tgt = None -> comps = []).
    { intros Hn. destruct (Hnone Hn) as [-> _]. by destruct comps. }
    cbn [session local remote locations_state alter list_alter].
    destruct (session_raises (OpCommit _)) as [e|] eqn:Hc.
    + eexists _, _, _. split; [reflexivity|]. rewrite app_nil_r, <- ?app_assoc.
      by eapply (try_done_refused es src tgt uid inm ile st comps attempts e st2 tr_res).
    + eexists _, _, _. split; [reflexivity|]. rewrite app_nil_r, <- ?app_assoc.
      by eapply (try_completed es src tgt uid inm ile st comps attempts st2 tr_res).
Qed.

(** An invocation under any server: a session call of the header raises and
    the thread ends there, or the [try] block is run and, when it raises, the
    [except] clause. *)
Lemma invoke_any es src tgt uid inm ile st :
  match session_raises OpSession with
  | Some e =>
      invoke es src tgt uid inm ile st
      = (mkWorld fresh_session st, [EvSessionError OpSession e])
  | None =>
  match session_raises (OpCreate (initial_job uid)) with
  | Some e =>
      invoke es src tgt uid inm ile st
      = (mkWorld fresh_session st, [EvSessionError (OpCreate (initial_job uid)) e])
  | None =>
  match session_raises (OpCommit [initial_job uid]) with
  | Some e =>
      invoke es src tgt uid inm ile st
      = (mkWorld (mkSession [initial_job uid] []) st,
         [EvCreate (initial_job uid);
          EvLog INFO "Creating job for user {0}: {1}" [show_user uid; pretty 0];
          EvSessionError (OpCommit [initial_job uid]) e])
  | None =>
      exists r w1 t1,
        run (transfer_try_block es src tgt inm ile 0) (world_at_try uid st) = (r, w1, t1)
        /\ try_shape es src tgt uid inm ile st r w1 t1
        /\ invoke es src tgt uid inm ile st
           = match r with
             | inr _ => (w1, header_events uid ++ t1)
             | inl e => ((cleanup w1).1.2,
                         header_events uid ++ t1
                         ++ EvLogException "Transfer failed" e :: (cleanup w1).2)
             end
  end end end.
Proof.
  unfold invoke. rewrite run_transfer_components_any. cbn [locations_state].
  destruct (session_raises OpSession); [reflexivity|].
  destruct (session_raises (OpCreate _)); [reflexivity|].
  destruct (session_raises (OpCommit _)); [reflexivity|].
  destruct (try_block_shape es src tgt uid inm ile st) as (r & w1 & t1 & Hrun & Hshape).
  exists r, w1, t1. split; [done|]. split; [done|]. rewrite Hrun.
  destruct r as [e|[]]; [|reflexivity].
  unfold prepend. cbn [fst snd]. by rewrite <- app_assoc.
Qed.

(** An invocation in which no session call raised has the shape of an
    invocation on the reliable server. *)
Lemma invoke_undisturbed es src tgt uid inm ile st :
  session_errors (invoke es src tgt uid inm ile st).2 = [] ->
  invocation_shape es src tgt uid inm ile st
    (invoke es src tgt uid inm ile st).1 (invoke es src tgt uid inm ile st).2.
Proof.
  pose proof (invoke_any es src tgt uid inm ile st) as H.
  destruct (session_raises OpSession); [by rewrite H|].
  destruct (session_raises (OpCreate _)); [by rewrite H|].
  destruct (session_raises (OpCommit _)); [by rewrite H|].
  destruct H as (r & w1 & t1 & _ & Hshape & ->).
  destruct Hshape as [e tr_res Hres Htr
    | comps attempts e s tail st' tr_res Hres Htr Hpre Hnone Hend
    | comps attempts e st' tr_res Hres Htr Hpre Hnone Hnf amount j1 Hc
    | comps attempts st' tr_res Hres Htr Hpre Hnone Hnf amount j1 Hc ];
    pose proof (session_errors_catalog _ Htr) as Hq.
  - unfold cleanup. cbn [fst snd session remote locations_state world_at_try
                         alter list_alter].
    destruct (session_raises OpRollback);
      [cbn [fst snd]; rewrite !session_errors_app, Hq; by intros|].
    destruct (session_raises (OpCommit _));
      [cbn [fst snd]; rewrite !session_errors_app, Hq; by intros|].
    intros _. cbn [fst snd]. by apply resolver_raised.
  - unfold cleanup. cbn [fst snd session remote locations_state].
    inversion Hend as [ | pre c e' Hatt Hf Hnfs Hr Hs Ht
                        | e' Hlen Hnfs turn Hraise Hr Hs Ht
                        | Htgt Hatt Hne Hr Hs Ht ]; subst.
    + destruct (session_raises OpRollback);
        [cbn [fst snd]; rewrite !session_errors_app, Hq, session_errors_loop;
         by intros|].
      cbn [remote alter list_alter].
      destruct (session_raises (OpCommit _));
        [cbn [fst snd]; rewrite !session_errors_app, Hq, session_errors_loop;
         by intros|].
      intros _. cbn [fst snd]. rewrite app_nil_r, <- ?app_assoc.
      destruct tgt as [t|]; [|by destruct (Hnone eq_refl) as [? _]; destruct pre].
      rewrite length_app, Nat.add_1_r in Hpre.
      by eapply (copy_raised es src (Some t) uid inm ile st comps t pre c e st' tr_res).
    + destruct (session_raises OpRollback);
        cbn [fst snd]; rewrite !session_errors_app, Hq, session_errors_loop;
        try done.
    + destruct (session_raises OpRollback);
        [cbn [fst snd]; rewrite !session_errors_app, Hq; by intros|].
      cbn [remote alter list_alter].
      destruct (session_raises (OpCommit _));
        [cbn [fst snd]; rewrite !session_errors_app, Hq; by intros|].
      intros _. cbn [fst snd loop_events app]. rewrite <- ?app_assoc.
      destruct comps as [|c rest]; [done|]. destruct (Hnone eq_refl) as [_ ->].
      by eapply (target_missing es src None uid inm ile st c rest tr_res).
  - unfold cleanup. destruct (session_raises OpRollback);
      cbn [fst snd]; rewrite !session_errors_app, Hq, session_errors_loop; try done.
  - intros _. cbn [fst snd].
    by eapply (completed es src tgt uid inm ile st comps attempts st' tr_res).
Qed.

Lemma try_shape_store es src tgt uid inm ile st r w1 t1 :
  try_shape es src tgt uid inm ile st r w1 t1 ->
  creations t1 = [] /\ rollbacks t1 = []
  /\ exists k jl jr,
       session w1 = mkSession [jl] [jr]
       /\ job_user_id jl = uid /\ job_user_id jr = uid
       /\ persisted_statuses 0 t1
          = replicate k "running" ++ (if r is inr _ then ["done"] else [])
       /\ job_status jr = (if r is inr _ then "done" else "running")
       /\ (if r is inr _ then jl = jr else True)
       /\ Forall (fun p => exists j, p = [j] /\ job_user_id j = uid) (commits t1)
       /\ last ([initial_job uid] :: commits t1) = Some [jr].
Proof.
  assert (Hloop : forall tgt amount index attempts,
    Forall (fun p => exists j, p = [j] /\ job_user_id j = uid)
      (commits (loop_events tgt src inm ile amount (initial_job uid) index attempts))).
  { intros. rewrite commits_loop. apply Forall_fmap, Forall_forall.
    intros i _. by eexists. }
  assert (Hlast : forall tgt amount attempts,
    last ([initial_job uid]
          :: commits (loop_events tgt src inm ile amount (initial_job uid) 1 attempts))
    = Some [job_after amount (initial_job uid) 1 attempts]).
  { intros. rewrite commits_loop. destruct attempts as [|a att] using rev_ind; [done|].
    rewrite length_app, Nat.add_1_r, seq_S, fmap_app. cbn [fmap list_fmap].
    rewrite last_cons, last_snoc. unfold job_after.
    destruct (att ++ [a]) eqn:E; [by destruct att|].
    rewrite <- E, length_app. simpl. do 3 f_equal. lia. }
  intros [e tr_res Hres Htr
    | comps attempts e s tail st' tr_res Hres Htr Hpre Hnone Hend
    | comps attempts e st' tr_res Hres Htr Hpre Hnone Hnf amount j1 Hc
    | comps attempts st' tr_res Hres Htr Hpre Hnone Hnf amount j1 Hc ];
    destruct (catalog_trace_quiet _ Htr) as (_ & _ & Hq3 & Hq4 & _);
    pose proof (rollbacks_catalog _ Htr) as Hrb;
    pose proof (persisted_statuses_catalog _ Htr) as Hps.
  - split; [done|]. split; [done|]. exists 0, (initial_job uid), (initial_job uid).
    rewrite Hps, Hq3. by repeat split.
  - inversion Hend as [ | pre c e' Hatt Hf Hnfs Hr Hs Ht
                        | e' Hlen Hnfs turn Hraise Hr Hs Ht
                        | Htgt Hatt Hne Hr Hs Ht ]; subst;
      (split; [by rewrite !creations_app, Hq4, creations_loop|]);
      (split; [by rewrite !rollbacks_app, Hrb, rollbacks_loop|]).
    + eexists (length (pre ++ [(c, Some e)])), _, _. split; [reflexivity|].
      rewrite !(proj2 (job_after_status _ _ _ _)), (proj1 (job_after_status _ _ _ _)).
      split; [done|]. split; [done|].
      split. { autorewrite with trace. rewrite Hps. cbn. by rewrite !app_nil_r. }
      split; [done|]. split; [done|].
      rewrite !commits_app, Hq3. cbn [app commits omap list_omap gathered_event].
      rewrite app_nil_r. split; [apply Hloop | apply Hlast].
    + eexists (length attempts), _, _. split; [reflexivity|].
      rewrite !(proj2 (job_after_status _ _ _ _)), (proj1 (job_after_status _ _ _ _)).
      split; [done|]. split; [done|].
      split. { autorewrite with trace. rewrite Hps. cbn. by rewrite !app_nil_r. }
      split; [done|]. split; [done|].
      rewrite !commits_app, Hq3. cbn [app commits omap list_omap gathered_event].
      rewrite app_nil_r. split; [apply Hloop | apply Hlast].
    + eexists 1, _, _. split; [reflexivity|].
      split; [done|]. split; [done|].
      split. { autorewrite with trace. by rewrite Hps. }
      split; [done|]. split; [done|].
      rewrite !commits_app, Hq3. cbn. split; [|done].
      repeat constructor. by eexists.
  - split; [by rewrite !creations_app, Hq4, creations_loop|].
    split; [by rewrite !rollbacks_app, Hrb, rollbacks_loop|].
    eexists (length attempts), _, _. split; [reflexivity|]. subst j1.
    cbn [set_job_status job_user_id job_status].
    rewrite !(proj2 (job_after_status _ _ _ _)), (proj1 (job_after_status _ _ _ _)).
    split; [done|]. split; [done|].
    split. { autorewrite with trace. rewrite Hps. cbn. by rewrite !app_nil_r. }
    split; [done|]. split; [done|].
    rewrite !commits_app, Hq3. cbn [app commits omap list_omap gathered_event].
    rewrite app_nil_r. split; [apply Hloop | apply Hlast].
  - split; [by rewrite !creations_app, Hq4, creations_loop|].
    split; [by rewrite !rollbacks_app, Hrb, rollbacks_loop|].
    eexists (length attempts), _, _. split; [reflexivity|]. subst j1.
    cbn [set_job_status job_user_id job_status].
    rewrite !(proj2 (job_after_status _ _ _ _)).
    split; [done|]. split; [done|].
    split. { autorewrite with trace. rewrite Hps. cbn. reflexivity. }
    split; [done|]. split; [done|].
    rewrite !commits_app, Hq3. cbn [app commits omap list_omap gathered_event done_events].
    split.
    + apply Forall_app. split; [apply Hloop|]. repeat constructor. eexists. split; [done|].
      cbn. by rewrite (proj2 (job_after_status _ _ _ _)).
    + by rewrite app_comm_cons, last_snoc.
Qed.

Lemma try_shape_completed_last es src tgt uid inm ile st w1 t1 pre :
  try_shape es src tgt uid inm ile st (inr tt) w1 t1 ->
  ends_on_session_error (pre ++ t1) = false.
Proof.
  inversion 1; subst. rewrite !app_assoc. unfold done_events.
  by rewrite ends_on_session_error_app.
Qed.

Lemma loop_end_attempts tgt inm ile amount index j comps attempts r s tail :
  loop_end tgt inm ile amount index j comps attempts r s tail ->
  copy_attempts tail = []
  /\ forall k c e, attempts !! k = Some (c, Some e) -> fatal inm ile e = true ->
       length attempts = S k /\ r = inl e.
Proof.
  assert (Hnf : forall l k c e, Forall (nonfatal inm ile) l ->
            l !! k = Some (c, Some e) -> fatal inm ile e = true -> False).
  { intros l k c e Hl Hk Hf. eapply Forall_lookup_1 in Hl; [|exact Hk].
    unfold nonfatal in Hl. cbn in Hl. congruence. }
  intros [Hlen Hnfs | pre c e Hatt Hf Hnfs | e Hlen Hnfs turn Hraise | Htgt Hatt Hne];
    (split; [done|]); intros k c' e' Hk Hf'.
  - by destruct (Hnf _ _ _ _ Hnfs Hk Hf').
  - subst attempts. destruct (decide (k < length pre)) as [Hlt|Hge].
    + rewrite lookup_app_l in Hk by done. by destruct (Hnf _ _ _ _ Hnfs Hk Hf').
    + pose proof (lookup_lt_Some _ _ _ Hk) as Hlt. rewrite length_app in Hlt |- *.
      simpl in *. assert (k = length pre) as -> by lia.
      rewrite lookup_app_r, Nat.sub_diag in Hk by lia. inversion Hk; subst.
      split; [lia | done].
  - by destruct (Hnf _ _ _ _ Hnfs Hk Hf').
  - by subst attempts.
Qed.

(** The copy attempts of the [try] block follow the resolved components, and
    an attempt whose exception is let through is the last one. *)
Lemma try_shape_attempts es src tgt uid inm ile st r w1 t1 :
  try_shape es src tgt uid inm ile st r w1 t1 ->
  (forall e, resolved es src st = inl e -> copy_attempts t1 = [])
  /\ (forall comps, resolved es src st = inr comps ->
        (copy_attempts t1).*1 = take (length (copy_attempts t1)) comps)
  /\ (forall k c e, copy_attempts t1 !! k = Some (c, Some e) ->
        fatal inm ile e = true ->
        length (copy_attempts t1) = S k /\ r = inl e).
Proof.
  assert (Hloop : forall amount attempts,
    (tgt = None -> attempts = []) ->
    copy_attempts (loop_events tgt src inm ile amount (initial_job uid) 1 attempts)
    = attempts).
  { intros amount attempts Hn. destruct tgt as [t|]; [apply copy_attempts_loop|].
    by rewrite Hn. }
  assert (Hnf : forall l k c e, Forall (nonfatal inm ile) l ->
            l !! k = Some (c, Some e) -> fatal inm ile e = true -> False).
  { intros l k c e Hl Hk Hf. eapply Forall_lookup_1 in Hl; [|exact Hk].
    unfold nonfatal in Hl. cbn in Hl. congruence. }
  intros [e tr_res Hres Htr
    | comps attempts e s tail st' tr_res Hres Htr Hpre Hnone Hend
    | comps attempts e st' tr_res Hres Htr Hpre Hnone Hnf' amount j1 Hc
    | comps attempts st' tr_res Hres Htr Hpre Hnone Hnf' amount j1 Hc ];
    destruct (catalog_trace_quiet _ Htr) as (Hq & _).
  - rewrite Hq. split; [done|]. split; [by intros|]. by intros [].
  - destruct (loop_end_attempts _ _ _ _ _ _ _ _ _ _ _ Hend) as [Htail Hfatal].
    rewrite !copy_attempts_app, Hq, Htail, Hloop by (intros Hn; by apply Hnone).
    cbn [app copy_attempts omap list_omap gathered_event]. rewrite app_nil_r.
    split; [by rewrite Hres|]. split; [|done].
    intros comps' Hres'. rewrite Hres in Hres'. by inversion Hres'; subst.
  - assert (Hn : tgt = None -> attempts = []).
    { intros Hn. rewrite (Hnone Hn) in Hpre. by apply fmap_nil_inv in Hpre. }
    rewrite !copy_attempts_app, Hq, Hloop by done.
    cbn [app copy_attempts omap list_omap gathered_event]. rewrite app_nil_r.
    split; [by rewrite Hres|]. split.
    + intros comps' Hres'. rewrite Hres in Hres'. inversion Hres'; subst comps'.
      rewrite <- (length_fmap fst attempts), Hpre. by rewrite firstn_all.
    + intros k c e' Hk Hf. by destruct (Hnf _ _ _ _ Hnf' Hk Hf).
  - assert (Hn : tgt = None -> attempts = []).
    { intros Hn. rewrite (Hnone Hn) in Hpre. by apply fmap_nil_inv in Hpre. }
    rewrite !copy_attempts_app, Hq, Hloop by done.
    cbn [app copy_attempts omap list_omap gathered_event done_events].
    rewrite app_nil_r.
    split; [by rewrite Hres|]. split.
    + intros comps' Hres'. rewrite Hres in Hres'. inversion Hres'; subst comps'.
      rewrite <- (length_fmap fst attempts), Hpre. by rewrite firstn_all.
    + intros k c e' Hk Hf. by destruct (Hnf _ _ _ _ Hnf' Hk Hf).
Qed.

Lemma cleanup_attempts w : copy_attempts (cleanup w).2 = [].
Proof.
  unfold cleanup. destruct (session_raises OpRollback); [done|].
  by destruct (session_raises (OpCommit _)).
Qed.

Lemma header_calls_answered uid :
  Forall (fun op => session_raises op = None) (header_calls uid) <->
  session_raises OpSession = None
  /\ session_raises (OpCreate (initial_job uid)) = None
  /\ session_raises (OpCommit [initial_job uid]) = None.
Proof.
  unfold header_calls. rewrite !Forall_cons, Forall_nil. tauto.
Qed.

(** How an invocation can end under any server. *)
Lemma invoke_status_cases es src tgt uid inm ile st :
  let r := invoke es src tgt uid inm ile st in
  (final_status r.1 = Some "done" /\ session_errors r.2 = []
   /\ ends_on_session_error r.2 = false /\ rollbacks r.2 = []
   /\ local (session r.1) = remote (session r.1))
  \/ (final_status r.1 = Some "failed" /\ ends_on_session_error r.2 = false
      /\ length (rollbacks r.2) = 1 /\ local (session r.1) = remote (session r.1))
  \/ ((final_status r.1 = Some "running" \/ final_status r.1 = None)
      /\ ends_on_session_error r.2 = true /\ length (rollbacks r.2) <= 1).
Proof.
  cbv zeta. pose proof (invoke_any es src tgt uid inm ile st) as H.
  destruct (session_raises OpSession); [rewrite H; right; right; cbn; auto|].
  destruct (session_raises (OpCreate _)); [rewrite H; right; right; cbn; auto|].
  destruct (session_raises (OpCommit _)); [rewrite H; right; right; cbn; auto|].
  destruct H as (r & w1 & t1 & _ & Hshape & ->).
  pose proof Hshape as Hshape'.
  apply try_shape_store in Hshape
    as (Hcr & Hrb & k & jl & jr & Hs & Hul & Hur & Hps & Hst & Heq & Hcs & Hlast).
  destruct w1 as [s1 st1]. cbn [session] in Hs. subst s1.
  destruct r as [e|[]].
  - unfold cleanup. cbn [session remote locations_state alter list_alter].
    destruct (session_raises OpRollback) as [e1|];
      [|destruct (session_raises (OpCommit _)) as [e2|]];
      cbn [fst snd]; rewrite app_assoc, ends_on_session_error_app;
      rewrite <- !app_assoc, !rollbacks_app, Hrb; unfold final_status;
      cbn [session remote local lookup list_lookup fmap option_fmap option_map
           set_job_status job_status];
      rewrite ?Hst.
    + right; right. cbn. auto.
    + right; right. cbn. auto.
    + right; left. cbn. auto.
  - left. cbn [fst snd]. subst jl.
    rewrite (try_shape_completed_last _ _ _ _ _ _ _ _ _ _ Hshape').
    rewrite !rollbacks_app, Hrb. unfold final_status.
    cbn [session remote local lookup list_lookup fmap option_fmap option_map].
    rewrite Hst. split; [done|]. split; [|done].
    inversion Hshape' as [ | | | ? ? ? ? ? Htr]; subst t1.
    by rewrite !session_errors_app, session_errors_loop, (session_errors_catalog _ Htr).
Qed.

End AnyServer.

Section ReliableShape.
Context `{sdk : SDK}.

(** On a run of the reliable shape, [done] means that every attempt was
    survived. *)
Lemma shape_done_iff es src tgt uid inm ile st w tr :
  invocation_shape es src tgt uid inm ile st w tr ->
  (final_status w = Some "done" <->
     exists comps, resolved es src st = inr comps
       /\ (copy_attempts tr).*1 = comps
       /\ Forall (nonfatal inm ile) (copy_attempts tr))
  /\ (final_status w = Some "done" \/ final_status w = Some "failed").
Proof.
  intros [e tr_res Hres Htr | c0 rest tr_res Hres Htgt Htr amount j1
       | comps t pre c0 e st' tr_res Hres Htgt Htr Hpre Hf Hnf amount j1
       | comps attempts st' tr_res Hres Htgt Htr Hpre Hnf amount j1];
    destruct (catalog_trace_quiet _ Htr) as (Hq & _);
    (split; [|by (left + right)]).
  - split; [done|]. intros (comps & Hc & _). by rewrite Hres in Hc.
  - split; [done|]. intros (comps & Hc & Hatt & _). rewrite Hres in Hc.
    injection Hc as <-. autorewrite with trace in Hatt. by rewrite Hq in Hatt.
  - split; [done|]. intros (comps' & _ & _ & Hall). subst tgt.
    autorewrite with trace in Hall. rewrite Hq in Hall. simpl in Hall.
    rewrite app_nil_r in Hall. apply Forall_app in Hall as [_ Hlast].
    inversion Hlast as [|? ? Hbad _]; subst. unfold nonfatal in Hbad. simpl in Hbad.
    congruence.
  - split; [intros _|done]. exists comps. split; [done|].
    autorewrite with trace. rewrite Hq. destruct tgt as [t|].
    + autorewrite with trace. simpl. by rewrite app_nil_r.
    + rewrite Htgt in Hpre by done. apply fmap_nil_inv in Hpre as ->.
      rewrite Htgt by done. simpl. by split.
Qed.

End ReliableShape.

(** * The claims *)

(** A theorem that takes a [Server] is about every server.  A theorem that
    takes none is about an invocation on [reliable], the server that answers
    every session call: it says what the plugin does when opening the
    session, [create], [commit] and [rollback] return. *)

(** ** C1: classification of a copy failure *)

(** C1.  One turn of the batch loop, for the component [c] followed by
    [rest], classifies what [add_component] raised in the order of the
    [except] clauses.  An already-present error is logged and the loop goes on
    with [rest].  A not-in-source error is logged and the loop goes on exactly
    when [ignore_missing] or [ignore_errors] is set; otherwise the exception
    leaves the loop, and the trace of the loop ends with the failed attempt
    (no later component is tried).  Any other [LocationError] is logged and
    the loop goes on exactly when [ignore_errors] is set; otherwise it leaves
    the loop in the same way.  An exception outside the location hierarchy
    always leaves the loop. *)
Theorem copy_failure_classification `{sdk : SDK}
    (src : option Location) (t : Location) (ignore_missing ignore_errors : bool)
    (job amount index : nat) (c : Component) (rest : list Component) (w : World) :
  let l1 := alter (set_job_data (json_dumps_description
                                   (progress_description index amount)))
                  job (local (session w)) in
  let before :=
    [EvLog INFO "Transferring component ({0} of {1})" [pretty index; pretty amount];
     EvCommit l1] in
  let turn :=
    run (transfer_loop src (Some t) ignore_missing ignore_errors
                       job amount index (c :: rest)) w in
  let raised := (location_add_component t c src (locations_state w)).1 in
  let w1 := mkWorld (mkSession l1 l1)
                    (location_add_component t c src (locations_state w)).2 in
  let attempt := EvAddComponent t c src raised in
  let continues (log : list event) :=
    turn = prepend (before ++ attempt :: log)
             (run (transfer_loop src (Some t) ignore_missing ignore_errors
                                 job amount (S index) rest) w1) in
  let aborts (e : exn) := turn = (inl e, w1, before ++ [attempt]) in
  match raised with
  | None => continues []
  | Some ComponentInLocationError =>
      continues [EvLog INFO "Component ({}) already in target location" [c]]
  | Some ComponentNotInLocationError =>
      if ignore_missing || ignore_errors
      then continues [EvLogException "Failed to add component to location"
                                     ComponentNotInLocationError]
      else aborts ComponentNotInLocationError
  | Some LocationError =>
      if ignore_errors
      then continues [EvLogException "Failed to add component to location"
                                     LocationError]
      else aborts LocationError
  | Some e => aborts e
  end.
Proof.
  cbv zeta. rewrite run_loop_step. cbv zeta. rewrite run_copy_component.
  cbn [locations_state session].
  destruct (location_add_component t c src (locations_state w)) as [[e|] st];
    cbn [fst snd].
  - destruct e; cbn [fatal absorbed_log];
      try destruct (ignore_missing || ignore_errors);
      try destruct ignore_errors; cbn [negb];
      rewrite ?prepend_prepend; reflexivity.
  - by rewrite prepend_prepend.
Qed.

(** ** C2: abort of the batch *)

(** C2, as stated, on a server that refuses the commit of [failed]: the
    third copy raises a not-in-source error with no flag set, no later
    component is tried, and the job is left [running]. *)
Lemma failed_status_can_be_lost :
  let r := invoke (sdk := ref_sdk three_components ∅) (srv := refuses_failed)
                  select_v1 (Some vault_A) (Some vault_B) (Some "u1")
                  false false c2_missing in
  copy_attempts r.2 !! 2 = Some ("c2", Some ComponentNotInLocationError)
  /\ final_status r.1 = Some "running"
  /\ final_status r.1 <> Some "failed".
Proof. vm_compute. repeat split; done. Qed.

(** C2, amended.  For every server:
    (a) with neither flag set, if the [k+1]-th copy attempt of an invocation
    raised a not-in-source error, then exactly [k+1] attempts were made, for
    the first [k+1] resolved components, and the error is logged; the job
    ends [failed] unless the invocation ends on a session call of the handler
    that raises, in which case it is left [running];
    (b) whenever the [try] block raises an exception [e], whatever it is
    (the resolver, a copy, a commit of the block), the handler logs it and
    calls [session.rollback()] and [session.commit()]: the trace is the trace
    of the block up to the exception followed by the log line and these
    calls, so no component is tried after the exception, and the job is
    committed as [failed], as last committed otherwise, exactly when both
    calls return;
    (c) when the resolver raises, the exception is logged and no component is
    tried at all;
    (d) when a session call made before the [try] block raises, nothing is
    logged, nothing is committed and no component is tried. *)
Theorem abort_on_unhandled_exception `{sdk : SDK} {srv : Server}
    (entities : list SelectionItem) (src tgt : option Location)
    (user_id : option string) (st : LocState) :
  (forall k c,
     let r := invoke entities src tgt user_id false false st in
     copy_attempts r.2 !! k = Some (c, Some ComponentNotInLocationError) ->
     length (copy_attempts r.2) = S k
     /\ (exists comps, resolved entities src st = inr comps
           /\ (copy_attempts r.2).*1 = take (S k) comps)
     /\ EvLogException "Transfer failed" ComponentNotInLocationError ∈ r.2
     /\ (ends_on_session_error r.2 = false -> final_status r.1 = Some "failed")
     /\ (ends_on_session_error r.2 = true -> final_status r.1 = Some "running"))
  /\ (forall ignore_missing ignore_errors e w1 t1,
        Forall (fun op => session_raises op = None) (header_calls user_id) ->
        run (transfer_try_block entities src tgt ignore_missing ignore_errors 0)
            (world_at_try user_id st) = (inl e, w1, t1) ->
        let r := invoke entities src tgt user_id ignore_missing ignore_errors st in
        exists j handler,
          remote (session w1) = [j] /\ job_status j = "running"
          /\ r.2 = header_events user_id ++ t1
                   ++ EvLogException "Transfer failed" e :: handler
          /\ match session_raises OpRollback,
                   session_raises (OpCommit [set_job_status "failed" j]) with
             | None, None =>
                 handler = [EvRollback; EvCommit [set_job_status "failed" j]]
                 /\ final_status r.1 = Some "failed"
             | Some e', _ =>
                 handler = [EvSessionError OpRollback e']
                 /\ final_status r.1 = Some "running"
             | None, Some e' =>
                 handler = [EvRollback;
                            EvSessionError (OpCommit [set_job_status "failed" j]) e']
                 /\ final_status r.1 = Some "running"
             end)
  /\ (forall ignore_missing ignore_errors e,
        Forall (fun op => session_raises op = None) (header_calls user_id) ->
        resolved entities src st = inl e ->
        let r := invoke entities src tgt user_id ignore_missing ignore_errors st in
        EvLogException "Transfer failed" e ∈ r.2
        /\ copy_attempts r.2 = []
        /\ (ends_on_session_error r.2 = false -> final_status r.1 = Some "failed"))
  /\ (forall ignore_missing ignore_errors,
        ~ Forall (fun op => session_raises op = None) (header_calls user_id) ->
        let r := invoke entities src tgt user_id ignore_missing ignore_errors st in
        copy_attempts r.2 = [] /\ commits r.2 = []
        /\ (forall msg e, EvLogException msg e ∉ r.2)
        /\ ends_on_session_error r.2 = true).
Proof.
  (* what the handler does, from the world in which the block stopped *)
  assert (Hhandler : forall inm ile e w1 t1,
    try_shape entities src tgt user_id inm ile st (inl e) w1 t1 ->
    exists j, remote (session w1) = [j] /\ job_status j = "running"
      /\ match session_raises OpRollback,
               session_raises (OpCommit [set_job_status "failed" j]) with
         | None, None =>
             (cleanup w1).2 = [EvRollback; EvCommit [set_job_status "failed" j]]
             /\ final_status (cleanup w1).1.2 = Some "failed"
         | Some e', _ =>
             (cleanup w1).2 = [EvSessionError OpRollback e']
             /\ final_status (cleanup w1).1.2 = Some "running"
         | None, Some e' =>
             (cleanup w1).2
             = [EvRollback; EvSessionError (OpCommit [set_job_status "failed" j]) e']
             /\ final_status (cleanup w1).1.2 = Some "running"
         end).
  { intros inm ile e w1 t1 Hshape.
    apply try_shape_store in Hshape
      as (_ & _ & k & jl & jr & Hs & _ & _ & _ & Hst & _ & _ & _).
    destruct w1 as [s1 st1]. cbn [session] in *. subst s1.
    exists jr. split; [done|]. split; [done|].
    unfold cleanup, final_status. cbn [session remote alter list_alter].
    destruct (session_raises OpRollback); [by cbn; rewrite Hst|].
    destruct (session_raises (OpCommit _)); cbn; by rewrite ?Hst. }
  assert (Hends : forall inm ile e w1 t1,
    try_shape entities src tgt user_id inm ile st (inl e) w1 t1 ->
    let tr := header_events user_id ++ t1
              ++ EvLogException "Transfer failed" e :: (cleanup w1).2 in
    (ends_on_session_error tr = false -> final_status (cleanup w1).1.2 = Some "failed")
    /\ (ends_on_session_error tr = true ->
        final_status (cleanup w1).1.2 = Some "running")).
  { intros inm ile e w1 t1 Hshape tr. subst tr.
    destruct (Hhandler _ _ _ _ _ Hshape) as (j & _ & _ & Hm).
    rewrite app_assoc, ends_on_session_error_app.
    destruct (session_raises OpRollback);
      [|destruct (session_raises (OpCommit [set_job_status "failed" j]))];
      destruct Hm as [-> ->]; by split. }
  split; [|split; [|split]].
  - intros k c r Hk. subst r.
    pose proof (invoke_any entities src tgt user_id false false st) as H.
    destruct (session_raises OpSession); [rewrite H in Hk; by destruct k|].
    destruct (session_raises (OpCreate _)); [rewrite H in Hk; by destruct k|].
    destruct (session_raises (OpCommit _)); [rewrite H in Hk; by destruct k|].
    destruct H as (r & w1 & t1 & _ & Hshape & Hinv). rewrite Hinv in *. clear Hinv.
    destruct (try_shape_attempts _ _ _ _ _ _ _ _ _ _ Hshape) as (Hnone & Hsome & Hfatal).
    assert (Hatt : copy_attempts
              (match r with
               | inl e => ((cleanup w1).1.2,
                           header_events user_id ++ t1
                           ++ EvLogException "Transfer failed" e :: (cleanup w1).2)
               | inr _ => (w1, header_events user_id ++ t1)
               end).2 = copy_attempts t1).
    { destruct r as [e|[]]; cbn [snd]; rewrite !copy_attempts_app;
        [|by rewrite copy_attempts_header].
      rewrite copy_attempts_header.
      change (EvLogException "Transfer failed" e :: (cleanup w1).2)
        with ([EvLogException "Transfer failed" e] ++ (cleanup w1).2).
      by rewrite copy_attempts_app, cleanup_attempts, app_nil_r. }
    rewrite Hatt in *.
    destruct (Hfatal k c ComponentNotInLocationError Hk eq_refl) as [Hlen ->].
    split; [done|]. split.
    { destruct (resolved entities src st) as [e|comps] eqn:Hres.
      - rewrite (Hnone e eq_refl) in Hk. by destruct k.
      - exists comps. split; [done|]. rewrite <- Hlen. by apply Hsome. }
    cbn [fst snd]. split.
    { rewrite !elem_of_app. right; right. apply list_elem_of_here. }
    by apply (Hends false false).
  - intros inm ile e w1 t1 Hhdr Hrun r. subst r.
    apply header_calls_answered in Hhdr as (H1 & H2 & H3).
    pose proof (invoke_any entities src tgt user_id inm ile st) as H.
    rewrite H1, H2, H3 in H.
    destruct H as (r & w1' & t1' & Hrun' & Hshape & ->).
    rewrite Hrun in Hrun'. inversion Hrun'; subst r w1' t1'. cbn [fst snd].
    destruct (Hhandler _ _ _ _ _ Hshape) as (j & Hj & Hst & Hm).
    exists j, (cleanup w1).2. split; [done|]. split; [done|]. split; [done|].
    destruct (session_raises OpRollback);
      [|destruct (session_raises (OpCommit [set_job_status "failed" j]))];
      destruct Hm as [Hm1 Hm2]; by rewrite Hm1.
  - intros inm ile e Hhdr Hres r. subst r.
    apply header_calls_answered in Hhdr as (H1 & H2 & H3).
    pose proof (invoke_any entities src tgt user_id inm ile st) as H.
    rewrite H1, H2, H3 in H.
    destruct H as (r & w1 & t1 & _ & Hshape & ->).
    destruct (try_shape_attempts _ _ _ _ _ _ _ _ _ _ Hshape) as (Hnone & _ & _).
    assert (r = inl e) as ->.
    { inversion Hshape; congruence. }
    cbn [fst snd]. split.
    { rewrite !elem_of_app. right; right. apply list_elem_of_here. }
    split.
    { rewrite !copy_attempts_app, copy_attempts_header, (Hnone e Hres).
      change (EvLogException "Transfer failed" e :: (cleanup w1).2)
        with ([EvLogException "Transfer failed" e] ++ (cleanup w1).2).
      by rewrite copy_attempts_app, cleanup_attempts. }
    by apply (Hends inm ile).
  - intros inm ile Hhdr r. subst r.
    rewrite header_calls_answered in Hhdr.
    pose proof (invoke_any entities src tgt user_id inm ile st) as H.
    destruct (session_raises OpSession).
    { rewrite H. cbn. split; [done|]. split; [done|]. split; [|done].
      intros msg e' [?|?%elem_of_nil]%elem_of_cons; done. }
    destruct (session_raises (OpCreate _)).
    { rewrite H. cbn. split; [done|]. split; [done|]. split; [|done].
      intros msg e' [?|?%elem_of_nil]%elem_of_cons; done. }
    destruct (session_raises (OpCommit _)).
    { rewrite H. cbn. split; [done|]. split; [done|]. split; [|done].
      intros msg e'. rewrite !elem_of_cons, elem_of_nil. intros [?|[?|[?|?]]]; done. }
    by destruct Hhdr.
Qed.

(** Four runs on the reference SDK.  On the reliable server [c2] is missing
    from the source and is the third component tried.  On a server that
    refuses the commit of the second progress description the [try] block
    stops there, and the job is committed as [failed] with the first
    description.  With a catalog that cannot be reached the job ends
    [failed] without an attempt.  Without a server nothing is logged. *)
Lemma abort_on_unhandled_exception_witness :
  (let r := invoke (sdk := ref_sdk three_components ∅) select_v1
                   (Some vault_A) (Some vault_B) (Some "u1") false false c2_missing in
   length (copy_attempts r.2) = 3 /\ final_status r.1 = Some "failed")
  /\ (let r := invoke (sdk := ref_sdk three_components ∅)
                      (srv := refuses_second_progress) select_v1
                      (Some vault_A) (Some vault_B) (Some "u1") false false only_in_A in
      final_status r.1 = Some "failed"
      /\ last (commits r.2)
         = Some [mkJob (Some "u1") "failed"
                       (json_dumps_description "Transfer components (1 of 3)")])
  /\ (let r := invoke (sdk := ref_sdk unreachable ∅) select_v1
                      (Some vault_A) (Some vault_B) (Some "u1") false false only_in_A in
      final_status r.1 = Some "failed" /\ copy_attempts r.2 = [])
  /\ (let r := invoke (sdk := ref_sdk three_components ∅) (srv := no_server) select_v1
                      (Some vault_A) (Some vault_B) (Some "u1") false false only_in_A in
      commits r.2 = [] /\ ends_on_session_error r.2 = true).
Proof.
  split; [|split; [|split]].
  - cbv zeta.
    destruct (proj1 (abort_on_unhandled_exception
                       (sdk := ref_sdk three_components ∅) (srv := reliable)
                       select_v1 (Some vault_A) (Some vault_B) (Some "u1") c2_missing)
                    2 "c2") as (Hlen & _ & _ & Hfailed & _).
    + vm_compute. reflexivity.
    + split; [exact Hlen|]. apply Hfailed. vm_compute. reflexivity.
  - cbv zeta.
    pose (X := run (sdk := ref_sdk three_components ∅)
                   (transfer_try_block (sdk := ref_sdk three_components ∅)
                      (srv := refuses_second_progress)
                      select_v1 (Some vault_A) (Some vault_B) false false 0)
                   (world_at_try (sdk := ref_sdk three_components ∅)
                                 (Some "u1") only_in_A)).
    assert (Hr : X.1.1 = inl (OtherError "ServerError")) by (vm_compute; reflexivity).
    destruct (proj1 (proj2 (abort_on_unhandled_exception
                       (sdk := ref_sdk three_components ∅)
                       (srv := refuses_second_progress)
                       select_v1 (Some vault_A) (Some vault_B) (Some "u1") only_in_A))
                    false false (OtherError "ServerError") X.1.2 X.2)
      as (j & handler & Hj & Hst & Htr & Hm).
    + repeat constructor.
    + fold X. clearbody X. destruct X as [[r w'] t]. simpl in Hr. by subst r.
    + assert (Hj' : j = mkJob (Some "u1") "running"
                          (json_dumps_description "Transfer components (1 of 3)")).
      { assert (Hx : remote (session X.1.2)
                     = [mkJob (Some "u1") "running"
                           (json_dumps_description "Transfer components (1 of 3)")])
          by (vm_compute; reflexivity).
        rewrite Hx in Hj. by inversion Hj. }
      subst j. cbn in Hm. destruct Hm as [Hh Hf]. split; [exact Hf|].
      rewrite Htr, Hh.
      change (EvLogException "Transfer failed" (OtherError "ServerError")
              :: [EvRollback; EvCommit ?p])
        with ([EvLogException "Transfer failed" (OtherError "ServerError");
               EvRollback] ++ [EvCommit p]).
      rewrite !app_assoc, commits_app. apply last_snoc.
  - cbv zeta.
    destruct (proj1 (proj2 (proj2 (abort_on_unhandled_exception
                       (sdk := ref_sdk unreachable ∅) (srv := reliable)
                       select_v1 (Some vault_A) (Some vault_B) (Some "u1") only_in_A)))
                    false false (OtherError "ServerError"))
      as (_ & Hatt & Hfailed).
    + repeat constructor.
    + vm_compute. reflexivity.
    + split; [|exact Hatt]. apply Hfailed. vm_compute. reflexivity.
  - cbv zeta.
    destruct (proj2 (proj2 (proj2 (abort_on_unhandled_exception
                       (sdk := ref_sdk three_components ∅) (srv := no_server)
                       select_v1 (Some vault_A) (Some vault_B) (Some "u1") only_in_A)))
                    false false)
      as (_ & Hc & _ & Hends).
    + intros H. apply header_calls_answered in H as [H _]. discriminate H.
    + by split.
Defined.

(** ** C3: the progress description *)




(** ** C4: the life cycle of the job *)

(** C4, as stated, on a server that refuses the commit of [failed], with a
    catalog that cannot be reached: the resolver raises, the commit of
    [failed] raises, and the job never leaves [running]. *)
Lemma job_can_stay_running :
  let r := invoke (sdk := ref_sdk unreachable ∅) (srv := refuses_failed)
                  select_v1 (Some vault_A) (Some vault_B) (Some "u1")
                  false false only_in_A in
  creations r.2 = [initial_job (Some "u1")]
  /\ persisted_statuses 0 r.2 = ["running"]
  /\ final_status r.1 = Some "running".
Proof. vm_compute. repeat split; done. Qed.

(** C4, amended.  For every server, an invocation hands at most one entity
    to [session.create], with the status [running]; the committed store never
    holds more than that job; and the statuses of the job over the successive
    commits are [running] any number of times followed by at most one
    terminal status, [done] or [failed], after which nothing is committed:
    the status committed last is the final one.  An invocation that does not
    end on a session call that raises creates exactly one job and commits
    exactly one terminal status; one that does commits none, and the job is
    left [running] or was never committed. *)
Theorem job_lifecycle `{sdk : SDK} {srv : Server}
    (entities : list SelectionItem) (src tgt : option Location)
    (user_id : option string) (ignore_missing ignore_errors : bool) (st : LocState) :
  let r := invoke entities src tgt user_id ignore_missing ignore_errors st in
  let one_running_job :=
    exists j, creations r.2 = [j] /\ job_status j = "running"
              /\ job_user_id j = user_id in
  (creations r.2 = [] \/ one_running_job)
  /\ length (remote (session r.1)) <= 1
  /\ (exists n tail,
        persisted_statuses 0 r.2 = replicate n "running" ++ tail
        /\ (tail = [] \/ tail = ["done"] \/ tail = ["failed"])
        /\ final_status r.1 = last (persisted_statuses 0 r.2))
  /\ (ends_on_session_error r.2 = false ->
      one_running_job
      /\ length (remote (session r.1)) = 1
      /\ exists n terminal,
           persisted_statuses 0 r.2 = replicate (S n) "running" ++ [terminal]
           /\ (terminal = "done" \/ terminal = "failed")
           /\ final_status r.1 = Some terminal)
  /\ (ends_on_session_error r.2 = true ->
      ("done" ∉ persisted_statuses 0 r.2) /\ ("failed" ∉ persisted_statuses 0 r.2)
      /\ (final_status r.1 = None \/ final_status r.1 = Some "running")).
Proof.
  cbv zeta.
  pose proof (invoke_any entities src tgt user_id ignore_missing ignore_errors st) as H.
  destruct (session_raises OpSession).
  { rewrite H. cbn. split; [by left|]. split; [lia|]. split; [by exists 0, []; auto|].
    split; [done|]. intros _. split; [by intros ?%elem_of_nil|].
    split; [by intros ?%elem_of_nil | by left]. }
  destruct (session_raises (OpCreate _)).
  { rewrite H. cbn. split; [by left|]. split; [lia|]. split; [by exists 0, []; auto|].
    split; [done|]. intros _. split; [by intros ?%elem_of_nil|].
    split; [by intros ?%elem_of_nil | by left]. }
  destruct (session_raises (OpCommit _)).
  { rewrite H. cbn. split; [right; by eexists|]. split; [lia|].
    split; [by exists 0, []; auto|].
    split; [done|]. intros _. split; [by intros ?%elem_of_nil|].
    split; [by intros ?%elem_of_nil | by left]. }
  destruct H as (r & w1 & t1 & _ & Hshape & ->).
  pose proof Hshape as Hshape'.
  apply try_shape_store in Hshape
    as (Hcr & Hrb & k & jl & jr & Hs & Hul & Hur & Hps & Hst & Heq & Hcs & Hlast).
  destruct w1 as [s1 st1]. cbn [session] in Hs. subst s1.
  assert (Hl : forall tail, last ("running" :: replicate k "running" ++ tail)
                            = last ("running" :: tail)).
  { intros. apply last_replicate_app. }
  assert (Hin : forall x, x ≠ "running" -> x ∉ "running" :: replicate k "running").
  { intros x Hx [?|[? _]%elem_of_replicate]%elem_of_cons; done. }
  destruct r as [e|[]].
  - (* the try block raised *)
    unfold cleanup. cbn [session remote locations_state alter list_alter].
    destruct (session_raises OpRollback) as [e1|];
      [|destruct (session_raises (OpCommit _)) as [e2|]];
      cbn [fst snd]; rewrite app_assoc, ends_on_session_error_app;
      rewrite <- !app_assoc; autorewrite with trace; rewrite Hcr, Hps;
      change (persisted_statuses 0 (header_events user_id)) with ["running"];
      unfold final_status;
      cbn [app persisted_statuses commits omap list_omap creations session remote
           lookup list_lookup fmap option_fmap option_map set_job_status job_status];
      rewrite ?app_nil_r, ?Hst;
      (split; [right; by eexists|]); (split; [simpl; lia|]).
    + split. { exists (S k), []. rewrite app_nil_r. split; [done|]. split; [by left|].
               specialize (Hl []). rewrite app_nil_r in Hl. by rewrite Hl. }
      split; [done|]. intros _. split; [by apply Hin|]. split; [by apply Hin|].
      by right.
    + split. { exists (S k), []. rewrite app_nil_r. split; [done|]. split; [by left|].
               specialize (Hl []). rewrite app_nil_r in Hl. by rewrite Hl. }
      split; [done|]. intros _. split; [by apply Hin|]. split; [by apply Hin|].
      by right.
    + split. { exists (S k), ["failed"]. split; [done|]. split; [by right; right|].
               by rewrite Hl. }
      split; [|done]. intros _. split; [by eexists|]. split; [done|].
      exists k, "failed". split; [done|]. split; [by right | done].
  - (* the try block completed *)
    cbn [fst snd]. subst jl.
    rewrite (try_shape_completed_last _ _ _ _ _ _ _ _ _ _ Hshape').
    autorewrite with trace. rewrite Hcr, Hps.
    change (persisted_statuses 0 (header_events user_id)) with ["running"].
    unfold final_status.
    cbn [app persisted_statuses commits omap list_omap creations session remote
         lookup list_lookup fmap option_fmap option_map].
    rewrite Hst.
    split; [right; by eexists|]. split; [simpl; lia|].
    split. { exists (S k), ["done"]. split; [done|]. split; [by right; left|].
             by rewrite Hl. }
    split; [|done].
    intros _. split; [by eexists|]. split; [done|].
    exists k, "done". split; [done|]. split; [by left | done].
Qed.

(** On the reliable server the job of the three components is created once
    and reaches a terminal status; on the server that refuses the commit of
    [failed] the invocation ends on that call and no terminal status is
    committed. *)
Lemma job_lifecycle_witness :
  (let r := invoke (sdk := ref_sdk three_components ∅) select_v1
                   (Some vault_A) (Some vault_B) (Some "u1") false false only_in_A in
   length (remote (session r.1)) = 1
   /\ exists n terminal,
        persisted_statuses 0 r.2 = replicate (S n) "running" ++ [terminal]
        /\ (terminal = "done" \/ terminal = "failed")
        /\ final_status r.1 = Some terminal)
  /\ (let r := invoke (sdk := ref_sdk unreachable ∅) (srv := refuses_failed)
                      select_v1 (Some vault_A) (Some vault_B) (Some "u1")
                      false false only_in_A in
      ("done" ∉ persisted_statuses 0 r.2) /\ ("failed" ∉ persisted_statuses 0 r.2)).
Proof.
  split; cbv zeta.
  - destruct (job_lifecycle (sdk := ref_sdk three_components ∅) (srv := reliable)
                select_v1 (Some vault_A) (Some vault_B) (Some "u1") false false
                only_in_A) as (_ & _ & _ & Hexact & _).
    destruct Hexact as (_ & Hlen & Hterm); [vm_compute; reflexivity|]. by split.
  - destruct (job_lifecycle (sdk := ref_sdk unreachable ∅) (srv := refuses_failed)
                select_v1 (Some vault_A) (Some vault_B) (Some "u1") false false
                only_in_A) as (_ & _ & _ & _ & Hlost).
    destruct Hlost as (H1 & H2 & _); [vm_compute; reflexivity|]. by split.
Defined.

(** ** C5: the same location on both sides *)

(** C5.  A launch event whose submitted values name a source and a target
    that [session.get] resolves to equal entities is answered with the
    failure response, not with an exception; no transfer thread is started,
    hence no job is created. *)
Theorem same_location_rejected `{sdk : SDK}
    (catalog : list Location) (event : ActionEvent)
    (values : gmap string string) (from_location to_location : string)
    (st : LocState) :
  ev_values event = Some values ->
  values !! "from_location" = Some from_location ->
  values !! "to_location" = Some to_location ->
  entity_eq (session_get catalog from_location)
            (session_get catalog to_location) = true ->
  (launch catalog event).1
    = inr (Response false "Source and target locations are the same.")
  /\ (launch catalog event).2 = []
  /\ creations (run_spawned (launch catalog event).2 st) = [].
Proof.
  intros Hvalues Hfrom Hto Heq. unfold launch, subscript.
  rewrite Hvalues, Hfrom, Hto, Heq. done.
Qed.

(** The scenario of the specification: both values are the id of
    [vault_A]. *)
Lemma same_location_rejected_witness :
  let event :=
    mkActionEvent (Some {[ "from_location" := "loc-a"; "to_location" := "loc-a" ]})
                  (Some select_v1) "u1" in
  (launch [vault_A; vault_B] event).1
    = inr (Response false "Source and target locations are the same.")
  /\ (launch [vault_A; vault_B] event).2 = []
  /\ creations (run_spawned (sdk := ref_sdk three_components ∅)
                            (launch [vault_A; vault_B] event).2 only_in_A) = [].
Proof.
  apply (same_location_rejected (sdk := ref_sdk three_components ∅)
           [vault_A; vault_B] _
           {[ "from_location" := "loc-a"; "to_location" := "loc-a" ]}
           "loc-a" "loc-a" only_in_A); reflexivity.
Defined.

(** ** C6: the empty batch *)



(** ** C7: components already in the target *)



(** ** C8: the selection resolver *)

(** The resolver in terms of the templates of [get_components_in_location]:
    one query per non-empty bucket, in the order of the templates, and the
    elements of the union of the matches. *)
Lemma resolver_queries_by_template `{sdk : SDK}
    (entities : list SelectionItem) (l : Location) (w w' : World)
    (cs : list Component) (tr : list event) :
  run (get_components_in_location entities (Some l)) w = (inr cs, w', tr) ->
  let constrained (kt : string * (list string -> string)) :=
    kt.2 (bucket_ids entities kt.1) +:+ location_constraint l in
  let issued :=
    filter (fun kt => bucket_ids entities kt.1 ≠ []) bucket_templates in
  w' = w
  /\ queries tr = constrained <$> issued
  /\ NoDup cs
  /\ forall c, c ∈ cs <->
       exists kt found, kt ∈ issued
         /\ session_query (constrained kt) = inr found /\ c ∈ found.
Proof.
  intros Hrun. cbv zeta.
  unfold get_components_in_location in Hrun.
  rewrite run_bind, run_group_entities in Hrun.
  set (g := foldl group_append ∅ entities) in *.
  set (logs := (fun s => EvLog INFO "Processing entity: {0} ({1})"
                              [entityType s; entityId s]) <$> entities) in *.
  rewrite run_bind in Hrun. unfold logger_info at 1, emit, run at 1 in Hrun.
  rewrite run_bind in Hrun.
  destruct (run (query_components (build_component_queries g) (Some l) ∅) w)
    as [[r w2] t2] eqn:Hq.
  pose proof (reads_catalog_query_components (build_component_queries g) (Some l) ∅)
    as (r0 & tr0 & _ & Hpure). rewrite Hpure in Hq. inversion Hq; subst r0 w2 tr0.
  pose proof (run_query_components l _ _ _ _ _ _ (Hpure w)) as Hspec.
  destruct r as [e|comps].
  { unfold prepend in Hrun. simpl in Hrun. by inversion Hrun. }
  destruct Hspec as [Hqs Hin].
  rewrite run_bind in Hrun. unfold logger_info, emit, mret, M_ret, run, prepend in Hrun.
  simpl in Hrun. inversion Hrun; subst cs w' tr; clear Hrun.
  assert (Hgroup : forall ty, group g ty = bucket_ids entities ty).
  { intros ty. unfold g. rewrite group_foldl. unfold group. by rewrite lookup_empty. }
  assert (Hbuild : build_component_queries g
            = (fun kt : string * (list string -> string) =>
                 kt.2 (bucket_ids entities kt.1))
              <$> filter (fun kt => bucket_ids entities kt.1 ≠ []) bucket_templates).
  { unfold build_component_queries, bucket_query, bucket_templates.
    rewrite !Hgroup. rewrite !filter_cons, filter_nil. cbn [fst snd].
    destruct (bucket_ids entities "Project") eqn:H1,
      (bucket_ids entities "TypedContext") eqn:H2,
      (bucket_ids entities "assetversion") eqn:H3,
      (bucket_ids entities "Component") eqn:H4;
      repeat (destruct (decide _) as [?|?]; try done);
      cbn [fmap list_fmap fst snd app]; rewrite ?H1, ?H2, ?H3, ?H4; try done;
      exfalso; match goal with H : ¬ _ :: _ ≠ [] |- _ => by apply H end. }
  split; [done|]. split; [|split].
  - assert (Hlogs : queries logs = []).
    { unfold logs. clear. by induction entities. }
    unfold queries in *. rewrite omap_app, Hlogs. cbn [app omap list_omap].
    rewrite omap_app, Hqs, Hbuild. cbn [omap list_omap]. rewrite app_nil_r.
    by rewrite <- list_fmap_compose.
  - apply NoDup_elements.
  - intros c. rewrite elem_of_elements, Hin, Hbuild. split.
    + intros [H|(q & found & Hq' & Hs & Hc)]; [by apply not_elem_of_empty in H|].
      apply list_elem_of_fmap in Hq' as (kt & -> & Hkt). by exists kt, found.
    + intros (kt & found & Hkt & Hs & Hc). right.
      exists (kt.2 (bucket_ids entities kt.1)), found. split; [|done].
      apply list_elem_of_fmap. by exists kt.
Qed.

(** C8.  For a selection [entities] and a source location [l]: the bucket
    of each of the four entity types ([Project], [TypedContext],
    [assetversion], [Component]) is the list of the ids of the selection
    items of that type, in selection order; the queries sent to the catalog
    are, in that order, one per non-empty bucket: the query of the bucket over
    its ids, each id between double quotes, followed by
    [ and component_locations.location_id is ] and the id of [l] between
    double quotes; the world is left as it was; and the list returned has no
    duplicates and holds exactly the components matched by one of these
    queries. *)
Theorem resolver_union `{sdk : SDK}
    (entities : list SelectionItem) (l : Location) (w w' : World)
    (cs : list Component) (tr : list event) :
  run (get_components_in_location entities (Some l)) w = (inr cs, w', tr) ->
  let quoted (id : string) :=
    String (Ascii.ascii_of_nat 34) (id +:+ String (Ascii.ascii_of_nat 34) "") in
  let id_list (ids : list string) := String.concat ", " (quoted <$> ids) in
  let ids_of (entity_type : string) :=
    entityId <$> filter (fun item => entityType item = entity_type) entities in
  let in_location :=
    " and component_locations.location_id is " +:+ quoted (loc_id l) in
  let bucket_queries :=
    [ ("Project",
       "Component where (version.asset.parent.project.id in ("
       +:+ id_list (ids_of "Project") +:+ ") or version.asset.parent.id in ("
       +:+ id_list (ids_of "Project") +:+ "))" +:+ in_location);
      ("TypedContext",
       "Component where (version.asset.parent.ancestors.id in ("
       +:+ id_list (ids_of "TypedContext") +:+ ") or version.asset.parent.id in ("
       +:+ id_list (ids_of "TypedContext") +:+ "))" +:+ in_location);
      ("assetversion",
       "Component where version_id in (" +:+ id_list (ids_of "assetversion") +:+ ")"
       +:+ in_location);
      ("Component",
       "Component where id in (" +:+ id_list (ids_of "Component") +:+ ")"
       +:+ in_location) ] in
  let issued := snd <$> filter (fun tq => ids_of tq.1 ≠ []) bucket_queries in
  w' = w
  /\ queries tr = issued
  /\ NoDup cs
  /\ forall c, c ∈ cs <->
       exists q found, q ∈ issued /\ session_query q = inr found /\ c ∈ found.
Proof.
  intros Hrun. cbv zeta.
  destruct (resolver_queries_by_template entities l w w' cs tr Hrun) as (Hw & Hq & Hnd & Hin).
  cbv zeta in Hq, Hin.
  set (issued0 := (fun kt : string * (list string -> string) =>
                     kt.2 (bucket_ids entities kt.1) +:+ location_constraint l)
                  <$> filter (fun kt => bucket_ids entities kt.1 ≠ []) bucket_templates)
    in *.
  match goal with |- _ /\ queries tr = ?i /\ _ => set (issued := i) end.
  assert (Heq : issued0 = issued).
  { unfold issued0, issued, bucket_templates, bucket_ids.
    rewrite !filter_cons, !filter_nil. cbn [fst snd].
    repeat (destruct (decide _) as [?|?]); cbn [fmap list_fmap fst snd];
      unfold project_query, context_query, version_query, component_query,
        location_constraint, dq;
      rewrite ?get_filter_string_text, ?string_app_assoc; reflexivity. }
  rewrite <- Heq. split; [done|]. split; [done|]. split; [done|].
  intros c. rewrite Hin. split.
  - intros (kt & found & Hkt & Hs & Hc). eexists _, found. split; [|done].
    unfold issued0. apply list_elem_of_fmap. by exists kt.
  - intros (q & found & Hq' & Hs & Hc).
    apply list_elem_of_fmap in Hq' as (kt & -> & Hkt). by exists kt, found.
Qed.

(** A mixed selection: two queries are sent, and the component matched by
    both, like the one matched twice by the first, is returned once. *)
Lemma resolver_union_witness :
  let r := run (sdk := ref_sdk mixed_answers ∅)
               (get_components_in_location (sdk := ref_sdk mixed_answers ∅)
                  mixed_selection (Some vault_A))
               (mkWorld (sdk := ref_sdk mixed_answers ∅) fresh_session only_in_A) in
  let q (s : string) :=
    String (Ascii.ascii_of_nat 34) (s +:+ String (Ascii.ascii_of_nat 34) "") in
  r.1.1 = inr ["c3"; "c1"; "c2"]
  /\ queries r.2
     = ["Component where version_id in (" +:+ q "v1" +:+ ", " +:+ q "v2"
        +:+ ") and component_locations.location_id is " +:+ q "loc-a";
        "Component where id in (" +:+ q "c1"
        +:+ ") and component_locations.location_id is " +:+ q "loc-a"]
  /\ NoDup ["c3"; "c1"; "c2"].
Proof.
  cbv zeta.
  set (X := run (sdk := ref_sdk mixed_answers ∅)
                (get_components_in_location (sdk := ref_sdk mixed_answers ∅)
                   mixed_selection (Some vault_A))
                (mkWorld (sdk := ref_sdk mixed_answers ∅) fresh_session only_in_A)).
  assert (Hr : X.1.1 = inr ["c3"; "c1"; "c2"]) by (vm_compute; reflexivity).
  destruct (resolver_union (sdk := ref_sdk mixed_answers ∅) mixed_selection vault_A
              (mkWorld (sdk := ref_sdk mixed_answers ∅) fresh_session only_in_A)
              X.1.2 ["c3"; "c1"; "c2"] X.2) as (_ & Hq & Hnd & _).
  - fold X. clearbody X. destruct X as [[r w'] t]. simpl in Hr. by subst r.
  - split; [exact Hr|]. split; [|exact Hnd]. rewrite Hq. vm_compute. reflexivity.
Defined.

(** ** C9: the form needs two eligible locations *)



(** ** C10: the hostname gate of the configure-location hooks *)

(** C10, as stated, at two inputs.  When [socket.gethostname()] raises, the
    patched publish hands a configure-location event on without a hostname.
    And on a workstation without any S3 setting, the S3 hook receives an
    event without a hostname and registers nothing. *)
Lemma stamp_and_registration_can_be_skipped :
  (publish_with_hostname (py := ascii_text) nameless_workstation plain_event
   = plain_event
   /\ default ∅ (hub_source (publish_with_hostname (py := ascii_text)
                               nameless_workstation plain_event))
        !! "hostname" = None)
  /\ (default ∅ (hub_source plain_event) !! "hostname" = None
      /\ configure_s3_location (py := ascii_text) bare_workstation plain_event ∅
         = (None, ∅)).
Proof. vm_compute. repeat split; reflexivity. Qed.

(** C10, amended.  Let [raw] be the hostname in the source of the event
    (empty when absent).  Each hook runs its registration routine when [raw]
    is empty or equal, once both are lower-cased by [str.lower()], to the
    current hostname as the hook computes it, and returns without an
    exception and with the session untouched otherwise.  The routine of the
    disk/user hook is [session_add_user_location] on the setup given or,
    without one, on what [load_location_config] makes of the YAML file when
    the file exists; the routine of the S3 hook is
    [session_add_s3_location].  A routine registers the locations whose
    configuration is complete, possibly none, and what it raises the hook
    raises.  The patched publish leaves events of other topics alone; on a
    configure-location event it sets the hostname of the source to the
    lower-cased result of [socket.gethostname()], keeping the other fields,
    and both hooks of the same machine then run their routine on the stamped
    event; when [socket.gethostname()] raises it hands the event on
    unchanged. *)
Theorem hostname_gate {py : PyString} (host : Host) (config_file : option pyval)
    (event : HubEvent) (location_setup : option (list (pykey * pyval)))
    (session : ApiSession) :
  let raw := default "" (default ∅ (hub_source event) !! "hostname") in
  let passes (current : string) := raw = "" \/ lower raw = lower current in
  let user_routine :=
    match location_setup with
    | Some setup => session_add_user_location host 0 setup session
    | None =>
        match config_file with
        | None => (None, session)
        | Some config =>
            match load_location_config config with
            | inl e => (Some e, session)
            | inr setup =>
                session_add_user_location host 0
                  ((fun entry => (KStr entry.1, entry.2)) <$> setup) session
            end
        end
    end in
  let s3_host := default (environ_hostname host) (socket_gethostname host) in
  (passes (get_hostname host) ->
     configure_locations host config_file event location_setup session = user_routine)
  /\ (~ passes (get_hostname host) ->
      configure_locations host config_file event location_setup session
      = (None, session))
  /\ (passes s3_host ->
      configure_s3_location host event session = session_add_s3_location host session)
  /\ (~ passes s3_host -> configure_s3_location host event session = (None, session))
  /\ (hub_topic event = configure_location_topic ->
      match socket_gethostname host with
      | Some name =>
          let stamped := publish_with_hostname host event in
          hub_topic stamped = hub_topic event
          /\ default ∅ (hub_source stamped) !! "hostname" = Some (lower name)
          /\ (forall key, key ≠ "hostname" ->
                default ∅ (hub_source stamped) !! key
                = default ∅ (hub_source event) !! key)
          /\ configure_locations host config_file stamped location_setup session
             = user_routine
          /\ configure_s3_location host stamped session
             = session_add_s3_location host session
      | None => publish_with_hostname host event = event
      end)
  /\ (hub_topic event ≠ configure_location_topic ->
      publish_with_hostname host event = event).
Proof.
  cbv zeta.
  assert (Hgate : forall ev current,
    let raw := default "" (default ∅ (hub_source ev) !! "hostname") in
    skips (event_hostname ev) (lower current) = false
    <-> raw = "" \/ lower raw = lower current).
  { intros ev current. cbv zeta. rewrite skips_false. unfold event_hostname.
    by rewrite lower_empty. }
  assert (Hs3 : s3_current_hostname host
                = lower (default (environ_hostname host) (socket_gethostname host))).
  { unfold s3_current_hostname. by destruct (socket_gethostname host). }
  split; [|split; [|split; [|split; [|split]]]].
  - intros Hp. unfold configure_locations.
    apply Hgate in Hp. by rewrite Hp.
  - intros Hp. unfold configure_locations.
    destruct (skips _ _) eqn:Hsk; [done|]. by apply Hgate in Hsk.
  - intros Hp. unfold configure_s3_location. rewrite Hs3.
    apply Hgate in Hp. by rewrite Hp.
  - intros Hp. unfold configure_s3_location. rewrite Hs3.
    destruct (skips _ _) eqn:Hsk; [done|]. by apply Hgate in Hsk.
  - intros Htopic. destruct (socket_gethostname host) as [name|] eqn:Hname.
    + assert (Hpub : publish_with_hostname host event
                = mkHubEvent (hub_topic event)
                    (Some (<["hostname" := lower name]> (default ∅ (hub_source event))))).
      { unfold publish_with_hostname. rewrite Hname. by destruct (decide _). }
      rewrite Hpub. cbn [hub_topic hub_source default from_option id].
      split; [done|]. split; [by rewrite lookup_insert_eq|].
      split; [intros key Hkey; by rewrite lookup_insert_ne|].
      assert (Hstamped : forall current, lower current = lower name ->
        skips (event_hostname
                 (mkHubEvent (hub_topic event)
                    (Some (<["hostname" := lower name]> (default ∅ (hub_source event))))))
              (lower current) = false).
      { intros current Hcur. apply skips_false. right. unfold event_hostname.
        cbn [hub_source default from_option id]. rewrite lookup_insert_eq.
        cbn [default from_option id]. by rewrite lower_idemp. }
      split.
      * unfold configure_locations. rewrite Hstamped; [done|].
        unfold get_hostname. by rewrite Hname.
      * unfold configure_s3_location. rewrite Hs3.
        cbn [default from_option id]. by rewrite Hstamped.
    + unfold publish_with_hostname. rewrite Hname. by destruct (decide _).
  - intros Htopic. unfold publish_with_hostname. by destruct (decide _).
Qed.

(** On the workstation [WS-01]: an event without hostname and an event
    stamped [ws-01] are let through, an event stamped [ws-02] is not; the
    patched publish stamps [ws-01] and leaves a launch event alone. *)
Lemma hostname_gate_witness :
  configure_s3_location (py := ascii_text) workstation plain_event ∅
    = session_add_s3_location (py := ascii_text) workstation ∅
  /\ configure_s3_location (py := ascii_text) workstation foreign_event ∅ = (None, ∅)
  /\ configure_locations (py := ascii_text) workstation None local_event
                         (Some disk_setup) ∅
     = session_add_user_location (py := ascii_text) workstation 0 disk_setup ∅
  /\ configure_locations (py := ascii_text) workstation None foreign_event
                         (Some disk_setup) ∅ = (None, ∅)
  /\ default ∅ (hub_source (publish_with_hostname (py := ascii_text)
                              workstation plain_event))
       !! "hostname" = Some "ws-01"
  /\ publish_with_hostname (py := ascii_text) workstation
                           (mkHubEvent "ftrack.action.launch" None)
     = mkHubEvent "ftrack.action.launch" None.
Proof.
  split; [|split; [|split; [|split; [|split]]]].
  - apply (proj1 (proj2 (proj2 (hostname_gate (py := ascii_text) workstation None
                                  plain_event (Some disk_setup) ∅)))).
    left. reflexivity.
  - apply (proj1 (proj2 (proj2 (proj2 (hostname_gate (py := ascii_text) workstation
                                         None foreign_event (Some disk_setup) ∅))))).
    intros [H|H]; vm_compute in H; discriminate.
  - apply (proj1 (hostname_gate (py := ascii_text) workstation None local_event
                    (Some disk_setup) ∅)).
    right. reflexivity.
  - apply (proj1 (proj2 (hostname_gate (py := ascii_text) workstation None
                           foreign_event (Some disk_setup) ∅))).
    intros [H|H]; vm_compute in H; discriminate.
  - destruct (proj1 (proj2 (proj2 (proj2 (proj2
               (hostname_gate (py := ascii_text) workstation None plain_event
                              (Some disk_setup) ∅)))))
               eq_refl) as (_ & Hstamp & _).
    exact Hstamp.
  - apply (proj2 (proj2 (proj2 (proj2 (proj2
             (hostname_gate (py := ascii_text) workstation None
                            (mkHubEvent "ftrack.action.launch" None)
                            (Some disk_setup) ∅)))))).
    discriminate.
Defined.


(** * Further properties of the handlers *)

(** ** The transfer engine *)

Section EngineExtras.
Context `{sdk : SDK} {srv : Server}.

(** X1.  For every server, the job ends [done] exactly when the resolver
    returned, every resolved component was tried, once and in order, by an
    attempt that returned or raised an exception absorbed under the flags,
    and no session call raised.  An invocation that does not end on a session
    call that raises ends [done] or [failed]; one that does leaves the job
    [running] or never committed. *)
Theorem done_iff_every_attempt_survived
    (entities : list SelectionItem) (src tgt : option Location)
    (user_id : option string) (ignore_missing ignore_errors : bool) (st : LocState) :
  let r := invoke entities src tgt user_id ignore_missing ignore_errors st in
  (final_status r.1 = Some "done" <->
     exists comps, resolved entities src st = inr comps
       /\ (copy_attempts r.2).*1 = comps
       /\ Forall (nonfatal ignore_missing ignore_errors) (copy_attempts r.2)
       /\ session_errors r.2 = [])
  /\ (ends_on_session_error r.2 = false ->
      final_status r.1 = Some "done" \/ final_status r.1 = Some "failed")
  /\ (ends_on_session_error r.2 = true ->
      final_status r.1 = Some "running" \/ final_status r.1 = None).
Proof.
  cbv zeta.
  pose proof (invoke_status_cases entities src tgt user_id ignore_missing
                ignore_errors st) as Hcases. cbv zeta in Hcases.
  split; [|split].
  - split.
    + intros Hdone.
      assert (Hno : session_errors
                (invoke entities src tgt user_id ignore_missing ignore_errors st).2 = []).
      { destruct Hcases as [(_ & H & _)|[(H & _)|([H|H] & _)]]; congruence. }
      destruct (shape_done_iff _ _ _ _ _ _ _ _ _
                  (invoke_undisturbed _ _ _ _ _ _ _ Hno)) as [Hiff _].
      apply Hiff in Hdone as (comps & H1 & H2 & H3). by exists comps.
    + intros (comps & H1 & H2 & H3 & Hno).
      destruct (shape_done_iff _ _ _ _ _ _ _ _ _
                  (invoke_undisturbed _ _ _ _ _ _ _ Hno)) as [Hiff _].
      apply Hiff. by exists comps.
  - intros Hends.
    destruct Hcases as [(H & _)|[(H & _)|(_ & H & _)]]; [by left | by right | congruence].
  - intros Hends.
    destruct Hcases as [(_ & _ & H & _)|[(_ & H & _)|(H & _)]]; [congruence.. | done].
Qed.

End EngineExtras.

Section FlagExtras.
Context `{sdk : SDK}.

Lemma run_copy_component_tolerant src tgt m1 e1 m2 e2 c w w' tr :
  more_tolerant m1 e1 m2 e2 ->
  run (copy_component src tgt m1 e1 c) w = (inr tt, w', tr) ->
  run (copy_component src tgt m2 e2 c) w = (inr tt, w', tr).
Proof.
  intros Htol. destruct tgt as [t|]; [|done].
  rewrite !run_copy_component.
  destruct (location_add_component t c src (locations_state w)) as [[e|] st1]; [|done].
  destruct (fatal m1 e1 e) eqn:H1; [done|].
  destruct (fatal m2 e2 e) eqn:H2; [|done].
  apply Htol in H2. congruence.
Qed.

Lemma run_loop_tolerant src tgt m1 e1 m2 e2 job amount comps :
  more_tolerant m1 e1 m2 e2 ->
  forall index w w' tr,
  run (transfer_loop src tgt m1 e1 job amount index comps) w = (inr tt, w', tr) ->
  run (transfer_loop src tgt m2 e2 job amount index comps) w = (inr tt, w', tr).
Proof.
  intros Htol. induction comps as [|c rest IH]; intros index w w' tr Hrun; [done|].
  rewrite run_loop_step in *. cbv zeta in *.
  destruct (run (copy_component src tgt m1 e1 c) _) as [[[e|[]] w2] t2] eqn:Hcopy.
  { unfold prepend in Hrun. simpl in Hrun. by inversion Hrun. }
  rewrite (run_copy_component_tolerant _ _ _ _ _ _ _ _ _ _ Htol Hcopy).
  destruct (run (transfer_loop src tgt m1 e1 job amount (S index) rest) w2)
    as [[r3 w3] t3] eqn:Hrest.
  destruct r3 as [e|[]].
  { unfold prepend in Hrun. simpl in Hrun. by inversion Hrun. }
  by rewrite (IH _ _ _ _ Hrest).
Qed.

Lemma run_try_block_tolerant es src tgt m1 e1 m2 e2 job w w' tr :
  more_tolerant m1 e1 m2 e2 ->
  run (transfer_try_block es src tgt m1 e1 job) w = (inr tt, w', tr) ->
  run (transfer_try_block es src tgt m2 e2 job) w = (inr tt, w', tr).
Proof.
  intros Htol. unfold transfer_try_block. rewrite !run_bind.
  destruct (run (get_components_in_location es src) w) as [[[e|comps] w1] t1]; [done|].
  cbv zeta. rewrite !run_bind. unfold logger_info at 1 3, emit, run at 1 3.
  rewrite !run_bind.
  destruct (run (transfer_loop src tgt m1 e1 job (length comps) 1 comps) w1)
    as [[[e|[]] w2] t2] eqn:Hloop.
  { unfold prepend. simpl. intros H. by inversion H. }
  by rewrite (run_loop_tolerant _ _ _ _ _ _ _ _ _ Htol _ _ _ _ Hloop).
Qed.


Lemma run_copy_component_ext src tgt m1 e1 m2 e2 c w :
  (forall e, fatal m1 e1 e = fatal m2 e2 e) ->
  run (copy_component src tgt m1 e1 c) w = run (copy_component src tgt m2 e2 c) w.
Proof.
  intros Heq. destruct tgt as [t|]; [|done]. rewrite !run_copy_component.
  destruct (location_add_component t c src (locations_state w)) as [[e|] st1]; [|done].
  by rewrite Heq.
Qed.

Lemma run_loop_ext src tgt m1 e1 m2 e2 job amount comps :
  (forall e, fatal m1 e1 e = fatal m2 e2 e) ->
  forall index w,
  run (transfer_loop src tgt m1 e1 job amount index comps) w
  = run (transfer_loop src tgt m2 e2 job amount index comps) w.
Proof.
  intros Heq. induction comps as [|c rest IH]; intros index w; [done|].
  rewrite !run_loop_step. cbv zeta.
  rewrite (run_copy_component_ext _ _ _ _ _ _ _ _ Heq).
  destruct (run (copy_component src tgt m2 e2 c) _) as [[[e|[]] w2] t2]; [done|].
  by rewrite IH.
Qed.

Lemma run_try_block_ext es src tgt m1 e1 m2 e2 job w :
  (forall e, fatal m1 e1 e = fatal m2 e2 e) ->
  run (transfer_try_block es src tgt m1 e1 job) w
  = run (transfer_try_block es src tgt m2 e2 job) w.
Proof.
  intros Heq. unfold transfer_try_block. rewrite !run_bind.
  destruct (run (get_components_in_location es src) w) as [[[e|comps] w1] t1]; [done|].
  cbv zeta. rewrite !run_bind. unfold logger_info at 1 3, emit, run at 1 3.
  rewrite !run_bind. by rewrite (run_loop_ext _ _ _ _ _ _ _ _ _ Heq).
Qed.

(** X3.  With [ignore_location_errors] set, [ignore_component_not_in_location]
    makes no difference. *)
Theorem ignore_errors_subsumes_ignore_missing
    (entities : list SelectionItem) (src tgt : option Location)
    (user_id : option string) (ignore_missing ignore_missing' : bool) (st : LocState) :
  invoke entities src tgt user_id ignore_missing true st
  = invoke entities src tgt user_id ignore_missing' true st.
Proof.
  unfold invoke. rewrite !run_transfer_components.
  rewrite (run_try_block_ext entities src tgt ignore_missing true ignore_missing' true);
    [done|].
  intros e. destruct e; simpl; try done. by rewrite !orb_true_r.
Qed.

(** X2.  A run that ends [done] is not changed by setting more flags. *)
Theorem more_flags_keep_done_runs
    (entities : list SelectionItem) (src tgt : option Location)
    (user_id : option string) (m1 e1 m2 e2 : bool) (st : LocState) :
  final_status (invoke entities src tgt user_id m1 e1 st).1 = Some "done" ->
  (m1 = true -> m2 = true) ->
  (e1 = true -> e2 = true) ->
  invoke entities src tgt user_id m2 e2 st = invoke entities src tgt user_id m1 e1 st.
Proof.
  intros Hdone Hm He.
  assert (Htol : more_tolerant m1 e1 m2 e2).
  { intros e. destruct e, m1, e1, m2, e2; simpl; try done;
      (by specialize (Hm eq_refl)) || (by specialize (He eq_refl)). }
  unfold invoke in *. rewrite !run_transfer_components in *.
  destruct (run (transfer_try_block entities src tgt m1 e1 0) _)
    as [[[e|[]] w1] t1] eqn:Htry.
  - exfalso. unfold prepend, final_status in Hdone. simpl in Hdone.
    rewrite list_lookup_alter in Hdone.
    by destruct (remote (session w1) !! 0).
  - by rewrite (run_try_block_tolerant _ _ _ _ _ _ _ _ _ _ _ Htol Htry).
Qed.

End FlagExtras.

Section StoreExtras.
Context `{sdk : SDK} {srv : Server}.

(** X4.  For every server: every state committed by an invocation holds
    exactly one job, owned by the requesting user; the committed store at the
    end is the one committed last; nothing is left uncommitted unless the
    invocation ends on a session call that raises; [session.rollback()] is
    called once when the job ends [failed] and never when it ends [done]; and
    the job committed as [failed] is the job as committed just before with
    its status changed, so a description whose commit raised is dropped by
    the rollback. *)
Theorem job_store_invariant
    (entities : list SelectionItem) (src tgt : option Location)
    (user_id : option string) (ignore_missing ignore_errors : bool) (st : LocState) :
  let r := invoke entities src tgt user_id ignore_missing ignore_errors st in
  Forall (fun p => exists j, p = [j] /\ job_user_id j = user_id) (commits r.2)
  /\ remote (session r.1) = default [] (last (commits r.2))
  /\ (ends_on_session_error r.2 = false -> local (session r.1) = remote (session r.1))
  /\ (final_status r.1 = Some "failed" -> length (rollbacks r.2) = 1)
  /\ (final_status r.1 = Some "done" -> rollbacks r.2 = [])
  /\ (forall before j, commits r.2 = before ++ [[j]] -> job_status j = "failed" ->
        exists j', last before = Some [j'] /\ j = set_job_status "failed" j').
Proof.
  cbv zeta.
  pose proof (invoke_status_cases entities src tgt user_id ignore_missing
                ignore_errors st) as Hcases. cbv zeta in Hcases.
  assert (Hrest :
    (ends_on_session_error
       (invoke entities src tgt user_id ignore_missing ignore_errors st).2 = false ->
     local (session (invoke entities src tgt user_id ignore_missing ignore_errors st).1)
     = remote (session
                 (invoke entities src tgt user_id ignore_missing ignore_errors st).1))
    /\ (final_status
          (invoke entities src tgt user_id ignore_missing ignore_errors st).1
        = Some "failed" ->
        length (rollbacks
                  (invoke entities src tgt user_id ignore_missing ignore_errors st).2)
        = 1)
    /\ (final_status
          (invoke entities src tgt user_id ignore_missing ignore_errors st).1
        = Some "done" ->
        rollbacks (invoke entities src tgt user_id ignore_missing ignore_errors st).2
        = [])).
  { destruct Hcases as [(H1 & _ & H2 & H3 & H4)|[(H1 & H2 & H3 & H4)|([H1|H1] & H2 & H3)]];
      (split; [|split]); intros; congruence. }
  destruct Hrest as (Hr1 & Hr2 & Hr3).
  cut (Forall (fun p => exists j, p = [j] /\ job_user_id j = user_id)
         (commits (invoke entities src tgt user_id ignore_missing ignore_errors st).2)
       /\ remote (session
                    (invoke entities src tgt user_id ignore_missing ignore_errors st).1)
          = default [] (last (commits
               (invoke entities src tgt user_id ignore_missing ignore_errors st).2))
       /\ (forall before j,
             commits (invoke entities src tgt user_id ignore_missing ignore_errors st).2
             = before ++ [[j]] -> job_status j = "failed" ->
             exists j', last before = Some [j'] /\ j = set_job_status "failed" j')).
  { intros (H1 & H2 & H3). by repeat split. }
  clear Hr1 Hr2 Hr3 Hcases.
  pose proof (invoke_any entities src tgt user_id ignore_missing ignore_errors st) as H.
  destruct (session_raises OpSession).
  { rewrite H. cbn. split; [done|]. split; [done|]. by intros [|??] ? ?. }
  destruct (session_raises (OpCreate _)).
  { rewrite H. cbn. split; [done|]. split; [done|]. by intros [|??] ? ?. }
  destruct (session_raises (OpCommit _)).
  { rewrite H. cbn. split; [done|]. split; [done|]. by intros [|??] ? ?. }
  destruct H as (r & w1 & t1 & _ & Hshape & ->).
  apply try_shape_store in Hshape
    as (Hcr & Hrb & k & jl & jr & Hs & Hul & Hur & Hps & Hst & Heq & Hcs & Hlast).
  destruct w1 as [s1 st1]. cbn [session] in Hs. subst s1.
  assert (Hrun : forall x, x ∈ "running" :: replicate k "running" -> x = "running").
  { intros x [?|[? _]%elem_of_replicate]%elem_of_cons; done. }
  destruct r as [e|[]].
  - unfold cleanup. cbn [session remote locations_state alter list_alter].
    destruct (session_raises OpRollback) as [e1|];
      [|destruct (session_raises (OpCommit _)) as [e2|]];
      cbn [fst snd]; rewrite !commits_app, commits_header;
      cbn [app commits omap list_omap session remote].
    + rewrite app_nil_r, Hlast. split; [constructor; [by eexists|done]|].
      split; [done|]. intros before j Hc Hf.
      pose proof (persisted_statuses_snoc
                    (header_events user_id ++ t1) before j) as Hl.
      rewrite commits_app, commits_header in Hl. specialize (Hl Hc).
      rewrite persisted_statuses_app, Hps, app_nil_r in Hl.
      apply last_Some_elem_of, Hrun in Hl. congruence.
    + rewrite app_nil_r, Hlast. split; [constructor; [by eexists|done]|].
      split; [done|]. intros before j Hc Hf.
      pose proof (persisted_statuses_snoc
                    (header_events user_id ++ t1) before j) as Hl.
      rewrite commits_app, commits_header in Hl. specialize (Hl Hc).
      rewrite persisted_statuses_app, Hps, app_nil_r in Hl.
      apply last_Some_elem_of, Hrun in Hl. congruence.
    + split.
      { constructor; [by eexists|]. apply Forall_app. split; [done|].
        repeat constructor. by eexists. }
      split. { by rewrite app_comm_cons, last_snoc. }
      intros before j Hc Hf. rewrite app_comm_cons in Hc.
      apply app_inj_tail in Hc as [<- Hj]. inversion Hj; subst j.
      by exists jr.
  - cbn [fst snd]. subst jl. rewrite !commits_app, commits_header.
    cbn [app session remote]. rewrite Hlast.
    split; [constructor; [by eexists|done]|]. split; [done|].
    intros before j Hc Hf.
    pose proof (persisted_statuses_snoc (header_events user_id ++ t1) before j) as Hl.
    rewrite commits_app, commits_header in Hl. specialize (Hl Hc).
    rewrite persisted_statuses_app, Hps in Hl.
    change (persisted_statuses 0 (header_events user_id)) with ["running"] in Hl.
    cbn [app] in Hl. rewrite app_comm_cons, last_snoc in Hl. congruence.
Qed.

End StoreExtras.

(** ** The resolver *)

Section ResolverExtras.
Context `{sdk : SDK}.

Lemma groups_of_selection es ty :
  group (foldl group_append ∅ es) ty = bucket_ids es ty.
Proof. rewrite group_foldl. unfold group. by rewrite lookup_empty. Qed.

Lemma build_component_queries_buckets es :
  build_component_queries (foldl group_append ∅ es)
  = (fun kt : string * (list string -> string) => kt.2 (bucket_ids es kt.1))
    <$> filter (fun kt => bucket_ids es kt.1 ≠ []) bucket_templates.
Proof.
  unfold build_component_queries, bucket_query, bucket_templates.
  rewrite !groups_of_selection. rewrite !filter_cons, filter_nil. cbn [fst snd].
  destruct (bucket_ids es "Project") eqn:H1,
    (bucket_ids es "TypedContext") eqn:H2,
    (bucket_ids es "assetversion") eqn:H3,
    (bucket_ids es "Component") eqn:H4;
    repeat (destruct (decide _) as [?|?]; try done);
    cbn [fmap list_fmap fst snd app]; rewrite ?H1, ?H2, ?H3, ?H4; try done;
    exfalso; match goal with H : ¬ _ :: _ ≠ [] |- _ => by apply H end.
Qed.

(** The resolver, unfolded down to its query loop. *)
Lemma run_resolver_queries es location w :
  run (get_components_in_location es location) w =
  let logs := (fun s => EvLog INFO "Processing entity: {0} ({1})"
                              [entityType s; entityId s]) <$> es in
  let g := foldl group_append ∅ es in
  match run (query_components (build_component_queries g) location ∅) w with
  | (inl e, w1, t) =>
      (inl e, w1, logs ++ [EvLog INFO "Entity groups: {0}" [show_groups g]] ++ t)
  | (inr comps, w1, t) =>
      (inr (elements comps), w1,
       logs ++ [EvLog INFO "Entity groups: {0}" [show_groups g]] ++ t
       ++ [EvLog INFO "Found {0} components in selection" [pretty (size comps)]])
  end.
Proof.
  unfold get_components_in_location. rewrite run_bind, run_group_entities.
  rewrite run_bind. unfold logger_info at 1, emit, run at 1. rewrite run_bind.
  destruct (run (query_components _ location ∅) w) as [[[e|comps] w1] t]; [done|].
  rewrite run_bind. unfold logger_info, emit, mret, M_ret, run, prepend. simpl.
  by rewrite <- ?app_assoc.
Qed.

Lemma bucket_ids_supported es ty :
  ty ∈ SUPPORTED_ENTITY_TYPES ->
  bucket_ids (filter (fun s => entityType s ∈ SUPPORTED_ENTITY_TYPES) es) ty
  = bucket_ids es ty.
Proof.
  intros Hty. unfold bucket_ids. f_equal.
  induction es as [|s es IH]; [done|].
  rewrite !filter_cons.
  destruct (decide (entityType s ∈ SUPPORTED_ENTITY_TYPES)) as [Hs|Hs].
  - rewrite filter_cons. destruct (decide (entityType s = ty)); by rewrite IH.
  - destruct (decide (entityType s = ty)) as [Heq|]; [|done].
    rewrite Heq in Hs. done.
Qed.

Lemma build_component_queries_supported es :
  build_component_queries
    (foldl group_append ∅ (filter (fun s => entityType s ∈ SUPPORTED_ENTITY_TYPES) es))
  = build_component_queries (foldl group_append ∅ es).
Proof.
  rewrite !build_component_queries_buckets. unfold bucket_templates.
  rewrite !filter_cons, !filter_nil. cbn [fst snd].
  rewrite !bucket_ids_supported by (unfold SUPPORTED_ENTITY_TYPES; set_solver).
  repeat (destruct (decide _)); cbn [fmap list_fmap fst snd];
    by rewrite ?bucket_ids_supported by (unfold SUPPORTED_ENTITY_TYPES; set_solver).
Qed.

(** X5.  Selection items whose entity type is none of the four supported
    ones do not change what the resolver returns; a selection made of such
    items only (the empty one included) resolves to no component without a
    single query, whatever the location. *)
Theorem unsupported_items_are_ignored
    (entities : list SelectionItem) (location : option Location) (st : LocState) :
  let supported s := entityType s ∈ SUPPORTED_ENTITY_TYPES in
  resolved (filter supported entities) location st = resolved entities location st
  /\ (Forall (fun s => ~ supported s) entities ->
      forall w,
        (run (get_components_in_location entities location) w).1 = (inr [], w)
        /\ queries (run (get_components_in_location entities location) w).2 = []).
Proof.
  cbv zeta. split.
  - unfold resolved. rewrite !run_resolver_queries. cbv zeta.
    rewrite build_component_queries_supported.
    by destruct (run (query_components _ location ∅) _) as [[[e|comps] w1] t].
  - intros Hnone w. rewrite run_resolver_queries. cbv zeta.
    rewrite <- build_component_queries_supported.
    replace (filter _ entities) with (@nil SelectionItem).
    2:{ symmetry. induction Hnone as [|s es Hs _ IH]; [done|].
        rewrite filter_cons. by destruct (decide _). }
    change (build_component_queries (foldl group_append ∅ [])) with (@nil string).
    cbn [query_components]. unfold mret, M_ret, run. cbn [fst snd].
    split; [done|].
    unfold queries. rewrite omap_app. cbn [omap list_omap]. rewrite app_nil_r.
    clear. by induction entities.
Qed.


Lemma queries_app t1 t2 : queries (t1 ++ t2) = queries t1 ++ queries t2.
Proof. apply omap_app. Qed.

Lemma queries_processing_logs (es : list SelectionItem) :
  queries ((fun s => EvLog INFO "Processing entity: {0} ({1})"
                           [entityType s; entityId s]) <$> es) = [].
Proof. by induction es. Qed.

Lemma build_component_queries_nonempty es :
  Exists (fun s => entityType s ∈ SUPPORTED_ENTITY_TYPES) es ->
  build_component_queries (foldl group_append ∅ es) ≠ [].
Proof.
  intros (s & Hs & Hty)%Exists_exists.
  assert (Hb : bucket_ids es (entityType s) ≠ []).
  { unfold bucket_ids. intros Hnil%fmap_nil_inv.
    assert (s ∈ filter (fun s0 => entityType s0 = entityType s) es) as Hin
      by (by apply list_elem_of_filter).
    rewrite Hnil in Hin. by apply elem_of_nil in Hin. }
  rewrite build_component_queries_buckets. intros Hnil%fmap_nil_inv.
  unfold SUPPORTED_ENTITY_TYPES in Hty.
  assert (exists template, (entityType s, template) ∈ bucket_templates) as [template Hin].
  { unfold bucket_templates.
    apply elem_of_cons in Hty as [Hty|Hty];
      [exists version_query; rewrite Hty;
       repeat first [apply list_elem_of_here | apply list_elem_of_further]|].
    apply elem_of_cons in Hty as [Hty|Hty];
      [exists context_query; rewrite Hty;
       repeat first [apply list_elem_of_here | apply list_elem_of_further]|].
    apply elem_of_cons in Hty as [Hty|Hty];
      [exists project_query; rewrite Hty;
       repeat first [apply list_elem_of_here | apply list_elem_of_further]|].
    apply elem_of_cons in Hty as [Hty|Hty];
      [exists component_query; rewrite Hty;
       repeat first [apply list_elem_of_here | apply list_elem_of_further]|].
    by apply elem_of_nil in Hty. }
  assert ((entityType s, template)
          ∈ filter (fun kt : string * (list string -> string) =>
                      bucket_ids es kt.1 ≠ []) bucket_templates) as Hf
    by (by apply list_elem_of_filter).
  rewrite Hnil in Hf. by apply elem_of_nil in Hf.
Qed.


End ResolverExtras.

(** ** The action handlers *)

Section HandlerExtras.

(** X7.  [discover] never raises, and offers the action exactly for a selection
    of one item of a supported type. *)
Theorem discover_gate (event : ActionEvent) :
  (exists answer, discover event = inr answer)
  /\ (forall items, discover event = inr (Some items) <->
        items = [mkActionItem "Transfer Components [new]"
                              "Transfer components between locations."
                              "transfer.components"]
        /\ exists s, default [] (ev_selection event) = [s]
                     /\ entityType s ∈ SUPPORTED_ENTITY_TYPES)
  /\ (forall ty, ty ∈ SUPPORTED_ENTITY_TYPES <-> ty ∈ bucket_templates.*1).
Proof.
  unfold discover. split; [|split].
  - destruct (default [] (ev_selection event)) as [|s [|s' l]]; simpl; try by eexists.
    destruct (bool_decide _); by eexists.
  - intros items.
    destruct (default [] (ev_selection event)) as [|s [|s' l]]; simpl.
    + split; [done|]. by intros (_ & s & Hs & _).
    + destruct (bool_decide_reflect (entityType s ∉ SUPPORTED_ENTITY_TYPES)) as [Hs|Hs].
      * split; [done|]. intros (_ & s0 & Hs0 & Hty). by injection Hs0 as <-.
      * split.
        -- intros H. injection H as <-. split; [done|]. exists s. split; [done|].
           by apply dec_stable.
        -- by intros (-> & _).
    + split; [done|]. by intros (_ & s0 & Hs0 & _).
  - intros ty. unfold SUPPORTED_ENTITY_TYPES, bucket_templates. simpl.
    rewrite !elem_of_cons, !elem_of_nil. tauto.
Qed.

Lemma session_get_unique (catalog : list Location) (l : Location) :
  NoDup (loc_id <$> catalog) -> l ∈ catalog -> session_get catalog (loc_id l) = Some l.
Proof.
  unfold session_get. induction catalog as [|x xs IH]; intros Hnd Hin.
  - by apply elem_of_nil in Hin.
  - rewrite fmap_cons in Hnd. apply NoDup_cons in Hnd as [Hx Hnd].
    simpl. apply elem_of_cons in Hin as [->|Hin].
    + by rewrite bool_decide_eq_true_2.
    + rewrite bool_decide_eq_false_2; [by apply IH|].
      intros Heq. apply Hx. rewrite Heq. apply list_elem_of_fmap. by exists l.
Qed.

Lemma session_get_id (catalog : list Location) (id : string) (l : Location) :
  session_get catalog id = Some l -> loc_id l = id /\ l ∈ catalog.
Proof.
  unfold session_get. intros H. apply find_some in H as [Hin Hid].
  apply bool_decide_eq_true in Hid. split; [done|]. by apply list_elem_of_In.
Qed.

Lemma insert_by_priority_perm x l : insert_by_priority x l ≡ₚ x :: l.
Proof.
  induction l as [|y l IH]; [done|]. simpl.
  destruct (loc_priority x <=? loc_priority y)%Z; [done|].
  rewrite IH. apply Permutation_swap.
Qed.

Lemma sorted_by_priority_perm l : sorted_by_priority l ≡ₚ l.
Proof.
  induction l as [|x l IH]; [done|]. unfold sorted_by_priority in *. simpl.
  by rewrite insert_by_priority_perm, IH.
Qed.

Lemma NoDup_fmap_filter {A B} (f : A -> B) (P : A -> Prop) `{!forall x, Decision (P x)}
    (l : list A) :
  NoDup (f <$> l) -> NoDup (f <$> filter P l).
Proof.
  induction l as [|x l IH]; [done|]. rewrite fmap_cons. intros [Hx Hnd]%NoDup_cons.
  rewrite filter_cons. destruct (decide (P x)); [|by apply IH].
  rewrite fmap_cons. apply NoDup_cons. split; [|by apply IH].
  intros (y & Hy & Hin)%list_elem_of_fmap. apply Hx.
  apply list_elem_of_fmap. exists y. split; [done|].
  by apply list_elem_of_filter in Hin as [_ ?].
Qed.

Lemma eligible_ids_unique catalog :
  NoDup (loc_id <$> catalog) -> NoDup (loc_id <$> eligible_locations catalog).
Proof.
  intros Hnd. unfold eligible_locations. apply NoDup_fmap_filter.
  rewrite sorted_by_priority_perm. by apply NoDup_fmap_filter.
Qed.


(** X9.  [launch] starts at most one transfer, exactly when it answers with
    success, and never between a location and itself. *)
Theorem launch_starts_one_transfer (catalog : list Location) (event : ActionEvent) :
  let r := launch catalog event in
  length r.2 <= 1
  /\ (r.1 = inr (Response true "Transferring components...") <-> r.2 ≠ [])
  /\ (forall req, req ∈ r.2 ->
        entity_eq (req_source req) (req_target req) = false
        /\ req_user_id req = Some (ev_user_id event)
        /\ ev_selection event = Some (req_entities req)).
Proof.
  cbv zeta. unfold launch.
  destruct (ev_values event) as [values|].
  - destruct (subscript values "from_location") as [e|from_location];
      [by (split; [|split]); [simpl; lia| |intros req Hreq; by apply elem_of_nil in Hreq]|].
    destruct (subscript values "to_location") as [e|to_location];
      [by (split; [|split]); [simpl; lia| |intros req Hreq; by apply elem_of_nil in Hreq]|].
    destruct (entity_eq _ _) eqn:Heq;
      [by (split; [|split]); [simpl; lia| |intros req Hreq; by apply elem_of_nil in Hreq]|].
    destruct (ev_selection event) as [entities|];
      [|by (split; [|split]); [simpl; lia| |intros req Hreq; by apply elem_of_nil in Hreq]].
    split; [simpl; lia|]. split; [done|].
    intros req Hreq. apply list_elem_of_singleton in Hreq as ->. done.
  - destruct (interface catalog event) as [e|form];
      by (split; [|split]); [simpl; lia| |intros req Hreq; by apply elem_of_nil in Hreq].
Qed.

(** X10.  Edge cases of [launch]: a submitted dictionary without one of the two
    location keys (the empty dictionary included) and an event without
    selection raise [KeyError]; two ids that the catalog does not know are
    answered as "the same location". *)
Theorem launch_edge_cases (catalog : list Location) (event : ActionEvent)
    (values : gmap string string) :
  ev_values event = Some values ->
  (values !! "from_location" = None ->
     launch catalog event = (inl (KeyError "from_location"), []))
  /\ (forall from_location,
        values !! "from_location" = Some from_location ->
        values !! "to_location" = None ->
        launch catalog event = (inl (KeyError "to_location"), []))
  /\ (forall from_location to_location,
        values !! "from_location" = Some from_location ->
        values !! "to_location" = Some to_location ->
        session_get catalog from_location = None ->
        session_get catalog to_location = None ->
        launch catalog event
        = (inr (Response false "Source and target locations are the same."), []))
  /\ (forall from_location to_location,
        values !! "from_location" = Some from_location ->
        values !! "to_location" = Some to_location ->
        entity_eq (session_get catalog from_location)
                  (session_get catalog to_location) = false ->
        ev_selection event = None ->
        launch catalog event = (inl (KeyError "selection"), [])).
Proof.
  intros Hvalues. unfold launch, subscript. rewrite Hvalues.
  split; [|split; [|split]].
  - by intros ->.
  - by intros f -> ->.
  - by intros f t -> -> -> ->.
  - by intros f t -> -> -> ->.
Qed.

(** X11.  Sending the form back unchanged starts a transfer from the first to the
    second eligible location, with both flags off. *)
Theorem form_defaults_start_a_transfer (catalog : list Location)
    (request : ActionEvent) (form : list form_item)
    (entities : list SelectionItem) (user_id : string) :
  NoDup (loc_id <$> catalog) ->
  interface catalog request = inr (Some form) ->
  exists first second rest,
    eligible_locations catalog = first :: second :: rest
    /\ launch catalog
         (mkActionEvent (Some (submitted_defaults form)) (Some entities) user_id)
       = (inr (Response true "Transferring components..."),
          [mkRequest entities (Some first) (Some second) (Some user_id) false false]).
Proof.
  intros Hnd Hform. unfold interface in Hform.
  destruct (decide (default ∅ (ev_values request) = ∅)) as [_|]; [|done].
  pose proof (eligible_ids_unique _ Hnd) as Hnd'.
  assert (Helig : forall l, l ∈ eligible_locations catalog -> l ∈ catalog).
  { intros l Hl. unfold eligible_locations in Hl.
    apply list_elem_of_filter in Hl as [_ Hl].
    rewrite sorted_by_priority_perm in Hl.
    by apply list_elem_of_filter in Hl as [_ Hl]. }
  destruct (eligible_locations catalog) as [|first [|second rest]] eqn:Hel; try done.
  exists first, second, rest. split; [done|].
  cbn [fmap list_fmap option_value lookup list_lookup location_option snd] in Hform.
  injection Hform as <-.
  assert (Hfrom : submitted_defaults
            [FormLabel "Transfer components between locations";
             FormEnumerator "From location" "from_location" (loc_id first)
               (location_option first :: location_option second
                :: (location_option <$> rest));
             FormEnumerator "To location" "to_location" (loc_id second)
               (location_option first :: location_option second
                :: (location_option <$> rest));
             FormLabel "---";
             FormEnumerator "Ignore missing" "ignore_component_not_in_location"
               "false" yes_no;
             FormEnumerator "Ignore errors" "ignore_location_errors" "false" yes_no]
          = <["from_location" := loc_id first]>
              (<["to_location" := loc_id second]>
                 (<["ignore_component_not_in_location" := "false"]>
                    (<["ignore_location_errors" := "false"]> ∅)))) by reflexivity.
  unfold launch, subscript. cbn [ev_values ev_selection ev_user_id].
  cbn [location_option snd] in *. rewrite Hfrom.
  rewrite lookup_insert_eq, lookup_insert_ne, lookup_insert_eq by done.
  rewrite !session_get_unique by (try done; apply Helig; set_solver).
  assert (loc_id first ≠ loc_id second) as Hne.
  { rewrite !fmap_cons in Hnd'. apply NoDup_cons in Hnd' as [Hn _]. set_solver. }
  unfold entity_eq. rewrite bool_decide_eq_false_2 by done.
  repeat f_equal.
Qed.

End HandlerExtras.

(** ** From discovery to the catalog *)

Section ResolverFailure.
Context `{sdk : SDK}.

Lemma run_query_components_failure l before q e after : forall acc w,
  Forall (fun q' => exists found,
            session_query (q' +:+ location_constraint l) = inr found) before ->
  session_query (q +:+ location_constraint l) = inl e ->
  exists tr,
    run (query_components (before ++ q :: after) (Some l) acc) w = (inl e, w, tr)
    /\ queries tr = (fun q' => q' +:+ location_constraint l) <$> (before ++ [q]).
Proof.
  induction before as [|q0 before IH]; intros acc w Hok Hfail.
  - cbn [app query_components]. rewrite run_bind.
    unfold logger_info at 1, emit, run at 1. rewrite run_bind.
    unfold in_location_query, mret, M_ret, run at 1. rewrite prepend_nil, run_bind.
    unfold query_all. rewrite run_bind. unfold emit, run at 1. rewrite Hfail.
    unfold raise, run, prepend. cbn [fst snd]. eexists. split; [reflexivity|done].
  - apply Forall_cons in Hok as [[found Hq0] Hok].
    cbn [app query_components]. rewrite run_bind.
    unfold logger_info at 1, emit, run at 1. rewrite run_bind.
    unfold in_location_query, mret, M_ret, run at 1. rewrite prepend_nil, run_bind.
    unfold query_all at 1. rewrite run_bind. unfold emit at 1, run at 1. rewrite Hq0.
    unfold mret, M_ret, run at 1, prepend at 2. cbn [fst snd].
    destruct (IH (acc ∪ list_to_set found) w Hok Hfail) as (tr & -> & Hqs).
    unfold prepend. cbn [fst snd]. eexists. split; [reflexivity|].
    rewrite fmap_cons, <- Hqs. reflexivity.
Qed.

(** X17.  When the catalog raises on one of the queries, the resolver raises
    the same exception, the world is as it was, and no later query is sent. *)
Theorem resolver_stops_at_first_failure
    (entities : list SelectionItem) (l : Location) (w : World)
    (before after : list string) (q : string) (e : exn) :
  build_component_queries (foldl group_append ∅ entities) = before ++ q :: after ->
  Forall (fun q' => exists found,
            session_query (q' +:+ location_constraint l) = inr found) before ->
  session_query (q +:+ location_constraint l) = inl e ->
  let r := run (get_components_in_location entities (Some l)) w in
  r.1 = (inl e, w)
  /\ queries r.2 = (fun q' => q' +:+ location_constraint l) <$> (before ++ [q]).
Proof.
  intros Hbuild Hok Hfail. cbv zeta. rewrite run_resolver_queries. cbv zeta.
  rewrite Hbuild.
  destruct (run_query_components_failure l before q e after ∅ w Hok Hfail)
    as (tr & -> & Hqs).
  cbn [fst snd]. split; [done|].
  rewrite queries_app, queries_processing_logs. cbn [app]. exact Hqs.
Qed.

(** A selection that [discover] accepts, in terms of the templates of the
    resolver. *)
Lemma discovered_selection_query_template
    (event : ActionEvent) (items : list ActionItem) (l : Location) (w : World) :
  discover event = inr (Some items) ->
  exists s template,
    default [] (ev_selection event) = [s]
    /\ (entityType s, template) ∈ bucket_templates
    /\ queries (run (get_components_in_location [s] (Some l)) w).2
       = [template [entityId s] +:+ location_constraint l].
Proof.
  unfold discover.
  destruct (default [] (ev_selection event)) as [|s [|s' rest]]; try done.
  cbn [length bool_decide decide_rel lookup list_lookup].
  rewrite bool_decide_eq_false_2 by (intros H; by apply H).
  destruct (bool_decide_reflect (entityType s ∉ SUPPORTED_ENTITY_TYPES)) as [|Hty];
    [done|]. intros _. apply dec_stable in Hty.
  assert (Hq : exists template,
    (entityType s, template) ∈ bucket_templates
    /\ build_component_queries (foldl group_append ∅ [s]) = [template [entityId s]]).
  { destruct s as [ty id]. cbn [entityType entityId] in *.
    unfold SUPPORTED_ENTITY_TYPES in Hty.
    repeat (apply elem_of_cons in Hty as [->|Hty];
            [eexists; split;
             [repeat first [apply list_elem_of_here | apply list_elem_of_further]
             |reflexivity]|]).
    by apply elem_of_nil in Hty. }
  destruct Hq as (template & Hin & Hbuild).
  exists s, template. split; [done|]. split; [done|].
  rewrite run_resolver_queries. cbv zeta. rewrite Hbuild.
  cbn [query_components]. rewrite run_bind.
  unfold logger_info at 1, emit, run at 1. rewrite run_bind.
  unfold in_location_query, mret, M_ret, run at 1. rewrite prepend_nil, run_bind.
  unfold query_all. rewrite run_bind. unfold emit, run at 1.
  destruct (session_query _) as [e|found];
    unfold raise, mret, M_ret, run, prepend; cbn [fst snd]; reflexivity.
Qed.

(** X8.  A selection that [discover] accepts makes the resolver send exactly
    one query: the query of the entity type of its only item over the id of
    that item between double quotes, followed by
    [ and component_locations.location_id is ] and the id of the location
    between double quotes. *)
Theorem discovered_selection_sends_one_query
    (event : ActionEvent) (items : list ActionItem) (l : Location) (w : World) :
  discover event = inr (Some items) ->
  let quoted (id : string) :=
    String (Ascii.ascii_of_nat 34) (id +:+ String (Ascii.ascii_of_nat 34) "") in
  let in_location :=
    " and component_locations.location_id is " +:+ quoted (loc_id l) in
  exists item,
    default [] (ev_selection event) = [item]
    /\ queries (run (get_components_in_location [item] (Some l)) w).2
       = [ (if decide (entityType item = "Project") then
              "Component where (version.asset.parent.project.id in ("
              +:+ quoted (entityId item) +:+ ") or version.asset.parent.id in ("
              +:+ quoted (entityId item) +:+ "))"
            else if decide (entityType item = "TypedContext") then
              "Component where (version.asset.parent.ancestors.id in ("
              +:+ quoted (entityId item) +:+ ") or version.asset.parent.id in ("
              +:+ quoted (entityId item) +:+ "))"
            else if decide (entityType item = "assetversion") then
              "Component where version_id in (" +:+ quoted (entityId item) +:+ ")"
            else
              "Component where id in (" +:+ quoted (entityId item) +:+ ")")
           +:+ in_location ].
Proof.
  intros Hd. cbv zeta.
  destruct (discovered_selection_query_template event items l w Hd)
    as (s & template & Hsel & Hin & Hq).
  exists s. split; [done|]. rewrite Hq. f_equal.
  unfold bucket_templates in Hin.
  rewrite !elem_of_cons, elem_of_nil in Hin.
  destruct Hin as [Hin|[Hin|[Hin|[Hin|[]]]]]; inversion Hin as [[Hty Ht]];
    rewrite Hty; repeat (destruct (decide (_ = _)) as [?|?]; try done);
    unfold project_query, context_query, version_query, component_query,
      location_constraint, dq;
    rewrite ?get_filter_string_text, ?string_app_assoc; reflexivity.
Qed.

End ResolverFailure.

(** ** The location hooks *)

Section HookExtras.
Context {py : PyString}.

Lemma ensure_lookup (session : ApiSession) name other :
  other ≠ name -> ensure session name !! other = session !! other.
Proof.
  intros Hne. unfold ensure. destruct (session !! name); [done|].
  by rewrite lookup_insert_ne.
Qed.

Lemma ensure_present (session : ApiSession) name :
  is_Some (session !! name) -> ensure session name = session.
Proof. intros [x Hx]. unfold ensure. by rewrite Hx. Qed.

Lemma ensure_at (session : ApiSession) name :
  ensure session name !! name
  = Some (default (mkSetup None false None) (session !! name)).
Proof.
  unfold ensure. destruct (session !! name) eqn:Hs; [by rewrite Hs|].
  by rewrite lookup_insert_eq.
Qed.

Lemma set_accessor_other name a (session : ApiSession) other :
  other ≠ name -> set_accessor name a session !! other = session !! other.
Proof. intros Hne. unfold set_accessor. by rewrite lookup_alter_ne. Qed.

Lemma set_structure_other name (session : ApiSession) other :
  other ≠ name -> set_structure name session !! other = session !! other.
Proof. intros Hne. unfold set_structure. by rewrite lookup_alter_ne. Qed.

Lemma set_priority_other name p (session : ApiSession) other :
  other ≠ name -> set_priority name p session !! other = session !! other.
Proof. intros Hne. unfold set_priority. by rewrite lookup_alter_ne. Qed.

(** The three assignments of the S3 routine on a location that exists. *)
Lemma s3_assignments_at name a p (session : ApiSession) l :
  session !! name = Some l ->
  set_priority name p (set_accessor name a (set_structure name session)) !! name
  = Some (mkSetup (Some a) true (Some p)).
Proof.
  intros Hl. unfold set_priority, set_accessor, set_structure.
  rewrite !lookup_alter_eq, Hl. reflexivity.
Qed.

(** The three assignments of the disk/user routine on a location that
    exists. *)
Lemma disk_assignments_at name a p (session : ApiSession) l :
  session !! name = Some l ->
  set_priority name p (set_structure name (set_accessor name a session)) !! name
  = Some (mkSetup (Some a) true (Some p)).
Proof.
  intros Hl. unfold set_priority, set_accessor, set_structure.
  rewrite !lookup_alter_eq, Hl. reflexivity.
Qed.

(** X13.  [session_add_s3_location].  It touches no location but the one
    named by [S3_LOCATION_NAME].  With an incomplete configuration it returns
    and leaves the session as it was.  With a complete one it raises what
    [session.ensure] raises, before anything is assigned; otherwise the
    location exists and has the standard structure, and then either
    [S3Accessor(bucket)] or [boto3.resource] raises, which leaves the
    accessor and the priority the location had, or the location gets the S3
    accessor on the bucket and the endpoint and the priority 10.  A call that
    returned changes nothing when it is repeated. *)
Theorem s3_location_registration (host : Host) (session : ApiSession) :
  let name := strip (default "" (getenv host "S3_LOCATION_NAME")) in
  let bucket := strip (default "" (getenv host "S3_BUCKET")) in
  let credentials := env_set host "AWS_ACCESS_KEY_ID" || env_set host "AWS_PROFILE" in
  let result := session_add_s3_location host session in
  let before := default (mkSetup None false None) (session !! name) in
  (forall other, other ≠ name -> result.2 !! other = session !! other)
  /\ (name = "" \/ bucket = "" \/ get_s3_api_endpoint host = None
      \/ get_s3_api_endpoint host = Some "" \/ credentials = false ->
      result = (None, session))
  /\ (forall endpoint,
        name ≠ "" -> bucket ≠ "" ->
        get_s3_api_endpoint host = Some endpoint -> endpoint ≠ "" ->
        credentials = true ->
        match ensure_raises host name with
        | Some e => result = (Some e, session)
        | None =>
            match s3_accessor_raises host bucket,
                  boto3_resource_raises host endpoint with
            | None, None =>
                result.1 = None
                /\ result.2 !! name
                   = Some (mkSetup (Some (S3Accessor bucket endpoint)) true
                                   (Some (VInt 10)))
            | Some e, _ | None, Some e =>
                result.1 = Some e
                /\ result.2 !! name
                   = Some (mkSetup (setup_accessor before) true
                                   (setup_priority before))
            end
        end)
  /\ (result.1 = None -> session_add_s3_location host result.2 = result).
Proof.
  cbv zeta. unfold session_add_s3_location.
  destruct (decide (strip (default "" (getenv host "S3_LOCATION_NAME")) = ""))
    as [Hn|Hn].
  { repeat split; try done. }
  destruct (decide (strip (default "" (getenv host "S3_BUCKET")) = "")) as [Hb|Hb].
  { repeat split; try done. }
  destruct (get_s3_api_endpoint host) as [endpoint|] eqn:He.
  2:{ repeat split; try done. }
  destruct (decide (endpoint = "")) as [Hee|Hee].
  { repeat split; try done. intros ? _ _ [= <-]. done. }
  destruct (env_set host "AWS_ACCESS_KEY_ID" || env_set host "AWS_PROFILE") eqn:Hc;
    cbn [negb].
  2:{ repeat split; try done. }
  set (name := strip (default "" (getenv host "S3_LOCATION_NAME"))) in *.
  set (bucket := strip (default "" (getenv host "S3_BUCKET"))) in *.
  assert (Hstruct : set_structure name (ensure session name) !! name
                    = Some (mkSetup
                              (setup_accessor
                                 (default (mkSetup None false None) (session !! name)))
                              true
                              (setup_priority
                                 (default (mkSetup None false None) (session !! name))))).
  { unfold set_structure. by rewrite lookup_alter_eq, ensure_at. }
  assert (Hfull : set_priority name (VInt 10)
                    (set_accessor name (S3Accessor bucket endpoint)
                       (set_structure name (ensure session name))) !! name
                  = Some (mkSetup (Some (S3Accessor bucket endpoint)) true
                                  (Some (VInt 10)))).
  { eapply s3_assignments_at. apply ensure_at. }
  split; [|split; [|split]].
  - intros other Hother.
    destruct (ensure_raises host name); [done|].
    destruct (s3_accessor_raises host bucket);
      [cbn [snd]; by rewrite set_structure_other, ensure_lookup|].
    destruct (boto3_resource_raises host endpoint); cbn [snd].
    + by rewrite set_structure_other, ensure_lookup.
    + by rewrite set_priority_other, set_accessor_other, set_structure_other,
                 ensure_lookup.
  - intros [?|[?|[?|[[= ?]|?]]]]; done.
  - intros endpoint' _ _ [= <-] _ _.
    destruct (ensure_raises host name); [done|].
    destruct (s3_accessor_raises host bucket); [by split|].
    destruct (boto3_resource_raises host endpoint); by split.
  - destruct (ensure_raises host name); [done|].
    destruct (s3_accessor_raises host bucket); [done|].
    destruct (boto3_resource_raises host endpoint); [done|].
    intros _. cbn [snd]. f_equal.
    rewrite ensure_present by (rewrite Hfull; by eexists).
    apply map_eq. intros other. destruct (decide (other = name)) as [->|Hother].
    + erewrite s3_assignments_at by exact Hfull. by rewrite Hfull.
    + by rewrite set_priority_other, set_accessor_other, set_structure_other.
Qed.

(** A name that no entry of the setup has is left as it was, wherever the
    loop ends. *)
Lemma add_user_location_other host setup : forall index session name,
  Forall (fun entry : pykey * pyval => entry_name entry.1 ≠ inr name) setup ->
  (session_add_user_location host index setup session).2 !! name = session !! name.
Proof.
  induction setup as [|[key data] rest IH]; intros index session name Hall; [done|].
  apply Forall_cons in Hall as [Hn Hall]. cbn [fst] in Hn.
  cbn [session_add_user_location].
  destruct (entry_name key) as [e|n]; [done|].
  assert (Hne : name ≠ n) by (intros ->; done).
  destruct (decide (n = "")); [by apply IH|].
  destruct (ensure_raises host n); [done|].
  destruct (entry_path host data) as [e|path]; [by apply ensure_lookup|].
  destruct (truthy path); cbn [negb].
  - destruct (disk_accessor_raises host path); [by apply ensure_lookup|].
    rewrite IH by done.
    by rewrite set_priority_other, set_structure_other, set_accessor_other,
               ensure_lookup.
  - rewrite IH by done. by apply ensure_lookup.
Qed.

(** The entries that raise nothing are a prefix of the loop: the rest runs
    on the session they leave, with the counter advanced by the number of
    them that were registered. *)
Lemma add_user_location_app host pre : forall index post session,
  (session_add_user_location host index pre session).1 = None ->
  session_add_user_location host index (pre ++ post) session
  = session_add_user_location host
      (index + length (filter (fun entry => registers host entry = true) pre)) post
      (session_add_user_location host index pre session).2.
Proof.
  induction pre as [|[key data] pre IH]; intros index post session Hpre.
  - cbn. by rewrite Nat.add_0_r.
  - cbn [app session_add_user_location] in *. rewrite filter_cons.
    assert (Hreg : registers host (key, data)
                   = match entry_name key, entry_path host data with
                     | inr name, inr path => negb (bool_decide (name = "")) && truthy path
                     | _, _ => false
                     end) by reflexivity.
    destruct (entry_name key) as [e|n]; [done|].
    destruct (decide (n = "")) as [Hn|Hn].
    { rewrite decide_False; [by apply IH|]. rewrite Hreg.
      rewrite bool_decide_eq_true_2 by done. by destruct (entry_path host data). }
    rewrite bool_decide_eq_false_2 in Hreg by done. cbn [negb andb] in Hreg.
    destruct (ensure_raises host n); [done|].
    destruct (entry_path host data) as [e|path]; [done|].
    destruct (truthy path); cbn [negb] in *.
    + destruct (disk_accessor_raises host path); [done|].
      rewrite decide_True by done. rewrite IH by done.
      cbn [length]. f_equal. lia.
    + rewrite decide_False by (rewrite Hreg; done). by apply IH.
Qed.

(** The first exception ends the loop. *)
Lemma add_user_location_raised host pre : forall index post session e,
  (session_add_user_location host index pre session).1 = Some e ->
  session_add_user_location host index (pre ++ post) session
  = session_add_user_location host index pre session.
Proof.
  induction pre as [|[key data] pre IH]; intros index post session e Hpre; [done|].
  cbn [app session_add_user_location] in *.
  destruct (entry_name key) as [e'|n]; [done|].
  destruct (decide (n = "")); [by eapply IH|].
  destruct (ensure_raises host n); [done|].
  destruct (entry_path host data) as [e'|path]; [done|].
  destruct (truthy path); cbn [negb] in *; [|by eapply IH].
  destruct (disk_accessor_raises host path); [done|]. by eapply IH.
Qed.

(** X14.  An entry of the setup that is reached without an exception, whose
    name is not blank once stripped, which has a path for this platform that
    is true, for which neither [session.ensure] nor [DiskAccessor] raises,
    and whose name no later entry has: its location has the disk accessor on
    that path, the standard structure, and as priority the value under
    ['priority'] of its data (whatever it is, [None] included) or, without
    that key, the number of entries registered before it. *)
Theorem user_location_registration (host : Host)
    (pre post : list (pykey * pyval)) (key : pykey) (data : pyval)
    (name : string) (path : pyval) (session : ApiSession) :
  (session_add_user_location host 0 pre session).1 = None ->
  entry_name key = inr name ->
  name ≠ "" ->
  ensure_raises host name = None ->
  entry_path host data = inr path ->
  truthy path = true ->
  disk_accessor_raises host path = None ->
  Forall (fun entry : pykey * pyval => entry_name entry.1 ≠ inr name) post ->
  (session_add_user_location host 0 (pre ++ (key, data) :: post) session).2 !! name
  = Some (mkSetup (Some (DiskAccessor path)) true
            (Some (entry_priority data
                     (length (filter (fun entry => registers host entry = true)
                                     pre))))).
Proof.
  intros Hpre Hkey Hn Hens Hpath Htrue Hdisk Hpost.
  rewrite add_user_location_app by done.
  cbn [session_add_user_location]. rewrite Hkey, decide_False, Hens, Hpath, Htrue by done.
  cbn [negb]. rewrite Hdisk, add_user_location_other by done.
  rewrite Nat.add_0_l. eapply disk_assignments_at. apply ensure_at.
Qed.

(** X15.  The other ways an entry of the setup can go.  Names that no entry
    has are untouched.  The first exception ends the loop, and the hook
    raises it with the locations registered so far in place: a key that is
    true and not a string, [session.ensure] raising, a [prefix] that is not
    a dictionary ([null] in the YAML file), which leaves the location created
    without an accessor, or [DiskAccessor] raising, which does the same.  An
    entry whose path for this platform is missing or false creates its
    location, too, and assigns nothing to it; the loop goes on. *)
Theorem user_location_edge_cases (host : Host)
    (pre post : list (pykey * pyval)) (key : pykey) (data : pyval)
    (session : ApiSession) :
  let setup := pre ++ (key, data) :: post in
  let reached := session_add_user_location host 0 pre session in
  let result := session_add_user_location host 0 setup session in
  (forall other,
     Forall (fun entry : pykey * pyval => entry_name entry.1 ≠ inr other) setup ->
     result.2 !! other = session !! other)
  /\ (forall e, reached.1 = Some e -> result = reached)
  /\ (reached.1 = None ->
      (forall e, entry_name key = inl e -> result = (Some e, reached.2))
      /\ forall name,
           entry_name key = inr name -> name ≠ "" ->
           (forall e, ensure_raises host name = Some e ->
                      result = (Some e, reached.2))
           /\ (ensure_raises host name = None ->
               (forall e, entry_path host data = inl e ->
                          result = (Some e, ensure reached.2 name))
               /\ (forall path e,
                     entry_path host data = inr path -> truthy path = true ->
                     disk_accessor_raises host path = Some e ->
                     result = (Some e, ensure reached.2 name))
               /\ (forall path,
                     entry_path host data = inr path -> truthy path = false ->
                     Forall (fun entry : pykey * pyval =>
                               entry_name entry.1 ≠ inr name) (pre ++ post) ->
                     session !! name = None ->
                     result.2 !! name = Some (mkSetup None false None)))).
Proof.
  cbv zeta. split; [intros other Hall; by apply add_user_location_other|].
  split; [intros e He; by eapply add_user_location_raised|].
  intros Hpre. rewrite add_user_location_app by done.
  cbn [session_add_user_location].
  split; [by intros e ->|].
  intros name -> Hn. rewrite decide_False by done.
  split; [by intros e ->|]. intros ->.
  split; [by intros e ->|].
  split; [intros path e -> -> ->; done|].
  intros path -> -> Hall Hnone. cbn [negb].
  apply Forall_app in Hall as [Hpre' Hpost].
  rewrite add_user_location_other by done.
  rewrite ensure_at, add_user_location_other by done. by rewrite Hnone.
Qed.

End HookExtras.

Section ConfigExtras.

Lemma dict_set_keys {V} key (v : V) d :
  (dict_set key v d).*1 = if decide (key ∈ d.*1) then d.*1 else d.*1 ++ [key].
Proof.
  induction d as [|[k old] d IH]; [done|]. cbn [dict_set].
  destruct (decide (k = key)) as [->|Hne].
  - rewrite decide_True by (rewrite fmap_cons; apply list_elem_of_here). done.
  - rewrite !fmap_cons, IH. cbn [fst].
    destruct (decide (key ∈ d.*1)) as [Hin|Hin].
    + rewrite decide_True by (by apply list_elem_of_further). done.
    + rewrite decide_False; [done|]. intros [?|?]%elem_of_cons; done.
Qed.

Lemma dict_set_map {V} key (v : V) d :
  (list_to_map (dict_set key v d) : gmap string V) = <[key := v]> (list_to_map d).
Proof.
  induction d as [|[k old] d IH]; [done|]. cbn [dict_set].
  destruct (decide (k = key)) as [->|Hne]; cbn [list_to_map foldr fst snd uncurry].
  - change (foldr (fun kv => <[kv.1 := kv.2]>) ∅ d) with (list_to_map d : gmap string V).
    by rewrite insert_insert_eq.
  - change (foldr (fun kv => <[kv.1 := kv.2]>) ∅ d) with (list_to_map d : gmap string V).
    change (foldr (fun kv => <[kv.1 := kv.2]>) ∅ (dict_set key v d))
      with (list_to_map (dict_set key v d) : gmap string V).
    rewrite IH. by apply insert_insert_ne.
Qed.

Lemma clean_locations_spec {py : PyString} raw : forall cleaned,
  NoDup cleaned.*1 ->
  Forall (fun name => name ≠ "" /\ strip name = name) cleaned.*1 ->
  NoDup (clean_locations raw cleaned).*1
  /\ Forall (fun name => name ≠ "" /\ strip name = name)
            (clean_locations raw cleaned).*1
  /\ (list_to_map (clean_locations raw cleaned) : gmap string pyval)
     = foldl (fun m kv => <[kv.1 := kv.2]> m) (list_to_map cleaned)
             (omap normalise_entry raw).
Proof.
  induction raw as [|[raw_name data] raw IH]; intros cleaned Hnd Hne; [done|].
  cbn [clean_locations omap list_omap]. unfold normalise_entry at 1. cbn [fst snd].
  destruct (decide (clean_name raw_name = "")) as [Hn|Hn]; [by apply IH|].
  cbn [foldl fst snd]. rewrite <- dict_set_map. apply IH.
  - rewrite dict_set_keys. destruct (decide _); [done|].
    apply NoDup_app. split; [done|]. split; [|apply NoDup_singleton].
    intros x Hx ->%list_elem_of_singleton. done.
  - rewrite dict_set_keys. destruct (decide _); [done|].
    apply Forall_app. split; [done|]. repeat constructor; [done|].
    unfold clean_name. apply strip_idemp.
Qed.

(** X16.  [load_location_config], from the parsed YAML on.  A document that
    is false (empty, [null]) gives no location, and so does a mapping
    without [locations] or with a false one; a document or a [locations]
    that is true and not a mapping raises [AttributeError].  Otherwise the
    result behaves like the dictionary it builds: the names are distinct,
    not empty and stripped, and the data of a name is that of the last entry
    of the file whose key has that name once it is turned into a string and
    stripped. *)
Theorem load_location_config_is_a_dictionary {py : PyString} (config : pyval) :
  (truthy config = false -> load_location_config config = inr [])
  /\ (truthy config = true -> (forall entries, config ≠ VDict entries) ->
      load_location_config config = inl AttributeError)
  /\ (forall entries, config = VDict entries ->
      let raw_locations := default (VDict []) (dict_lookup entries "locations") in
      (truthy raw_locations = false -> load_location_config config = inr [])
      /\ (truthy raw_locations = true ->
          (forall items, raw_locations ≠ VDict items) ->
          load_location_config config = inl AttributeError)
      /\ (forall items, raw_locations = VDict items ->
          exists cleaned,
            load_location_config config = inr cleaned
            /\ NoDup cleaned.*1
            /\ Forall (fun name => name ≠ "" /\ strip name = name) cleaned.*1
            /\ (list_to_map cleaned : gmap string pyval)
               = foldl (fun m kv => <[kv.1 := kv.2]> m) ∅
                       (omap normalise_entry items))).
Proof.
  assert (Hdict : forall entries,
            py_get (or_empty_dict (VDict entries)) "locations" (VDict [])
            = inr (default (VDict []) (dict_lookup entries "locations"))).
  { intros [|entry entries]; reflexivity. }
  assert (Hitems : forall items, py_items (or_empty_dict (VDict items)) = inr items).
  { intros [|item items]; reflexivity. }
  split; [|split].
  - intros Hf. unfold load_location_config, or_empty_dict. rewrite Hf. reflexivity.
  - intros Ht Hnd. unfold load_location_config, or_empty_dict. rewrite Ht.
    destruct config; try reflexivity. by destruct (Hnd entries).
  - intros entries ->. cbv zeta. unfold load_location_config. rewrite Hdict.
    split; [|split].
    + intros Hf. unfold or_empty_dict at 1. rewrite Hf. reflexivity.
    + intros Ht Hnd. unfold or_empty_dict. rewrite Ht.
      destruct (default (VDict []) (dict_lookup entries "locations"));
        try reflexivity.
      by destruct (Hnd entries0).
    + intros items ->. rewrite Hitems. eexists. split; [reflexivity|].
      destruct (clean_locations_spec items []) as (H1 & H2 & H3);
        [constructor | constructor | done].
Qed.

Lemma join_pair sep a b : join sep [a; b] = a +:+ sep +:+ b.
Proof. reflexivity. Qed.

(** X12.  [add_path_to_event_plugins] puts the path at the end of
    [FTRACK_EVENT_PLUGIN_PATH] in the environment of the event, creating what
    is missing on the way, and changes nothing else. *)
Theorem plugin_path_is_appended (pathsep : string) (event : LaunchEvent)
    (path : string) :
  let after := add_path_to_event_plugins pathsep event path in
  let before_value := default "" (launch_env event !! FTRACK_EVENT_PLUGIN_PATH) in
  launch_env after !! FTRACK_EVENT_PLUGIN_PATH
    = Some (if decide (before_value = "") then path
            else before_value +:+ pathsep +:+ path)
  /\ (forall name, name ≠ FTRACK_EVENT_PLUGIN_PATH ->
        launch_env after !! name = launch_env event !! name)
  /\ launch_topic after = launch_topic event
  /\ (forall data, launch_data event = Some data ->
        exists data', launch_data after = Some data'
          /\ launch_other data' = launch_other data
          /\ forall options, launch_options data = Some options ->
               exists options', launch_options data' = Some options'
                 /\ options_other options' = options_other options).
Proof.
  cbv zeta. unfold add_path_to_event_plugins, launch_env, append_path_to_environment.
  cbn [launch_data launch_options options_env launch_topic default from_option id].
  split; [by rewrite lookup_insert_eq|]. split; [|split; [done|]].
  - intros name Hname. by rewrite lookup_insert_ne.
  - intros data Hdata. rewrite Hdata. cbn [default from_option id].
    eexists. split; [done|]. split; [done|].
    intros options Hoptions. rewrite Hoptions. cbn [default from_option id].
    eexists. by split.
Qed.

End ConfigExtras.

(** * The additional properties on concrete inputs *)

(** The three components of [v1] are copied: the job ends [done]. *)
Lemma done_iff_every_attempt_survived_witness :
  final_status
    (invoke (sdk := ref_sdk three_components ∅) select_v1 (Some vault_A)
            (Some vault_B) (Some "u1") false false only_in_A).1 = Some "done".
Proof.
  apply (proj1 (done_iff_every_attempt_survived
                  (sdk := ref_sdk three_components ∅) (srv := reliable)
                  select_v1 (Some vault_A) (Some vault_B) (Some "u1")
                  false false only_in_A)).
  vm_compute. eexists. split; [reflexivity|]. split; [reflexivity|].
  split; [|reflexivity]. repeat constructor.
Defined.

(** On the server that refuses the commit of the second progress
    description, the job committed as [failed] carries the first description:
    the second one was dropped by the rollback. *)
Lemma job_store_invariant_witness :
  let r := invoke (sdk := ref_sdk three_components ∅) (srv := refuses_second_progress)
                  select_v1 (Some vault_A) (Some vault_B) (Some "u1")
                  false false only_in_A in
  length (rollbacks r.2) = 1
  /\ local (session r.1) = remote (session r.1)
  /\ exists j', last (removelast (commits r.2)) = Some [j']
       /\ mkJob (Some "u1") "failed"
                (json_dumps_description "Transfer components (1 of 3)")
          = set_job_status "failed" j'.
Proof.
  cbv zeta.
  destruct (job_store_invariant (sdk := ref_sdk three_components ∅)
              (srv := refuses_second_progress)
              select_v1 (Some vault_A) (Some vault_B) (Some "u1") false false
              only_in_A) as (_ & _ & Hsame & Hroll & _ & Hdrop).
  split; [apply Hroll; vm_compute; reflexivity|].
  split; [apply Hsame; vm_compute; reflexivity|].
  apply Hdrop; vm_compute; reflexivity.
Defined.

(** The run that copies the three components is the same with both flags
    set. *)
Lemma more_flags_keep_done_runs_witness :
  invoke (sdk := ref_sdk three_components ∅) select_v1 (Some vault_A) (Some vault_B)
         (Some "u1") true true only_in_A
  = invoke (sdk := ref_sdk three_components ∅) select_v1 (Some vault_A) (Some vault_B)
           (Some "u1") false false only_in_A.
Proof.
  apply (more_flags_keep_done_runs (sdk := ref_sdk three_components ∅)).
  - vm_compute. reflexivity.
  - discriminate.
  - discriminate.
Defined.

(** A selection of one task resolves to nothing, without a query. *)
Lemma unsupported_items_are_ignored_witness :
  let r := run (sdk := ref_sdk three_components ∅)
               (get_components_in_location (sdk := ref_sdk three_components ∅)
                  select_task (Some vault_A))
               (mkWorld (sdk := ref_sdk three_components ∅) fresh_session only_in_A) in
  r.1 = (inr [], mkWorld (sdk := ref_sdk three_components ∅) fresh_session only_in_A)
  /\ queries r.2 = [].
Proof.
  apply (proj2 (unsupported_items_are_ignored (sdk := ref_sdk three_components ∅)
                  select_task (Some vault_A) only_in_A)).
  repeat constructor. vm_compute. intros H.
  repeat (apply elem_of_cons in H as [H|H]; [discriminate|]).
  by apply elem_of_nil in H.
Defined.


(** One version selected: the action is offered. *)
Lemma discover_gate_witness :
  discover discover_v1
  = inr (Some [mkActionItem "Transfer Components [new]"
                            "Transfer components between locations."
                            "transfer.components"]).
Proof.
  apply (proj2 (proj1 (proj2 (discover_gate discover_v1)) _)).
  split; [reflexivity|]. exists (mkSelection "assetversion" "v1").
  split; [reflexivity|]. apply list_elem_of_here.
Defined.

(** The discovery event for [v1] leads to the one query on its version. *)
Lemma discovered_selection_sends_one_query_witness :
  let q (s : string) :=
    String (Ascii.ascii_of_nat 34) (s +:+ String (Ascii.ascii_of_nat 34) "") in
  queries (run (sdk := ref_sdk three_components ∅)
               (get_components_in_location (sdk := ref_sdk three_components ∅)
                  select_v1 (Some vault_A))
               (mkWorld (sdk := ref_sdk three_components ∅)
                        fresh_session only_in_A)).2
  = ["Component where version_id in (" +:+ q "v1"
     +:+ ") and component_locations.location_id is " +:+ q "loc-a"].
Proof.
  cbv zeta.
  destruct (discovered_selection_sends_one_query (sdk := ref_sdk three_components ∅)
              discover_v1
              [mkActionItem "Transfer Components [new]"
                            "Transfer components between locations."
                            "transfer.components"]
              vault_A
              (mkWorld (sdk := ref_sdk three_components ∅) fresh_session only_in_A))
    as (item & Hsel & Hq); [reflexivity|].
  injection Hsel as <-. exact Hq.
Defined.

(** A launch from [vault_A] to [vault_B]: one transfer is started, between
    two different locations, for the user of the event. *)
Lemma launch_starts_one_transfer_witness :
  let event := mkActionEvent (Some a_to_b) (Some select_v1) "u1" in
  (launch studio_catalog event).2 ≠ []
  /\ entity_eq (Some vault_A) (Some vault_B) = false
  /\ req_user_id (mkRequest select_v1 (Some vault_A) (Some vault_B) (Some "u1")
                            true false) = Some "u1".
Proof.
  cbv zeta.
  pose proof (launch_starts_one_transfer studio_catalog
                (mkActionEvent (Some a_to_b) (Some select_v1) "u1"))
    as (_ & Hiff & Hreq).
  split.
  - apply (proj1 Hiff). reflexivity.
  - destruct (Hreq (mkRequest select_v1 (Some vault_A) (Some vault_B) (Some "u1")
                              true false)) as (Hne & Hu & _).
    + vm_compute. apply list_elem_of_here.
    + split; [exact Hne | exact Hu].
Defined.

(** The empty dictionary raises; two unknown ids are "the same". *)
Lemma launch_edge_cases_witness :
  launch studio_catalog (mkActionEvent (Some ∅) (Some select_v1) "u1")
    = (inl (KeyError "from_location"), [])
  /\ launch studio_catalog (mkActionEvent (Some unknown_ids) (Some select_v1) "u1")
     = (inr (Response false "Source and target locations are the same."), [])
  /\ launch studio_catalog (mkActionEvent (Some a_to_b) None "u1")
     = (inl (KeyError "selection"), []).
Proof.
  split; [|split].
  - apply (proj1 (launch_edge_cases studio_catalog
                    (mkActionEvent (Some ∅) (Some select_v1) "u1") ∅ eq_refl)).
    reflexivity.
  - apply (proj1 (proj2 (proj2 (launch_edge_cases studio_catalog
             (mkActionEvent (Some unknown_ids) (Some select_v1) "u1")
             unknown_ids eq_refl))) "loc-y" "loc-z"); reflexivity.
  - apply (proj2 (proj2 (proj2 (launch_edge_cases studio_catalog
             (mkActionEvent (Some a_to_b) None "u1") a_to_b eq_refl)))
             "loc-a" "loc-b"); reflexivity.
Defined.

(** The form of the studio catalog, sent back unchanged. *)
Lemma form_defaults_start_a_transfer_witness :
  exists form first second rest,
    interface studio_catalog interface_request = inr (Some form)
    /\ eligible_locations studio_catalog = first :: second :: rest
    /\ launch studio_catalog
         (mkActionEvent (Some (submitted_defaults form)) (Some select_v1) "u1")
       = (inr (Response true "Transferring components..."),
          [mkRequest select_v1 (Some first) (Some second) (Some "u1") false false]).
Proof.
  destruct (interface studio_catalog interface_request) as [e|[form|]] eqn:Hform;
    [vm_compute in Hform; discriminate | | vm_compute in Hform; discriminate].
  destruct (form_defaults_start_a_transfer studio_catalog interface_request form
              select_v1 "u1") as (first & second & rest & Hel & Hlaunch).
  - vm_compute. repeat constructor; intros H;
      repeat (apply elem_of_cons in H as [H|H]; [discriminate|]);
      by apply elem_of_nil in H.
  - exact Hform.
  - exists form, first, second, rest. split; [reflexivity|]. by split.
Defined.

(** A launch event that already has a plugin path. *)
Lemma plugin_path_is_appended_witness :
  launch_env (add_path_to_event_plugins ":" dcc_launch "/plugin/hook/locations")
    !! "FTRACK_EVENT_PLUGIN_PATH" = Some "/opt/hooks:/plugin/hook/locations"
  /\ launch_env (add_path_to_event_plugins ":" dcc_launch "/plugin/hook/locations")
       !! "HOME" = Some "/home/artist".
Proof.
  pose proof (plugin_path_is_appended ":" dcc_launch "/plugin/hook/locations")
    as (Hv & Hother & _).
  split.
  - etransitivity; [exact Hv | reflexivity].
  - etransitivity; [apply (Hother "HOME"); discriminate | reflexivity].
Defined.

(** On the workstation the S3 location is registered; without any S3 setting
    nothing is; and when [boto3.resource] raises, the location stays behind
    with the standard structure and no accessor. *)
Lemma s3_location_registration_witness :
  (session_add_s3_location (py := ascii_text) workstation ∅).2 !! "studio.s3"
  = Some (mkSetup (Some (S3Accessor "proj" "https://minio.example")) true
                  (Some (VInt 10)))
  /\ session_add_s3_location (py := ascii_text) bare_workstation ∅ = (None, ∅)
  /\ (session_add_s3_location (py := ascii_text) offline_workstation ∅).1
     = Some (OtherError "ValueError")
  /\ (session_add_s3_location (py := ascii_text) offline_workstation ∅).2
       !! "studio.s3"
     = Some (mkSetup None true None).
Proof.
  pose proof (proj1 (proj2 (proj2 (s3_location_registration (py := ascii_text)
                                     workstation ∅)))
                "https://minio.example") as Hfull.
  pose proof (proj1 (proj2 (proj2 (s3_location_registration (py := ascii_text)
                                     offline_workstation ∅)))
                "https://minio.example") as Hhalf.
  cbv zeta in Hfull, Hhalf.
  split; [|split].
  - refine (proj2 (Hfull _ _ _ _ _)); (reflexivity || (vm_compute; discriminate)).
  - apply (proj1 (proj2 (s3_location_registration (py := ascii_text)
                           bare_workstation ∅))).
    left. reflexivity.
  - refine (Hhalf _ _ _ _ _); (reflexivity || (vm_compute; discriminate)).
Defined.

(** The third of the three disks: two entries come before it, one of which
    is registered.  And the first of the disks whose priority is [null]: the
    priority of its location is [None]. *)
Lemma user_location_registration_witness :
  (session_add_user_location (py := ascii_text) workstation 0 three_disks ∅).2
    !! "archive.disk"
  = Some (mkSetup (Some (DiskAccessor (VStr "/mnt/archive"))) true (Some (VInt 1)))
  /\ (session_add_user_location (py := ascii_text) workstation 0 null_disks ∅).2
       !! "studio.disk"
     = Some (mkSetup (Some (DiskAccessor (VStr "/mnt/projects"))) true (Some VNone)).
Proof.
  split.
  - refine (user_location_registration (py := ascii_text) workstation
             [(KStr "studio.disk", disk_data "linux" "/mnt/projects" (Some (VInt 5)));
              (KStr "laptop.disk", disk_data "win32" "D:\projects" None)]
             [] (KStr " archive.disk ") (disk_data "linux" "/mnt/archive" None)
             "archive.disk" (VStr "/mnt/archive") ∅ _ _ _ _ _ _ _ _);
      try reflexivity; try discriminate. constructor.
  - refine (user_location_registration (py := ascii_text) workstation
             []
             [(KStr "scratch.disk", VDict [(KStr "prefix", VNone)]);
              (KStr "archive.disk", disk_data "linux" "/mnt/archive" None)]
             (KStr "studio.disk") (disk_data "linux" "/mnt/projects" (Some VNone))
             "studio.disk" (VStr "/mnt/projects") ∅ _ _ _ _ _ _ _ _);
      try reflexivity; try discriminate.
    repeat constructor; vm_compute; discriminate.
Defined.

(** The second of the three disks has no path for Linux; and the second of
    the disks with a [null] prefix ends the loop with [AttributeError]: its
    location is created, the third disk is not reached. *)
Lemma user_location_edge_cases_witness :
  (session_add_user_location (py := ascii_text) workstation 0 three_disks ∅).2
    !! "laptop.disk"
  = Some (mkSetup None false None)
  /\ (session_add_user_location (py := ascii_text) workstation 0 three_disks ∅).2
       !! "other.disk" = None
  /\ (session_add_user_location (py := ascii_text) workstation 0 null_disks ∅).1
     = Some AttributeError
  /\ (session_add_user_location (py := ascii_text) workstation 0 null_disks ∅).2
       !! "scratch.disk" = Some (mkSetup None false None)
  /\ (session_add_user_location (py := ascii_text) workstation 0 null_disks ∅).2
       !! "archive.disk" = None.
Proof.
  pose proof (user_location_edge_cases (py := ascii_text) workstation
           [(KStr "studio.disk", disk_data "linux" "/mnt/projects" (Some (VInt 5)))]
           [(KStr " archive.disk ", disk_data "linux" "/mnt/archive" None)]
           (KStr "laptop.disk") (disk_data "win32" "D:\projects" None) ∅)
    as (Hother & _ & Hgo).
  pose proof (user_location_edge_cases (py := ascii_text) workstation
           [(KStr "studio.disk", disk_data "linux" "/mnt/projects" (Some VNone))]
           [(KStr "archive.disk", disk_data "linux" "/mnt/archive" None)]
           (KStr "scratch.disk") (VDict [(KStr "prefix", VNone)]) ∅)
    as (_ & _ & Hraise).
  cbv zeta in *.
  destruct (Hgo eq_refl) as [_ Hgo'].
  destruct (Hgo' "laptop.disk" eq_refl ltac:(discriminate)) as [_ Hbare].
  destruct (Hbare eq_refl) as (_ & _ & Hbare').
  destruct (Hraise eq_refl) as [_ Hraise'].
  destruct (Hraise' "scratch.disk" eq_refl ltac:(discriminate)) as [_ Hnull].
  destruct (Hnull eq_refl) as (Hnull' & _).
  specialize (Hnull' AttributeError eq_refl).
  split; [|split; [|split; [|split]]].
  - apply (Hbare' (VStr "")); try reflexivity.
    repeat constructor; vm_compute; discriminate.
  - apply (Hother "other.disk"). repeat constructor; vm_compute; discriminate.
  - change null_disks with
      ([(KStr "studio.disk", disk_data "linux" "/mnt/projects" (Some VNone))]
       ++ (KStr "scratch.disk", VDict [(KStr "prefix", VNone)])
          :: [(KStr "archive.disk", disk_data "linux" "/mnt/archive" None)]).
    rewrite Hnull'. reflexivity.
  - change null_disks with
      ([(KStr "studio.disk", disk_data "linux" "/mnt/projects" (Some VNone))]
       ++ (KStr "scratch.disk", VDict [(KStr "prefix", VNone)])
          :: [(KStr "archive.disk", disk_data "linux" "/mnt/archive" None)]).
    rewrite Hnull'. reflexivity.
  - change null_disks with
      ([(KStr "studio.disk", disk_data "linux" "/mnt/projects" (Some VNone))]
       ++ (KStr "scratch.disk", VDict [(KStr "prefix", VNone)])
          :: [(KStr "archive.disk", disk_data "linux" "/mnt/archive" None)]).
    rewrite Hnull'. reflexivity.
Defined.

(** The studio's file: the two spellings of [studio.disk] are one location
    with the data written last, the null key and the key of blanks are
    dropped, and the location without data gets an empty dictionary. *)
Lemma load_location_config_is_a_dictionary_witness :
  exists cleaned,
    load_location_config (py := ascii_text) studio_yaml = inr cleaned
    /\ NoDup cleaned.*1
    /\ (list_to_map cleaned : gmap string pyval)
       = {[ "studio.disk" := disk_data "linux" "/mnt/projects" None;
            "archive.disk" := VDict [] ]}.
Proof.
  destruct (proj2 (proj2 (load_location_config_is_a_dictionary
                            (py := ascii_text) studio_yaml))
              _ eq_refl) as (_ & _ & Hmap).
  destruct (Hmap _ eq_refl) as (cleaned & Hload & Hnodup & _ & Hdict).
  exists cleaned. split; [exact Hload|]. split; [exact Hnodup|].
  rewrite Hdict. vm_compute. reflexivity.
Defined.

(** The query for the project answers, the query for the version fails. *)
Lemma resolver_stops_at_first_failure_witness :
  let r := run (sdk := ref_sdk failing_second_query ∅)
               (get_components_in_location (sdk := ref_sdk failing_second_query ∅)
                  project_and_version (Some vault_A))
               (mkWorld (sdk := ref_sdk failing_second_query ∅)
                        fresh_session only_in_A) in
  r.1 = (inl (OtherError "ServerError"),
         mkWorld (sdk := ref_sdk failing_second_query ∅) fresh_session only_in_A)
  /\ queries r.2
     = [project_query ["p1"] +:+ location_constraint vault_A;
        version_query ["v1"] +:+ location_constraint vault_A].
Proof.
  apply (resolver_stops_at_first_failure (sdk := ref_sdk failing_second_query ∅)
           project_and_version vault_A
           (mkWorld (sdk := ref_sdk failing_second_query ∅) fresh_session only_in_A)
           [project_query ["p1"]]
           [component_query ["c9"]] (version_query ["v1"])
           (OtherError "ServerError")).
  - vm_compute. reflexivity.
  - repeat constructor. exists ["c1"]. vm_compute. reflexivity.
  - vm_compute. reflexivity.
Defined.
